(** * vivarium-core: process classes, path insertion, schema overrides,
      the parallel adapter and the serializer fallback

    A shallow embedding of [vivarium/core/process.py] and of the fallback of
    [vivarium/core/serialize.py], with the properties the design document
    states about them; and, beside these, of deserialization in
    [serialize.py], of the option parser and the experiments library of
    [vivarium/core/control.py], and of the division of agents in
    [processes/meta_division.py] and [experiments/bigraph_view.py].

    Python dictionaries are finite maps ([gmap string _]); a dictionary that
    is mutated through a shared reference lives in an explicit store: the
    dictionaries that path insertion and the schema overrides change in
    place are objects of a heap, which several holders may share.  A
    Python exception is the left injection of [result].

    The first part holds the definitions: the embedding of the source, the
    predicates the statements are written with, and the concrete processes
    and registries the examples run on.  The second part holds the
    lemmas and theorems for the design document's statements, the third
    further properties that the code has. *)

From stdpp Require Import gmap strings list fin_maps.
From Stdlib Require Import Floats.

Set Warnings "-register-all".
Set Default Proof Using "Type".

(** * Part I: definitions *)

(** ** Python values *)

(** Immutable leaves.  [AFloat] is an IEEE double, as in CPython. *)
Inductive atom :=
| ANone
| ABool (b : bool)
| AInt (z : Z)
| AFloat (f : float)
| AStr (s : string).

(** The values that occur in parameters, schemas, states and updates:
    leaves, lists and string-keyed dictionaries. *)
Inductive value :=
| VAtom (a : atom)
| VList (l : list value)
| VDict (m : gmap string value).

Abbreviation VNone := (VAtom ANone).
Abbreviation VBool b := (VAtom (ABool b)).
Abbreviation VInt z := (VAtom (AInt z)).
Abbreviation VFloat f := (VAtom (AFloat f)).
Abbreviation VStr s := (VAtom (AStr s)).

(** [isinstance(v, dict)]. *)
Definition is_dict (v : value) : bool :=
  match v with VDict _ => true | _ => false end.

(** Structural size, the measure behind induction on nested dictionaries. *)
Fixpoint vsize (v : value) : nat :=
  match v with
  | VAtom _ => 1
  | VList l => S (foldr (λ x n, vsize x + n) 0 l)
  | VDict m => S (map_fold (λ _ x n, vsize x + n) 0 m)
  end.

(** ** Exceptions *)

Inductive exn :=
| AttributeError
| KeyError (k : string)
| TypeError (msg : string).

(** The outcome of a call: the exception it raises or what it returns. *)
Definition result (A : Type) : Type := exn + A.
Abbreviation Ok := inr (only parsing).
Abbreviation Raise := inl (only parsing).

Definition rbind {A B} (r : result A) (k : A → result B) : result B :=
  match r with
  | inl e => inl e
  | inr a => k a
  end.

Notation "x ←! r ; k" := (rbind r (λ x, k))
  (at level 20, r at level 100, k at level 200, right associativity,
   format "x  ←!  r ;  '/' k").

(** The call returns. *)
Definition is_ok {A} (r : result A) : Prop := ∃ a, r = inr a.

(** [copy.deepcopy]: on values without identity a copy is the value. *)
Definition deepcopy {A} (x : A) : A := x.

(** ** Path insertion: [assoc_in] *)

(** [assoc_in(d, path, value)].  With a non-empty path, [d.get] needs [d] to
    be a dictionary (anything else has no [get]: AttributeError); the absent
    key defaults to a new empty dictionary, and [dict(d, **{k: sub})] is [d]
    with [k] rebound. *)
Fixpoint assoc_in (d : value) (path : list string) (v : value) : result value :=
  match path with
  | [] => Ok v
  | k :: rest =>
      match d with
      | VDict m =>
          sub ←! assoc_in (default (VDict ∅) (m !! k)) rest v;
          Ok (VDict (<[k := sub]> m))
      | _ => Raise AttributeError
      end
  end.

(** Reading a path back (the specification's side of the contract: the
    value found by following [path] from [d], if every step is a key of a
    dictionary). *)
Fixpoint get_in (d : value) (path : list string) : option value :=
  match path with
  | [] => Some d
  | k :: rest =>
      match d with
      | VDict m => m !! k ≫= λ x, get_in x rest
      | _ => None
      end
  end.

(** The path never runs into a value that is not a dictionary: every key of
    [path] that is bound on the way is bound to a dictionary, the last one
    apart (it may be bound to anything: it is overwritten). *)
Fixpoint path_clear (d : value) (path : list string) : bool :=
  match path with
  | [] => true
  | k :: rest =>
      match d with
      | VDict m =>
          match m !! k with
          | Some x => path_clear x rest
          | None => true
          end
      | _ => false
      end
  end.

(** The chain of one-key dictionaries that leads to [v] along [path]. *)
Fixpoint nest (path : list string) (v : value) : value :=
  match path with
  | [] => v
  | k :: rest => VDict {[ k := nest rest v ]}
  end.

(** Two paths that part ways: neither is a prefix of the other. *)
Definition diverge (p q : list string) : Prop :=
  ∃ pre k k' r r', k ≠ k' ∧ p = pre ++ k :: r ∧ q = pre ++ k' :: r'.

(** ** [assoc_in] on a store of dictionary objects

    Python dictionaries are objects: [dict(d, ...)] allocates, and a value
    found in [d] is shared with the result, not copied.  The store maps the
    address of every dictionary to its items; an item is a reference to a
    dictionary or any other object, which [assoc_in] never looks into. *)
Module Heap.

Abbreviation loc := positive.

Inductive hval :=
| HLeaf (v : value)
| HRef (l : loc).

Abbreviation heap := (gmap loc (gmap string hval)).

(** A new dictionary object at an address the store does not use. *)
Definition alloc (h : heap) (m : gmap string hval) : heap * loc :=
  let l := fresh (dom h) in (<[l := m]> h, l).

(** [assoc_in] with the store threaded through; the store is returned on
    an exception too.  (A reference the store does not know cannot occur;
    it is an error here.) *)
Fixpoint assoc_in (d : hval) (path : list string) (v : hval) (h : heap)
  : heap * result hval :=
  match path with
  | [] => (h, Ok v)
  | k :: rest =>
      match d with
      | HRef l =>
          match h !! l with
          | Some m =>
              (* d.get(path[0], {}): the default is built before the call *)
              let '(h1, e) := alloc h ∅ in
              let child := default (HRef e) (m !! k) in
              match assoc_in child rest v h1 with
              | (h2, inr sub) =>
                  (* dict(d, **{path[0]: sub}): the items of d, read now,
                     then the key, in a new dictionary *)
                  let '(h3, n) := alloc h2 (<[k := sub]> (default ∅ (h2 !! l))) in
                  (h3, Ok (HRef n))
              | (h2, inl err) => (h2, Raise err)
              end
          | None => (h, Raise AttributeError)
          end
      | HLeaf _ => (h, Raise AttributeError)
      end
  end.

(** Following a path through the store. *)
Fixpoint get_in (h : heap) (d : hval) (path : list string) : option hval :=
  match path with
  | [] => Some d
  | k :: rest =>
      match d with
      | HRef l => h !! l ≫= λ m, m !! k ≫= λ x, get_in h x rest
      | HLeaf _ => None
      end
  end.

(** The object [hv] of the store [h] is the tree [v]. *)
Inductive reps (h : heap) : hval → value → Prop :=
| reps_leaf v : is_dict v = false → reps h (HLeaf v) v
| reps_dict l m pm :
    h !! l = Some m →
    (∀ k, option_Forall2 (reps h) (m !! k) (pm !! k)) →
    reps h (HRef l) (VDict pm).

End Heap.

(** The input of the docstring's call, on a store: the dictionary at 1
    holds the one at 2 under ["a"]. *)
Definition docstring_heap : gmap positive (gmap string Heap.hval) :=
  {[ 1%positive := {[ "a" := Heap.HRef 2 ]};
     2%positive := {[ "b" := Heap.HLeaf (VInt 1) ]} ]}.

(** ** Deep merge *)

(** Modelled from the spec: [deep_merge] of [vivarium.library.dict_utils]
    is not among the sources.  The design document describes it as a
    depth-first merge of mappings in which the override wins: where both
    sides hold a mapping under a key the two are merged, anywhere else the
    second argument's value replaces the first's.  [merge_value old new] is
    what a key holds after the merge, [old] being what it held before. *)
Fixpoint merge_value (old : option value) (new : value) {struct new} : value :=
  match old, new with
  | Some (VDict x), VDict y =>
      VDict (map_fold (λ k v acc, <[k := merge_value (acc !! k) v]> acc) x y)
  | _, _ => new
  end.

Definition deep_merge (dct merge_dct : gmap string value) : gmap string value :=
  map_fold (λ k v acc, <[k := merge_value (acc !! k) v]> acc) dct merge_dct.

(** No key on the way to the end of [q] is bound in [b]'s tree: walking [q]
    in [b] leaves the tree at a key that is absent from a dictionary. *)
Fixpoint untouched (b : value) (q : list string) : bool :=
  match q with
  | [] => false
  | k :: rest =>
      match b with
      | VDict m =>
          match m !! k with
          | None => true
          | Some x => untouched x rest
          end
      | _ => false
      end
  end.

(** ** Dictionary methods used by [Process] *)

(** [d.pop(k, dflt)]: the value and the dictionary without the key. *)
Definition pop (k : string) (dflt : value) (d : gmap string value)
  : value * gmap string value :=
  (default dflt (d !! k), delete k d).

(** [d.setdefault(k, v)], for its effect on [d]. *)
Definition setdefault (k : string) (v : value) (d : gmap string value)
  : gmap string value :=
  match d !! k with
  | Some _ => d
  | None => <[k := v]> d
  end.

(** [needle in hay] on strings: [needle] occurs in [hay]. *)
Fixpoint str_contains (needle hay : string) : bool :=
  if String.prefix needle hay then true
  else match hay with
       | EmptyString => false
       | String _ rest => str_contains needle rest
       end.

(** [v == s] for a string [s]. *)
Definition is_str (s : string) (v : value) : bool :=
  match v with
  | VStr s' => String.eqb s s'
  | _ => false
  end.

(** [key in v]: key membership on a dictionary, element membership on a
    list, substring on a string; the other leaves are not containers. *)
Definition py_in (key : string) (v : value) : result bool :=
  match v with
  | VDict m => Ok (bool_decide (is_Some (m !! key)))
  | VList l => Ok (existsb (is_str key) l)
  | VStr s => Ok (str_contains key s)
  | VAtom _ => Raise (TypeError "argument is not iterable")
  end.

(** [v[key]] with a string key: only a dictionary can be indexed by it. *)
Definition py_getitem (key : string) (v : value) : result value :=
  match v with
  | VDict m =>
      match m !! key with
      | Some x => Ok x
      | None => Raise (KeyError key)
      end
  | _ => Raise (TypeError "not subscriptable by a string")
  end.

(** ** The [Process] class *)

Definition DEFAULT_TIME_STEP : value := VFloat 1.0%float.

Module Process.

(** The attributes [__init__] sets on an instance. *)
Record t := {
  name : value;
  parameters : gmap string value;
  schema_override : value;
  parallel : value;
  schema : value;
}.

(** What a subclass provides: its name, the [name] class attribute if it
    defines one, the [defaults] class attribute and the abstract method
    [ports_schema]. *)
Record class := {
  class_name : string;
  name_attr : option value;
  defaults : gmap string value;
  ports_schema : t → value;
}.

(** [Process.__init__(self, parameters=None)]. *)
Definition __init__ (cls : class) (parameters : option (gmap string value)) : t :=
  let parameters := default ∅ parameters in
  let name :=
    match parameters !! "name" with
    | Some n => n
    | None => default (VStr (class_name cls)) (name_attr cls)
    end in
  let self_parameters := deepcopy (defaults cls) in
  let self_parameters := deep_merge self_parameters parameters in
  let '(schema_override, self_parameters) :=
    pop "_schema" (VDict ∅) self_parameters in
  let '(parallel, self_parameters) :=
    pop "_parallel" (VBool false) self_parameters in
  let self_parameters := setdefault "time_step" DEFAULT_TIME_STEP self_parameters in
  {| name := name;
     parameters := self_parameters;
     schema_override := schema_override;
     parallel := parallel;
     schema := VNone |}.

(** [local_timestep] and [calculate_timestep]: [self.parameters['time_step']]. *)
Definition local_timestep (self : t) : result value :=
  py_getitem "time_step" (VDict (parameters self)).

Definition calculate_timestep (self : t) (states : option value) : result value :=
  let _ := states in
  py_getitem "time_step" (VDict (parameters self)).

(** Modelled from the spec: [deep_merge] on two objects, as the methods
    below call it: a dictionary merged with a dictionary, or with [None]
    for no override ([get_schema] passes its default [override=None] on).
    The design document describes no other case; it is an error here. *)
Definition deep_merge_values (dct merge_dct : value) : result value :=
  match dct, merge_dct with
  | VDict a, VDict b => Ok (VDict (deep_merge a b))
  | VDict a, VNone => Ok (VDict a)
  | _, _ => Raise (TypeError "deep_merge of a value that is not a mapping")
  end.

(** [get_schema(self, override=None)]. *)
Definition get_schema (cls : class) (self : t) (override : value) : result value :=
  let ports := deepcopy (ports_schema cls self) in
  ports ←! deep_merge_values ports (schema_override self);
  ports ←! deep_merge_values ports override;
  Ok ports.

(** [merge_overrides(self, override)], for an instance whose
    schema-override set is held by nothing else: the instance afterwards.
    The method merges in place; on a set that other processes, or the
    parameters of a parent, hold too, it is [Shared.merge_overrides]
    below. *)
Definition merge_overrides (self : t) (override : value) : result t :=
  merged ←! deep_merge_values (schema_override self) override;
  Ok {| name := name self;
        parameters := parameters self;
        schema_override := merged;
        parallel := parallel self;
        schema := schema self |}.

(** A state: for each port, the value of each of its variables. *)
Abbreviation State := (gmap string (gmap string value)).

(** The body of the inner loop of [default_state], for one variable. *)
Definition default_state_var (port key : string) (value : value)
    (state : State) : result State :=
  has ←! py_in "_default" value;
  if has : bool then
    let state :=
      match state !! port with
      | Some _ => state
      | None => <[port := ∅]> state
      end in
    d ←! py_getitem "_default" value;
    Ok (<[port := <[key := d]> (default ∅ (state !! port))]> state)
  else Ok state.

(** The body of the outer loop, for one port: [states.items()] needs a
    dictionary. *)
Definition default_state_port (port : string) (states : value)
    (state : State) : result State :=
  match states with
  | VDict vars =>
      map_fold (λ key value acc, state ←! acc; default_state_var port key value state)
        (Ok state) vars
  | _ => Raise AttributeError
  end.

(** [default_state(self)]: a dictionary of dictionaries, built from
    nothing. *)
Definition default_state (cls : class) (self : t) : result State :=
  schema ←! get_schema cls self VNone;
  match schema with
  | VDict ports =>
      map_fold (λ port states acc, state ←! acc; default_state_port port states state)
        (Ok ∅) ports
  | _ => Raise AttributeError
  end.

End Process.

(** The class defaults deep-merged with the parameters of the call. *)
Definition merged_parameters (cls : Process.class)
    (given : option (gmap string value)) : gmap string value :=
  deep_merge (Process.defaults cls) (default ∅ given).

(** A process class that configures nothing. *)
Definition bare_class : Process.class :=
  {| Process.class_name := "Bare";
     Process.name_attr := None;
     Process.defaults := ∅;
     Process.ports_schema := λ _, VDict ∅ |}.

(** [ConsumerProcess] of [processes/consumer.py]: the port [top] is declared
    by flags of its own, so that under [top] the "variable" [_output] has
    the entry [True]. *)
Definition ConsumerProcess : Process.class :=
  {| Process.class_name := "ConsumerProcess";
     Process.name_attr := None;
     Process.defaults :=
       {[ "receiver" := VInt (-1);
          "topic" := VStr "vivarium-consumer";
          "group_id" := VStr "vivarium-simulation";
          "bootstrap_servers" := VStr "localhost:9092" ]};
     Process.ports_schema := λ _,
       VDict {[ "top" := VDict {[ "_output" := VBool true ]} ]} |}.

(** [MetaDivision] of [processes/meta_division.py] (the parameters that are
    functions or composers play no part in the schema and are left out). *)
Definition MetaDivision : Process.class :=
  {| Process.class_name := "MetaDivision";
     Process.name_attr := Some (VStr "meta_division");
     Process.defaults := {[ "initial_state" := VDict ∅ ]};
     Process.ports_schema := λ _,
       VDict {[ "global" := VDict {[ "divide" := VDict
                  {[ "_default" := VBool false;
                     "_updater" := VStr "set";
                     "_divider" := VDict
                       {[ "divider" := VStr "set_value";
                          "config" := VDict {[ "value" := VBool false ]} ]} ]} ]};
                "agents" := VDict ∅ ]} |}.

(** The schema [MetaDivision.ports_schema] returns. *)
Definition MetaDivision_schema : gmap string value :=
  {[ "global" := VDict {[ "divide" := VDict
        {[ "_default" := VBool false;
           "_updater" := VStr "set";
           "_divider" := VDict
             {[ "divider" := VStr "set_value";
                "config" := VDict {[ "value" := VBool false ]} ]} ]} ]};
     "agents" := VDict ∅ ]}.

(** ** Default state *)

(** The default a variable's schema entry declares: the [_default] item of
    an entry that is a mapping. *)
Definition declared_default (entry : value) : option value :=
  match entry with
  | VDict e => e !! "_default"
  | _ => None
  end.

(** The declared defaults of the variables of a port, when there is one. *)
Definition port_defaults (states : value) : option (gmap string value) :=
  match states with
  | VDict vars =>
      let d := omap declared_default vars in
      if decide (size d = 0) then None else Some d
  | _ => None
  end.

(** The entries [default_state] can go through: a mapping, or a list or a
    string in which ['_default'] does not occur. *)
Definition var_ok (entry : value) : bool :=
  match entry with
  | VDict _ => true
  | VList l => negb (existsb (is_str "_default") l)
  | VStr s => negb (str_contains "_default" s)
  | VAtom _ => false
  end.

(** A port whose variables are all such entries, and a schema whose ports
    are all such ports. *)
Definition port_ok (states : value) : bool :=
  match states with
  | VDict vars => bool_decide (map_Forall (λ _ e, var_ok e = true) vars)
  | _ => false
  end.

Definition schema_ok (ports : gmap string value) : Prop :=
  map_Forall (λ _ states, port_ok states = true) ports.

(** ** Schema overrides pushed down to the leaf processes *)

(** What a composite's [processes] dictionary holds under a key: a
    [Process] object (known by its identity, its attributes being in the
    store), a nested dictionary, or something else. *)
Inductive ptree :=
| PProc (pid : nat)
| PDict (m : gmap string ptree)
| POther.

(** [_override_schemas(overrides, processes)], on the store [σ] of the
    process objects.  [overrides.items()] needs a dictionary and
    [processes[key]] the key; a value that is neither a [Process] nor a
    dictionary is passed over.  The overrides are a value: the dictionary
    walked is not the schema-override set of a process the walk reaches, as
    when a composite pushes its overrides down to the processes it holds.
    The store holds each process with attributes of its own; the walk on
    processes that share their dictionaries is [Shared._override_schemas]
    below.  (A process identity that the store does not know cannot occur;
    it is an error here.) *)
Fixpoint _override_schemas (overrides : value) (processes : gmap string ptree)
    (σ : gmap nat Process.t) {struct overrides} : result (gmap nat Process.t) :=
  match overrides with
  | VDict ov =>
      map_fold (λ key override acc,
        σ ←! acc;
        match processes !! key with
        | None => Raise (KeyError key)
        | Some (PProc pid) =>
            match σ !! pid with
            | Some process =>
                process ←! Process.merge_overrides process override;
                Ok (<[pid := process]> σ)
            | None => Raise AttributeError
            end
        | Some (PDict process) => _override_schemas override process σ
        | Some POther => Ok σ
        end) (Ok σ) ov
  | _ => Raise AttributeError
  end.

(** The loop body's dispatch on [processes[key]]. *)
Definition override_at (override : value) (process : ptree)
    (σ : gmap nat Process.t) : result (gmap nat Process.t) :=
  match process with
  | PProc pid =>
      match σ !! pid with
      | Some process =>
          process ←! Process.merge_overrides process override;
          Ok (<[pid := process]> σ)
      | None => Raise AttributeError
      end
  | PDict process => _override_schemas override process σ
  | POther => Ok σ
  end.

(** The loop body. *)
Definition override_step (processes : gmap string ptree) (key : string)
    (override : value) (acc : result (gmap nat Process.t))
  : result (gmap nat Process.t) :=
  σ ←! acc;
  match processes !! key with
  | None => Raise (KeyError key)
  | Some process => override_at override process σ
  end.

(** Following a key path in the processes. *)
Fixpoint proc_at (p : ptree) (path : list string) : option ptree :=
  match path with
  | [] => Some p
  | k :: rest =>
      match p with
      | PDict m => m !! k ≫= λ x, proc_at x rest
      | _ => None
      end
  end.

(** The override [o] is keyed to the leaf process [pid]: the same key path
    leads to [pid] in the processes and to [o] in the overrides. *)
Definition reaches (overrides : value) (p : ptree) (path : list string)
    (pid : nat) (o : gmap string value) : Prop :=
  proc_at p path = Some (PProc pid) ∧ get_in overrides path = Some (VDict o).

(** The same key structure: every key of the overrides is a key of the
    processes; under it a dictionary of overrides faces a dictionary of
    processes, and a schema faces a process (one of [D], the processes of
    the store). *)
Inductive aligned (D : gset nat) : value → ptree → Prop :=
| aligned_proc o pid :
    pid ∈ D → aligned D (VDict o) (PProc pid)
| aligned_dict ov procs :
    (∀ key override, ov !! key = Some override →
       ∃ p, procs !! key = Some p ∧ aligned D override p) →
    aligned D (VDict ov) (PDict procs).

(** Every process of the store has a dictionary as schema-override set. *)
Definition store_dicts (σ : gmap nat Process.t) : Prop :=
  ∀ pid self, σ !! pid = Some self → is_dict (Process.schema_override self) = true.

(** [self] with another schema-override set. *)
Definition set_schema_override (self : Process.t) (so : value) : Process.t :=
  {| Process.name := Process.name self;
     Process.parameters := Process.parameters self;
     Process.schema_override := so;
     Process.parallel := Process.parallel self;
     Process.schema := Process.schema self |}.

(** Between [σ] and [σ'], [o] was deep-merged into the schema-override set
    of [pid], and nothing else of [pid] changed. *)
Definition merged_into (σ σ' : gmap nat Process.t) (pid : nat)
    (o : gmap string value) : Prop :=
  ∃ self so, σ !! pid = Some self
    ∧ Process.schema_override self = VDict so
    ∧ σ' !! pid = Some (set_schema_override self (VDict (deep_merge so o))).

(** What a walk that serves the overrides [T] does to the store: a process
    no override is keyed to is as before, and a process exactly one
    override is keyed to has had that override merged. *)
Definition overridden (T : list string → nat → gmap string value → Prop)
    (σ σ' : gmap nat Process.t) : Prop :=
  (∀ pid, (∀ π o, ¬ T π pid o) → σ' !! pid = σ !! pid)
  ∧ (∀ pid π o, T π pid o → (∀ π' o', T π' pid o' → π' = π) →
       merged_into σ σ' pid o).

(** A composite's overrides for the process at [agents/a1]. *)
Definition agents_overrides : gmap string value :=
  {[ "agents" := VDict {[ "a1" := VDict {[ "port" := VDict
        {[ "x" := VDict {[ "_default" := VInt 1 ]} ]} ]} ]} ]}.

(** The composite's processes, and the store with the one process. *)
Definition agents_processes : gmap string ptree :=
  {[ "agents" := PDict {[ "a1" := PProc 0 ]} ]}.

Definition agents_store : gmap nat Process.t :=
  {[ 0 := Process.__init__ bare_class None ]}.

(** ** The parallel adapter *)

(** [interval == -1], on what an interval can be: an int or a float equal
    to minus one.  [True], [None] and strings are not equal to [-1]. *)
Definition eq_minus_one (interval : atom) : bool :=
  match interval with
  | AInt z => Z.eqb z (-1)
  | AFloat f => PrimFloat.eqb f (-1)%float
  | ABool _ | ANone | AStr _ => false
  end.

Module ParallelProcess.

(** The wrapped process, a subclass of [Process]: its private state and its
    [next_update], which may change that state.  The worker owns a copy of
    the process, made when the adapter is constructed. *)
Class Wrapped := {
  PS : Type;
  next_update : PS → atom → value → value * PS;
}.

Section Adapter.
Context {W : Wrapped}.

(** Where the worker is in [_run_update]: in the loop, past the loop, or
    past [connection.close()]. *)
Inductive wstatus := Running | Exited | Closed.

(** The pipe (one queue in each direction) and the worker.  [calls] records
    the arguments of every call of [next_update] the worker has made. *)
Record sys := {
  to_child : list (atom * value);
  to_parent : list value;
  status : wstatus;
  process : PS;
  calls : list (atom * value);
}.

(** [ParallelProcess.__init__]: a pipe with nothing in it and a started
    worker. *)
Definition __init__ (p : PS) : sys :=
  {| to_child := []; to_parent := []; status := Running; process := p;
     calls := [] |}.

(** One turn of the worker: an iteration of the loop of [_run_update]
    ([None] when [recv] has nothing to return yet), then
    [connection.close()]; a closed worker has returned. *)
Definition _run_update (s : sys) : option sys :=
  match status s with
  | Running =>
      match to_child s with
      | [] => None
      | (interval, states) :: rest =>
          if eq_minus_one interval then
            Some {| to_child := rest; to_parent := to_parent s;
                    status := Exited; process := process s;
                    calls := calls s |}
          else
            let '(update, p) := next_update (process s) interval states in
            Some {| to_child := rest; to_parent := to_parent s ++ [update];
                    status := Running; process := p;
                    calls := calls s ++ [(interval, states)] |}
      end
  | Exited =>
      Some {| to_child := to_child s; to_parent := to_parent s;
              status := Closed; process := process s; calls := calls s |}
  | Closed => None
  end.

(** What the requester does on the pipe and the worker. *)
Inductive action :=
| ASend (msg : atom * value)
| ARecv
| AJoin.

(** [update(interval, states)], [get()] and [end()]. *)
Definition update (interval : atom) (states : value) : list action :=
  [ASend (interval, states)].

Definition get : list action := [ARecv].


Definition end_ : list action := [ASend (AInt (-1), VNone); AJoin].

(** [connection.send(msg)] by the requester, and the pipe after its
    [recv()]. *)
Definition send (msg : atom * value) (s : sys) : sys :=
  {| to_child := to_child s ++ [msg]; to_parent := to_parent s;
     status := status s; process := process s; calls := calls s |}.

Definition received (rest : list value) (s : sys) : sys :=
  {| to_child := to_child s; to_parent := rest;
     status := status s; process := process s; calls := calls s |}.

(** The requester's remaining actions, the system, and the updates [get]
    has returned so far. *)
Record config := {
  sys_of : sys;
  program : list action;
  collected : list value;
}.

(** The two sides run in any interleaving: the worker takes a turn, or the
    requester performs its next action when it does not block ([recv] needs
    a reply in the pipe, [join] a worker that has returned). *)
Inductive step : config → config → Prop :=
| step_worker s s' prog outs :
    _run_update s = Some s' →
    step {| sys_of := s; program := prog; collected := outs |}
         {| sys_of := s'; program := prog; collected := outs |}
| step_send s msg prog outs :
    step {| sys_of := s; program := ASend msg :: prog; collected := outs |}
         {| sys_of := send msg s; program := prog; collected := outs |}
| step_recv s u rest prog outs :
    to_parent s = u :: rest →
    step {| sys_of := s; program := ARecv :: prog; collected := outs |}
         {| sys_of := received rest s; program := prog;
            collected := outs ++ [u] |}
| step_join s prog outs :
    status s = Closed →
    step {| sys_of := s; program := AJoin :: prog; collected := outs |}
         {| sys_of := s; program := prog; collected := outs |}.

(** The updates of calling [next_update] directly, in order, and the state
    the process is left in. *)
Fixpoint direct (p : PS) (reqs : list (atom * value)) : list value * PS :=
  match reqs with
  | [] => ([], p)
  | (interval, states) :: rest =>
      let '(update, p') := next_update p interval states in
      let '(updates, p'') := direct p' rest in
      (update :: updates, p'')
  end.

(** [update] then [get], for each request in turn. *)
Definition requests (reqs : list (atom * value)) : list action :=
  flat_map (λ '(interval, states), update interval states ++ get) reqs.

(** The messages the program still sends, and how often it still receives. *)
Fixpoint sends (prog : list action) : list (atom * value) :=
  match prog with
  | [] => []
  | ASend msg :: prog => msg :: sends prog
  | _ :: prog => sends prog
  end.

Fixpoint recvs (prog : list action) : nat :=
  match prog with
  | [] => 0
  | ARecv :: prog => S (recvs prog)
  | _ :: prog => recvs prog
  end.

(** No message of [msgs] has an interval equal to -1. *)
Definition no_sentinel (msgs : list (atom * value)) : Prop :=
  Forall (λ msg, eq_minus_one msg.1 = false) msgs.

(** What holds of every configuration of a run that serves [reqs] on a
    process that started as [p0]: the worker is in its loop, and the updates
    collected, then those in the pipe, then those the worker still owes for
    the requests in the pipe, are the updates of the direct calls for the
    requests sent so far. *)
Definition serving (p0 : PS) (reqs : list (atom * value)) (c : config) : Prop :=
  status (sys_of c) = Running
  ∧ no_sentinel (to_child (sys_of c))
  ∧ no_sentinel (sends (program c))
  ∧ length (collected c) + recvs (program c) = length reqs
  ∧ ∃ sent, sent ++ sends (program c) = reqs
      ∧ collected c ++ to_parent (sys_of c)
          ++ (direct (process (sys_of c)) (to_child (sys_of c))).1
        = (direct p0 sent).1
      ∧ (direct (process (sys_of c)) (to_child (sys_of c))).2
        = (direct p0 sent).2.

(** Everything the worker has sent: what the requester has received, then
    what is still in the pipe. *)
Definition replies (c : config) : list value :=
  collected c ++ to_parent (sys_of c).

(** The worker past [connection.close()]. *)
Definition closed_of (s : sys) : sys :=
  {| to_child := to_child s; to_parent := to_parent s; status := Closed;
     process := process s; calls := calls s |}.

(** Where a run of [end()] can be: before the send, before the join, or
    past the join with a worker that has returned. *)
Definition ending (c : config) : Prop :=
  program c = end_
  ∨ program c = [AJoin]
  ∨ (program c = [] ∧ status (sys_of c) = Closed).

End Adapter.

(** A process that counts its calls and reports the count with what it was
    asked. *)
Definition counting (n : nat) (interval : atom) (states : value) : value * nat :=
  (VList [VAtom interval; states; VInt (Z.of_nat n)], S n).

Definition counting_process : Wrapped :=
  {| PS := nat; next_update := counting |}.

End ParallelProcess.

(** ** The serializer fallback *)

Module Serialize.

(** An object of a type orjson does not support natively: the name of its
    class, the names of the classes it is an instance of besides (the bases
    of its class), and what there is to serialize. *)
Record obj := {
  obj_type : string;
  obj_bases : list string;
  obj_data : value;
}.

(** [isinstance(obj, cls)]. *)
Definition isinstance (o : obj) (cls : string) : bool :=
  bool_decide (cls ∈ obj_type o :: obj_bases o).

(** [str(type(obj))]. *)
Definition str_type (o : obj) : string :=
  "<class '" +:+ obj_type o +:+ "'>".

(** A registered serializer: its [python_type] and its [serialize]. *)
Record Serializer := {
  python_type : string;
  serialize : obj → value;
}.

(** What orjson encodes natively. *)
Abbreviation encodable := value (only parsing).

(** Modelled from the spec: the serializer registry
    ([vivarium.core.registry]) is not among the sources.  The design
    document has it keyed by runtime type; [default] uses [access], which
    gives the serializer registered under a name or None, and [list], the
    registered names. *)
Definition access (registry : gmap string Serializer) (name : string)
  : option Serializer :=
  registry !! name.

Definition list_names (registry : gmap string Serializer) : list string :=
  (map_to_list registry).*1.

Definition Process_class : string := "vivarium.core.process.Process".

(** The serializers found by going through the registry: those whose
    [python_type] the object is an instance of. *)
Definition compatible_serializers (registry : gmap string Serializer) (o : obj)
  : list Serializer :=
  filter (λ s, isinstance o (python_type s) = true)
    (omap (access registry) (list_names registry)).

(** The function [make_default()] returns.  A result comes with whether the
    "inefficient search" warning was issued. *)
Definition default (registry : gmap string Serializer) (o : obj)
  : result (value * bool) :=
  match access registry (str_type o) with
  | Some serializer => Ok (serialize serializer o, false)
  | None =>
      let compatible_serializers := compatible_serializers registry o in
      if decide (1 < length compatible_serializers) then
        Raise (TypeError "Multiple serializers found")
      else
        match compatible_serializers with
        | [] => Raise (TypeError "No serializer found")
        | serializer :: _ =>
            Ok (serialize serializer o, negb (isinstance o Process_class))
        end
  end.

(** [make_default()]: the fallback is a closure over the registry. *)
Definition make_default (registry : gmap string Serializer)
  : obj → result (value * bool) :=
  default registry.

(** [serialize_value(value, default=None)] on an object orjson does not
    support natively.  orjson is not part of the repository; by its
    contract it calls [default] on such an object and encodes what is
    returned, and what [default] raises ends the call.  The result here is
    the value handed to the encoder. *)
Definition serialize_value (registry : gmap string Serializer) (value : obj)
    (default : option (obj → result (encodable * bool)))
  : result (encodable * bool) :=
  let default :=
    match default with
    | Some f => f
    | None => make_default registry
    end in
  default value.

(** A set, with the serializers of [serialize.py] registered under the
    names of their types: no exact name for a subclass of [set], one match
    by [isinstance]. *)
Definition SetSerializer : Serializer :=
  {| python_type := "set"; serialize := λ o, obj_data o |}.

Definition NumpyFallbackSerializer : Serializer :=
  {| python_type := "numpy.ndarray"; serialize := λ o, obj_data o |}.

Definition toy_registry : gmap string Serializer :=
  {[ "<class 'set'>" := SetSerializer;
     "<class 'numpy.ndarray'>" := NumpyFallbackSerializer ]}.

End Serialize.

(** ** Parameters of nested processes *)

(** The type of values, where the source names a variable [value]. *)
Abbreviation Value := value (only parsing).

(** Structural size of a dictionary of processes. *)
Fixpoint psize (p : ptree) : nat :=
  match p with
  | PProc _ | POther => 1
  | PDict m => S (map_fold (λ _ x n, psize x + n) 0 m)
  end.

(** What the loop of [_get_parameters] binds a key to, for the value found
    under it: the parameters of a [Process], the parameters of the
    processes of a dictionary, or nothing for anything else (the key is
    left out).  (A process identity that the store does not know cannot
    occur; it is an error here.) *)
Fixpoint get_parameters_value (σ : gmap nat Process.t) (value : ptree)
  : result (option Value) :=
  match value with
  | PProc pid =>
      match σ !! pid with
      | Some process => Ok (Some (VDict (Process.parameters process)))
      | None => Raise AttributeError
      end
  | PDict processes =>
      parameters ←! map_fold (λ key value acc,
          parameters ←! acc;
          bound ←! get_parameters_value σ value;
          Ok (match bound with
              | Some x => <[key := x]> parameters
              | None => parameters
              end)) (Ok ∅) processes;
      Ok (Some (VDict parameters))
  | POther => Ok None
  end.

(** [_get_parameters(processes=None)]. *)
Definition _get_parameters (σ : gmap nat Process.t)
    (processes : option (gmap string ptree)) : result (gmap string value) :=
  map_fold (λ key value acc,
      parameters ←! acc;
      bound ←! get_parameters_value σ value;
      Ok (match bound with
          | Some x => <[key := x]> parameters
          | None => parameters
          end)) (Ok ∅) (default ∅ processes).

(** Every process of the dictionary is one of [D]. *)
Inductive known (D : gset nat) : ptree → Prop :=
| known_proc pid : pid ∈ D → known D (PProc pid)
| known_dict m : (∀ k x, m !! k = Some x → known D x) → known D (PDict m)
| known_other : known D POther.

(** What [bound] (the outcome of [get_parameters_value] on [p]) holds at
    the key paths of [p]. *)
Definition mirrors (σ : gmap nat Process.t) (p : ptree) (bound : option value)
  : Prop :=
  ∀ path,
    (∀ pid, proc_at p path = Some (PProc pid) →
       ∃ self, σ !! pid = Some self
               ∧ bound ≫= (λ v, get_in v path)
                 = Some (VDict (Process.parameters self)))
    ∧ (proc_at p path = Some POther → bound ≫= (λ v, get_in v path) = None)
    ∧ (∀ m, proc_at p path = Some (PDict m) →
         ∃ r, bound ≫= (λ v, get_in v path) = Some (VDict r)
              ∧ ∀ k, is_Some (r !! k) → is_Some (m !! k)).

(** ** A process generated with schema overrides *)

(** A [MetaDivision] made with a schema override for a variable of its
    port [global]. *)
Definition overridden_division : Process.t :=
  Process.__init__ MetaDivision
    (Some {[ "_schema" := VDict {[ "global" := VDict {[ "divide" := VDict
               {[ "_default" := VBool true ]} ]} ]} ]}).

(** ** Ports *)

Module ProcessPorts.

(** [Process.ports(self)]: for each port of [ports_schema()], the list of
    the keys of its states.  [ports_schema.items()] and [states.keys()]
    need dictionaries. *)
Definition ports (cls : Process.class) (self : Process.t)
  : result (gmap string (list string)) :=
  match Process.ports_schema cls self with
  | VDict ports_schema =>
      map_fold (λ port states acc,
          ports ←! acc;
          match states with
          | VDict states => Ok (<[port := (map_to_list states).*1]> ports)
          | _ => Raise AttributeError
          end) (Ok ∅) ports_schema
  | _ => Raise AttributeError
  end.

End ProcessPorts.

(** The keys of the states of a port, when the states are a dictionary. *)
Definition keys_of (states : value) : option (list string) :=
  match states with
  | VDict states => Some (map_to_list states).*1
  | _ => None
  end.

(** ** Requester programs on the parallel adapter *)

(** The requests of [msgs] that come before the first one whose interval
    equals -1. *)
Fixpoint before_sentinel (msgs : list (atom * value)) : list (atom * value) :=
  match msgs with
  | [] => []
  | msg :: msgs =>
      if eq_minus_one msg.1 then [] else msg :: before_sentinel msgs
  end.

(** Whether a requester with [pending] replies to come, which has told the
    worker to stop or not ([ended]), goes through [prog] without waiting
    for ever: a [recv] needs a reply to come, a [join] a worker that has
    been told to stop, and what is sent after the sentinel is never read. *)
Fixpoint returns (pending : nat) (ended : bool)
    (prog : list ParallelProcess.action) : bool :=
  match prog with
  | [] => true
  | ParallelProcess.ASend msg :: prog =>
      if ended || eq_minus_one msg.1 then returns pending true prog
      else returns (S pending) false prog
  | ParallelProcess.ARecv :: prog =>
      match pending with
      | 0 => false
      | S pending => returns pending ended prog
      end
  | ParallelProcess.AJoin :: prog => ended && returns pending ended prog
  end.

(** The replies the requester can still receive: those in the pipe, and
    those a worker in its loop will send for the requests in the pipe. *)
Definition outstanding {W : ParallelProcess.Wrapped} (s : ParallelProcess.sys)
  : nat :=
  length (ParallelProcess.to_parent s)
  + match ParallelProcess.status s with
    | ParallelProcess.Running =>
        length (before_sentinel (ParallelProcess.to_child s))
    | _ => 0
    end.

(** The worker has left its loop, or will: the sentinel is in the pipe. *)
Definition stopping {W : ParallelProcess.Wrapped} (s : ParallelProcess.sys)
  : bool :=
  match ParallelProcess.status s with
  | ParallelProcess.Running =>
      existsb (λ msg, eq_minus_one msg.1) (ParallelProcess.to_child s)
  | _ => true
  end.

Definition can_return {W : ParallelProcess.Wrapped} (c : ParallelProcess.config)
  : bool :=
  returns (outstanding (ParallelProcess.sys_of c))
    (stopping (ParallelProcess.sys_of c)) (ParallelProcess.program c).

(** What holds of every configuration of a run of [prog] on a process that
    started as [p0]: the messages sent so far are the requests served, then
    the sentinel if the worker has left its loop, then the messages in the
    pipe; the replies are the updates of the direct calls for the requests
    served, and each [recv] done has collected one. *)
Definition in_order {W : ParallelProcess.Wrapped} (p0 : ParallelProcess.PS)
    (prog : list ParallelProcess.action) (c : ParallelProcess.config) : Prop :=
  let s := ParallelProcess.sys_of c in
  (∃ stop,
     ParallelProcess.calls s ++ stop ++ ParallelProcess.to_child s
       ++ ParallelProcess.sends (ParallelProcess.program c)
     = ParallelProcess.sends prog
     ∧ match ParallelProcess.status s with
       | ParallelProcess.Running => stop = []
       | _ => ∃ msg, stop = [msg] ∧ eq_minus_one msg.1 = true
       end)
  ∧ ParallelProcess.no_sentinel (ParallelProcess.calls s)
  ∧ ParallelProcess.replies c
    = (ParallelProcess.direct p0 (ParallelProcess.calls s)).1
  ∧ ParallelProcess.process s
    = (ParallelProcess.direct p0 (ParallelProcess.calls s)).2
  ∧ length (ParallelProcess.collected c)
    + ParallelProcess.recvs (ParallelProcess.program c)
    = ParallelProcess.recvs prog.

(** A requester that asks for two updates before it gets them, ends the
    worker, and sends one more request. *)
Definition pipelined : list ParallelProcess.action :=
  ParallelProcess.update (AInt 1) VNone ++ ParallelProcess.update (AInt 2) VNone
  ++ ParallelProcess.get ++ ParallelProcess.get
  ++ [ParallelProcess.ASend (AInt (-1), VNone)]
  ++ ParallelProcess.update (AInt 3) VNone.

Definition pipelined_end
  : ParallelProcess.config (W := ParallelProcess.counting_process) :=
  {| ParallelProcess.sys_of :=
       @ParallelProcess.Build_sys ParallelProcess.counting_process
         [(AInt 3, VNone)] [] ParallelProcess.Exited 2%nat
         [(AInt 1, VNone); (AInt 2, VNone)];
     ParallelProcess.program := [];
     ParallelProcess.collected :=
       [VList [VInt 1; VNone; VInt 0]; VList [VInt 2; VNone; VInt 1]] |}.

(** ** Characters of a string *)

(** Whether the character [c] occurs in [s]. *)
Fixpoint has_char (c : Ascii.ascii) (s : string) : bool :=
  match s with
  | EmptyString => false
  | String c' rest => Ascii.eqb c' c || has_char c rest
  end.

(** The character ['='] (code 61). *)
Definition eq_sign : Ascii.ascii :=
  Ascii.Ascii true false true true true true false false.

(** The newline character (code 10). *)
Definition newline : Ascii.ascii :=
  Ascii.Ascii false true false true false false false false.

(** The character [']'] (code 93). *)
Definition closing_bracket : Ascii.ascii :=
  Ascii.Ascii true false true true true false true false.

(** ** Experiment control ([core/control.py]) *)

Module Control.

(** The builtins [_parse_options] calls on a string: [str.isdigit()], and
    [int(s)] and [float(s)], which raise [ValueError] (no result here) on a
    string they do not parse. *)
Class Builtins := {
  isdigit : string → bool;
  int : string → option Z;
  float : string → option PrimFloat.float;
}.

(** The experiments of a library: what can be called, what a call returns
    and what it can raise. *)
Class Experiments := {
  F : Type;
  Out : Type;
  Err : Type;
  call : F → Err + Out;
}.

Inductive error {E : Type} :=
| ValueError
| IndexError
| KeyError (k : string)
| TypeError (msg : string)
| Raised (e : E).
Arguments error : clear implicits.

Definition bind {E A B} (r : E + A) (k : A → E + B) : E + B :=
  match r with
  | inl e => inl e
  | inr a => k a
  end.

(** [a.split('=', 1)]: [a] cut at its first ['='], if it has one. *)
Fixpoint split_once (a : string) : list string :=
  match a with
  | EmptyString => [EmptyString]
  | String c rest =>
      if Ascii.eqb c eq_sign then [EmptyString; rest]
      else match split_once rest with
           | k :: tl => String c k :: tl
           | [] => []
           end
  end.

Section Options.
Context {B : Builtins}.

(** [is_float(element)]: whether [float(element)] returns. *)
Definition is_float (element : string) : bool :=
  match float element with Some _ => true | None => false end.

(** [bool(s)] on a string. *)
Definition bool_of (s : string) : bool := negb (String.eqb s "").

(** The value [_parse_options] gives to the text right of the ['=']. *)
Definition option_value (str_value : string) : error Empty_set + atom :=
  if isdigit str_value then
    match int str_value with
    | Some z => Ok (AInt z)
    | None => Raise ValueError
    end
  else if is_float str_value then
    match float str_value with
    | Some f => Ok (AFloat f)
    | None => Raise ValueError
    end
  else if bool_decide (str_value ∈ ["True"; "False"]) then
    Ok (ABool (bool_of str_value))
  else Ok (AStr str_value).

(** [_parse_options(options_list)]. *)
Definition _parse_options (options_list : option (list string))
  : error Empty_set + gmap string atom :=
  let assignments := default [] options_list in
  let pairs := (λ a, split_once a ++ [EmptyString]) <$> assignments in
  fold_left (λ acc p,
      bind acc (λ options,
        match p with
        | key :: str_value :: _ =>
            bind (option_value str_value) (λ value,
              Ok (<[key := value]> options))
        | _ => Raise IndexError
        end))
    pairs (Ok ∅).

End Options.

Section Library.
Context {X : Experiments}.

(** An entry of the experiments library, or an item of an entry that is a
    dictionary: something to call, a dictionary, or anything else. *)
Inductive item :=
| IFun (f : F)
| IOther.

Inductive entry :=
| EFun (f : F)
| EDict (d : gmap string item)
| EOther.

(** Calling [experiment()]. *)
Definition call_item (experiment : item) : error Err + Out :=
  match experiment with
  | IFun f =>
      match call f with
      | inl e => Raise (Raised e)
      | inr out => Ok out
      end
  | IOther => Raise (TypeError "object is not callable")
  end.

(** [Control.run_experiment(self, experiment_config)] for an experiment
    id (a [str]): what the call returns or raises, and the experiments
    library afterwards.  An entry that is a dictionary is the object the
    library holds: [pop] takes the key out of it. *)
Definition run_experiment (experiments_library : gmap string entry)
    (experiment_config : string)
  : (error Err + Out) * gmap string entry :=
  match experiments_library !! experiment_config with
  | None => (Raise (KeyError experiment_config), experiments_library)
  | Some (EDict d) =>
      match d !! "experiment" with
      | None => (Raise (KeyError "experiment"), experiments_library)
      | Some experiment =>
          (call_item experiment,
           <[experiment_config := EDict (delete "experiment" d)]>
             experiments_library)
      end
  | Some (EFun f) => (call_item (IFun f), experiments_library)
  | Some EOther => (call_item IOther, experiments_library)
  end.

End Library.

(** Builtins for the strings of ASCII digits and letters: a string of
    digits is a number, and nothing else parses. *)
Definition ascii_digit (c : Ascii.ascii) : option Z :=
  let n := Z.of_N (Ascii.N_of_ascii c) in
  if bool_decide (48 ≤ n ≤ 57)%Z then Some (n - 48)%Z else None.

Fixpoint digits_value (acc : Z) (s : string) : option Z :=
  match s with
  | EmptyString => Some acc
  | String c rest =>
      match ascii_digit c with
      | Some d => digits_value (10 * acc + d) rest
      | None => None
      end
  end.

Definition digits_only : Builtins :=
  {| isdigit := λ s, negb (String.eqb s "")
                     && bool_decide (is_Some (digits_value 0 s));
     int := λ s, if String.eqb s "" then None else digits_value 0 s;
     float := λ s,
       if String.eqb s "" then None
       else (λ z, PrimFloat.of_uint63 (Uint63.of_Z z)) <$> digits_value 0 s |}.

(** A library of one experiment, which returns its number, held in a
    dictionary with a setting beside it. *)
Definition numbered : Experiments :=
  {| F := nat; Out := nat; Err := Empty_set; call := λ n, Ok n |}.

Definition library_of_one : gmap string (entry (X := numbered)) :=
  {[ "1" := EDict {[ "experiment" := IFun (X := numbered) 1%nat;
                     "total_time" := IOther ]} ]}.

End Control.

(** ** Deserialization ([core/serialize.py]) *)

Module Deserialize.

(** What [UnitsSerializer.deserialize] calls: the unit registry [units] of
    pint on a string (no result when it raises), [math.nan * q] on a
    quantity, the conversion [q.to(unit)] (no result when it raises), and
    [str.strip()]. *)
Class Pint := {
  Quantity : Type;
  Unit : Type;
  units : string → option Quantity;
  nan_times : Quantity → Quantity;
  to : Quantity → Unit → option Quantity;
  strip : string → string;
}.

(** [ValueError] is what [deserialize_value] raises itself; [UnitError]
    stands for what pint raises on a string it does not parse, [Failed] for
    what a registered deserializer raises. *)
Inductive error :=
| ValueError
| UnitError
| Failed
| AttributeError
| TypeError.

Definition bind {A B} (r : error + A) (k : A → error + B) : error + B :=
  match r with
  | inl e => inl e
  | inr a => k a
  end.

(** A list comprehension [[f(x) for x in l]]: left to right, up to the
    first call that raises. *)
Definition comprehension {A B} (f : A → error + B) : list A → error + list B :=
  fix go l :=
    match l with
    | [] => Ok []
    | x :: l => bind (f x) (λ y, bind (go l) (λ l', Ok (y :: l')))
    end.

(** [s] without the prefix [p], when it starts with it. *)
Fixpoint without_prefix (p s : string) : option string :=
  match p, s with
  | EmptyString, _ => Some s
  | String a p, String b s =>
      if Ascii.eqb a b then without_prefix p s else None
  | String _ _, EmptyString => None
  end.

(** [s] without its last character, when that is [c]. *)
Fixpoint without_last (c : Ascii.ascii) (s : string) : option string :=
  match s with
  | EmptyString => None
  | String a EmptyString => if Ascii.eqb a c then Some EmptyString else None
  | String a rest => String a <$> without_last c rest
  end.

(** [self.regex_for_serialized.fullmatch(data)]: the group, when the whole
    of [data] matches the pattern, which is the text ["!units["], a group
    of any number of characters, and a closing bracket.  The dot of the
    pattern matches every character but the newline, so the group is what
    stands between the opening text and the last character, the closing
    bracket. *)
Definition regex_for_serialized (data : string) : option string :=
  match without_prefix "!units[" data with
  | Some rest =>
      match without_last closing_bracket rest with
      | Some group => if has_char newline group then None else Some group
      | None => None
      end
  | None => None
  end.

(** The scalar case of [UnitsSerializer.serialize], on [str(data)]. *)
Definition serialized (str_data : string) : string :=
  "!units[" +:+ str_data +:+ "]".

(** [data[len('nan'):]]. *)
Fixpoint from (n : nat) (data : string) : string :=
  match n, data with
  | 0, _ => data
  | S n, String _ rest => from n rest
  | S _, EmptyString => EmptyString
  end.

Section Data.
Context {P : Pint}.

(** The lines of [UnitsSerializer.deserialize] after the match: the text
    of a quantity, with the case of a magnitude that is not a number. *)
Definition quantity_of (data : string) : error + Quantity :=
  if String.prefix "nan" data then
    let unit_str := strip (from 3 data) in
    match units unit_str with
    | Some q => Ok (nan_times q)
    | None => Raise UnitError
    end
  else
    match units data with
    | Some q => Ok q
    | None => Raise UnitError
    end.

(** [UnitsSerializer.deserialize(data)] on a string, with no [unit]. *)
Definition units_deserialize (data : string) : error + Quantity :=
  let data :=
    match regex_for_serialized data with
    | Some group => group
    | None => data
    end in
  quantity_of data.

(** [UnitsSerializer.deserialize(data, unit=None)], on a string or a list
    of strings (the deprecation warnings are not modelled).  With a unit,
    the list case calls [to] on the strings of [data], which have no such
    method, and the string case drops what [to] returns. *)
Inductive units_data :=
| UStr (data : string)
| UList (data : list string).

Inductive units_result :=
| One (q : Quantity)
| Many (l : list Quantity).

Definition UnitsSerializer_deserialize (data : units_data) (unit : option Unit)
  : error + units_result :=
  match data with
  | UList data =>
      bind (comprehension (λ d, match units d with
                                | Some q => Ok q
                                | None => Raise UnitError
                                end) data) (λ unit_data,
        match unit with
        | Some _ =>
            bind (comprehension
                    (λ _ : string, (Raise AttributeError : error + Quantity))
                    data)
              (λ unit_data, Ok (Many unit_data))
        | None => Ok (Many unit_data)
        end)
  | UStr data =>
      bind (units_deserialize data) (λ unit_data,
        match unit with
        | Some unit =>
            match to unit_data unit with
            | Some _ => Ok (One unit_data)
            | None => Raise UnitError
            end
        | None => Ok (One unit_data)
        end)
  end.

(** What goes into [deserialize_value] and comes out of it: data as the
    decoder loads it, and the quantities deserializers put in for
    strings. *)
Inductive pyobj :=
| DAtom (a : atom)
| DList (l : list pyobj)
| DDict (m : gmap string pyobj)
| DQuantity (q : Quantity).

Fixpoint dsize (v : pyobj) : nat :=
  match v with
  | DAtom _ | DQuantity _ => 1
  | DList l => S (foldr (λ x n, dsize x + n) 0 l)
  | DDict m => S (map_fold (λ _ x n, dsize x + n) 0 m)
  end.

(** A registered serializer, for what [deserialize_value] asks of it: one
    of the three of [serialize.py] that define [can_deserialize], or any
    other, with its [can_deserialize] and [deserialize]. *)
Inductive serializer :=
| SequenceDeserializer
| DictDeserializer
| UnitsSerializer
| Registered (can_deserialize : pyobj → bool)
    (deserialize : pyobj → error + pyobj).

Definition can_deserialize (s : serializer) (data : pyobj) : bool :=
  match s with
  | SequenceDeserializer =>
      match data with DList _ => true | _ => false end
  | DictDeserializer =>
      match data with DDict _ => true | _ => false end
  | UnitsSerializer =>
      match data with
      | DAtom (AStr data) =>
          match regex_for_serialized data with Some _ => true | None => false end
      | _ => false
      end
  | Registered can _ => can data
  end.

(** Modelled from the spec: the serializer registry
    ([vivarium.core.registry]) is not among the sources.  The design
    document has [access], which gives the serializer registered under a
    name, and [list], the registered names. *)
Definition access (registry : gmap string serializer) (name : string)
  : option serializer :=
  registry !! name.

Definition list_names (registry : gmap string serializer) : list string :=
  (map_to_list registry).*1.

(** The first loop of [deserialize_value]. *)
Definition compatible_serializers (registry : gmap string serializer)
    (value : pyobj) : list serializer :=
  filter (λ s, can_deserialize s value = true)
    (omap (access registry) (list_names registry)).

(** [deserialize_value(value)].  The deserializers for lists and
    dictionaries call it on each item.  (A deserializer is only called on
    what it can deserialize; the other cases are errors here.  Where
    several items of a dictionary raise, which of the exceptions comes out
    is not modelled.) *)
Fixpoint deserialize_value (registry : gmap string serializer) (value : pyobj)
    {struct value} : error + pyobj :=
  match compatible_serializers registry value with
  | [] => Ok value
  | [serializer] =>
      match serializer with
      | SequenceDeserializer =>
          match value with
          | DList l =>
              bind (comprehension (deserialize_value registry) l)
                (λ l', Ok (DList l'))
          | _ => Raise TypeError
          end
      | DictDeserializer =>
          match value with
          | DDict m =>
              bind (map_fold (λ key value acc,
                        bind acc (λ m',
                          bind (deserialize_value registry value)
                            (λ value', Ok (<[key := value']> m'))))
                      (Ok ∅) m)
                (λ m', Ok (DDict m'))
          | _ => Raise AttributeError
          end
      | UnitsSerializer =>
          match value with
          | DAtom (AStr data) =>
              bind (units_deserialize data) (λ q, Ok (DQuantity q))
          | _ => Raise AttributeError
          end
      | Registered _ deserialize => deserialize value
      end
  | _ => Raise ValueError
  end.

(** Values [deserialize_value] has nothing to do on: no serializer can
    deserialize them, or they are a list or a dictionary, which only the
    deserializer for them can, of such values. *)
Inductive settled (registry : gmap string serializer) : pyobj → Prop :=
| settled_leaf v :
    compatible_serializers registry v = [] → settled registry v
| settled_list l :
    compatible_serializers registry (DList l) = [SequenceDeserializer] →
    Forall (settled registry) l → settled registry (DList l)
| settled_dict m :
    compatible_serializers registry (DDict m) = [DictDeserializer] →
    map_Forall (λ _, settled registry) m → settled registry (DDict m).

(** A registry in which the three deserializers of [serialize.py] are
    the ones that deserialize: each value has the one serializer that is
    for it, or none. *)
Definition standard (registry : gmap string serializer) : Prop :=
  ∀ v, compatible_serializers registry v
       = match v with
         | DList _ => [SequenceDeserializer]
         | DDict _ => [DictDeserializer]
         | DAtom (AStr data) =>
             match regex_for_serialized data with
             | Some _ => [UnitsSerializer]
             | None => []
             end
         | _ => []
         end.

(** The three deserializers of [serialize.py], and beside them a
    serializer with no [can_deserialize] of its own. *)
Definition the_registry : gmap string serializer :=
  {[ "list" := SequenceDeserializer;
     "dict" := DictDeserializer;
     "units" := UnitsSerializer;
     "set" := Registered (λ _, false) (λ data, Ok data) ]}.

End Data.

(** A stand-in for pint: a quantity is the text it was read from ([None]
    beside it when its magnitude is not a number), only the empty text is
    not read, and a conversion puts the unit for the text; [strip] takes
    the blanks of ASCII off both ends. *)
Definition is_blank (c : Ascii.ascii) : bool :=
  let n := Ascii.N_of_ascii c in
  bool_decide (9 ≤ n ≤ 13 ∨ 28 ≤ n ≤ 32)%N.

Fixpoint lstrip (s : string) : string :=
  match s with
  | EmptyString => EmptyString
  | String c rest => if is_blank c then lstrip rest else s
  end.

Fixpoint rstrip (s : string) : string :=
  match s with
  | EmptyString => EmptyString
  | String c rest =>
      match rstrip rest with
      | EmptyString => if is_blank c then EmptyString else String c EmptyString
      | rest' => String c rest'
      end
  end.

Definition texts : Pint :=
  {| Quantity := option unit * string;
     Unit := string;
     units := λ s, if String.eqb s "" then None else Some (Some (), s);
     nan_times := λ q, (None, q.2);
     to := λ q unit, Some (q.1, unit);
     strip := λ s, lstrip (rstrip s) |}.

(** A stand-in for pint that knows its units: only the texts of the table
    are read, each as itself; a conversion puts the unit for the text. *)
Definition unit_names : Pint :=
  {| Quantity := option unit * string;
     Unit := string;
     units := λ s,
       if existsb (String.eqb s)
            ["fg"; "1 fg"; "meter"; "1 meter"; "nanometer"; "1 nanometer"]
       then Some (Some (), s) else None;
     nan_times := λ q, (None, q.2);
     to := λ q unit, Some (q.1, unit);
     strip := λ s, lstrip (rstrip s) |}.

End Deserialize.

(** ** Division ([processes/meta_division.py], [experiments/bigraph_view.py]) *)

(** [daughter_phylogeny_id(mother_id)], on an id that is a string. *)
Definition daughter_phylogeny_id (mother_id : string) : list string :=
  [mother_id +:+ "0"; mother_id +:+ "1"].

(** The id of the cell that descends from [id] by the divisions of
    [history], each of which says whether the cell is the second daughter
    of its mother. *)
Fixpoint descendant (id : string) (history : list bool) : string :=
  match history with
  | [] => id
  | second :: history =>
      descendant
        (default id (daughter_phylogeny_id id !! (if second : bool then 1 else 0)%nat))
        history
  end.

(** The divisions of a history, as the characters they add to an id. *)
Fixpoint history_text (history : list bool) : string :=
  match history with
  | [] => ""
  | second :: history =>
      (if second : bool then "1" else "0") +:+ history_text history
  end.

Module TopView.

Inductive error :=
| AssertionError
| Exn (e : exn).

Definition bind {A B} (r : error + A) (k : A → error + B) : error + B :=
  match r with
  | inl e => inl e
  | inr a => k a
  end.

(** A call that raises one of the exceptions of [exn]. *)
Definition lift {A} (r : result A) : error + A :=
  match r with
  | inl e => inl (Exn e)
  | inr a => inr a
  end.

(** [other == 2.0]. *)
Definition eq_two (other : value) : bool :=
  match other with
  | VAtom (AFloat f) => PrimFloat.eqb f 2.0%float
  | VAtom (AInt z) => Z.eqb z 2
  | _ => false
  end.

(** [internal_glc >= 6.0]: a number is compared, a truth value counts as
    0 or 1, anything else is not ordered with a float. *)
Definition ge_six (internal_glc : value) : result bool :=
  match internal_glc with
  | VAtom (AFloat f) => Ok (PrimFloat.leb 6.0%float f)
  | VAtom (AInt z) => Ok (Z.leb 6 z)
  | VAtom (ABool _) => Ok false
  | _ => Raise (TypeError "'>=' not supported")
  end.

(** Whether the loop divides the agent: [None] when it raises. *)
Definition ready (agent_state : value) : result bool :=
  internal ←! py_getitem "internal" agent_state;
  internal_glc ←! py_getitem "GLC" internal;
  ge_six internal_glc.

(** The division the loop writes for [agent_id]. *)
Definition divide (agent_id : string) : value :=
  let daughter_ids := daughter_phylogeny_id agent_id in
  let daughter_updates :=
    (λ daughter_id, VDict {[ "key" := VStr daughter_id ]}) <$> daughter_ids in
  VDict {[ "_divide" := VDict {[ "mother" := VStr agent_id;
                                 "daughters" := VList daughter_updates ]} ]}.

(** [update['top']['agents'] = d]. *)
Definition set_top_agents (d : value) (update : gmap string value)
  : result (gmap string value) :=
  top ←! py_getitem "top" (VDict update);
  match top with
  | VDict top => Ok (<["top" := VDict (<["agents" := d]> top)]> update)
  | _ => Raise (TypeError "does not support item assignment")
  end.

(** [TopView.next_update(timestep, states)].  (The loop goes through the
    agents in the order of the dictionary, which is not modelled: where
    several agents are divided or raise, the one that shows is the last,
    or the first, in an order of the keys.) *)
Definition next_update (timestep : atom) (states : value) : error + value :=
  bind (lift (py_getitem "other" states)) (λ other,
  if negb (eq_two other) then Raise AssertionError else
  bind (lift (py_getitem "top" states)) (λ top,
  bind (lift (py_getitem "agents" top)) (λ agents,
  match agents with
  | VDict agents =>
      bind (lift (map_fold (λ agent_id agent_state acc,
                update ←! acc;
                go ←! ready agent_state;
                if go : bool then set_top_agents (divide agent_id) update
                else Ok update)
              (Ok {[ "top" := VDict {[ "agents" := VDict ∅ ]} ]}) agents))
        (λ update, Ok (VDict update))
  | _ => Raise (Exn AttributeError)
  end))).

(** Two agents with enough glucose and one without. *)
Definition colony : value :=
  VDict {[ "other" := VFloat 2.0%float;
           "top" := VDict {[ "agents" := VDict
             {[ "1" := VDict {[ "internal" := VDict {[ "GLC" := VFloat 7.5%float ]} ]};
                "2" := VDict {[ "internal" := VDict {[ "GLC" := VInt 1 ]} ]};
                "3" := VDict {[ "internal" := VDict {[ "GLC" := VInt 9 ]} ]} ]} ]} ]}.

(** The update that divides the third agent of the colony. *)
Definition colony_update : value :=
  VDict {[ "top" := VDict {[ "agents" := divide "3" ]} ]}.

End TopView.

(** ** Dictionaries that are shared: the overrides merged in place *)

Module Shared.

(** What an attribute of a process, or an item of a dictionary object,
    holds: a reference to a dictionary object, which other attributes and
    items may hold too; a list of such things; or a value that nothing else
    holds. *)
Inductive obj :=
| ORef (l : positive)
| OList (items : list obj)
| OVal (v : value).

(** The dictionary objects: what each holds under its keys. *)
Abbreviation heap := (gmap positive (gmap string obj)).

(** Modelled from the spec: [deep_merge(dct, merge_dct)], as
    [merge_overrides] calls it, for its effect on [dct]: the merge is done
    in place, on the dictionary object [dct] and on the dictionaries it
    holds.  Where both sides hold a dictionary under a key, the second is
    merged into the first, in place; anywhere else the item is bound to what
    the second argument holds.  The second argument is a dictionary of its
    own: it is no object of the heap and holds none, so that what is taken
    from it is held by nothing else.  (A reference to no object cannot
    occur; it is an error here.) *)
Fixpoint deep_merge (h : heap) (dct : positive) (merge_dct : value)
    {struct merge_dct} : result heap :=
  match merge_dct with
  | VDict m =>
      map_fold (λ k v acc,
          h ←! acc;
          match h !! dct with
          | Some d =>
              match d !! k with
              | Some (ORef dl) =>
                  match v with
                  | VDict _ => deep_merge h dl v
                  | _ => Ok (<[dct := <[k := OVal v]> d]> h)
                  end
              | Some (OVal old) =>
                  Ok (<[dct := <[k := OVal (merge_value (Some old) v)]> d]> h)
              | _ => Ok (<[dct := <[k := OVal v]> d]> h)
              end
          | None => Raise AttributeError
          end) (Ok h) m
  | VAtom ANone => Ok h
  | _ => Raise (TypeError "deep_merge of a value that is not a mapping")
  end.

(** A process object: what its attributes hold. *)
Record process := {
  name : obj;
  parameters : obj;
  schema_override : obj;
  parallel : obj;
  schema : obj;
}.

(** The dictionary objects and the process objects. *)
Record store := {
  heap_of : heap;
  objects : gmap nat process;
}.

(** [self] whose schema-override set, held by nothing else, was changed in
    place. *)
Definition with_schema_override (self : process) (so : obj) : process :=
  {| name := name self;
     parameters := parameters self;
     schema_override := so;
     parallel := parallel self;
     schema := schema self |}.

(** [process.merge_overrides(override)], for the process object [pid]:
    [deep_merge(self.schema_override, override)]. *)
Definition merge_overrides (pid : nat) (override : value) (s : store)
  : result store :=
  match objects s !! pid with
  | Some self =>
      match schema_override self with
      | ORef l =>
          h ←! deep_merge (heap_of s) l override;
          Ok {| heap_of := h; objects := objects s |}
      | OVal so =>
          merged ←! Process.deep_merge_values so override;
          Ok {| heap_of := heap_of s;
                objects := <[pid := with_schema_override self (OVal merged)]>
                             (objects s) |}
      | OList _ =>
          Raise (TypeError "deep_merge of a value that is not a mapping")
      end
  | None => Raise AttributeError
  end.

(** [_override_schemas(overrides, processes)] on the store.  The overrides
    are a dictionary of their own, as [deep_merge] has it. *)
Fixpoint _override_schemas (overrides : value) (processes : gmap string ptree)
    (s : store) {struct overrides} : result store :=
  match overrides with
  | VDict ov =>
      map_fold (λ key override acc,
        s ←! acc;
        match processes !! key with
        | None => Raise (KeyError key)
        | Some (PProc pid) => merge_overrides pid override s
        | Some (PDict process) => _override_schemas override process s
        | Some POther => Ok s
        end) (Ok s) ov
  | _ => Raise AttributeError
  end.

(** The loop body's dispatch on [processes[key]]. *)
Definition override_at (override : value) (process : ptree) (s : store)
  : result store :=
  match process with
  | PProc pid => merge_overrides pid override s
  | PDict process => _override_schemas override process s
  | POther => Ok s
  end.

(** The merges of [calls], one after the other: each is an override with
    the process it is for and the key path that leads to both. *)
Definition merges (calls : list (list string * nat * gmap string value))
    (s : store) : result store :=
  fold_left (λ acc call, s ←! acc; merge_overrides call.1.2 (VDict call.2) s)
    calls (Ok s).

(** Every reference held by a dictionary object is to a dictionary
    object. *)
Definition closed (h : heap) : Prop :=
  ∀ l d k l', h !! l = Some d → d !! k = Some (ORef l') → is_Some (h !! l').

(** The schema-override set of every process is a dictionary. *)
Definition sets_ok (s : store) : Prop :=
  ∀ pid self, objects s !! pid = Some self →
    match schema_override self with
    | ORef l => is_Some (heap_of s !! l)
    | OVal so => is_dict so = true
    | OList _ => False
    end.

(** The dictionary object [l'] is held by [l], or by an object [l] holds,
    and so on. *)
Definition holds (h : heap) (l l' : positive) : Prop :=
  ∃ d k, h !! l = Some d ∧ d !! k = Some (ORef l').

Definition reach (h : heap) : relation positive := rtc (holds h).

(** [h'] has the objects of [h], and no object of [h'] holds a reference
    that it does not hold in [h]. *)
Definition narrows (h h' : heap) : Prop :=
  dom h' = dom h
  ∧ ∀ l d' k l', h' !! l = Some d' → d' !! k = Some (ORef l') →
      ∃ d, h !! l = Some d ∧ d !! k = Some (ORef l').

(** The process [pid] has the dictionary object [l] for its schema-override
    set. *)
Definition set_at (s : store) (pid : nat) (l : positive) : Prop :=
  ∃ self, objects s !! pid = Some self ∧ schema_override self = ORef l.

(** Between [s] and [s'] no attribute of a process was bound anew (a
    schema-override set held by nothing else may have changed), there are
    the same processes and the same dictionary objects, and a dictionary
    object that changed is one that a schema-override set of [s] reaches. *)
Definition only_sets_change (s s' : store) : Prop :=
  narrows (heap_of s) (heap_of s')
  ∧ (∀ pid,
       match objects s !! pid, objects s' !! pid with
       | Some self, Some self' =>
           name self' = name self
           ∧ parameters self' = parameters self
           ∧ parallel self' = parallel self
           ∧ schema self' = schema self
           ∧ (schema_override self' = schema_override self
              ∨ ∃ v v', schema_override self = OVal v
                        ∧ schema_override self' = OVal v')
       | None, None => True
       | _, _ => False
       end)
  ∧ ∀ l', (∀ pid l, set_at s pid l → ¬ reach (heap_of s) l l') →
          heap_of s' !! l' = heap_of s !! l'.

(** Every schema-override set that is a dictionary object holds values
    only. *)
Definition flat_sets (s : store) : Prop :=
  ∀ pid l, set_at s pid l →
    ∃ a : gmap string value, heap_of s !! l = Some (OVal <$> a).

(** The processes of [σ], their attributes held by nothing else. *)
Definition own (self : Process.t) : process :=
  {| name := OVal (Process.name self);
     parameters := OVal (VDict (Process.parameters self));
     schema_override := OVal (Process.schema_override self);
     parallel := OVal (Process.parallel self);
     schema := OVal (Process.schema self) |}.

Definition unshared (σ : gmap nat Process.t) : store :=
  {| heap_of := ∅; objects := own <$> σ |}.

(** Two processes made from one dictionary of parameters, the dictionary
    object 2, which have its [_schema] item, the dictionary object 1, for
    their schema-override set; and their parent, which has the dictionary
    object 2 for its parameters and a schema-override set that nothing else
    holds.  The parameters of the first are the dictionary object 3. *)
Definition siblings_store : store :=
  {| heap_of :=
       {[ 1%positive :=
            {[ "port" := OVal (VDict {[ "y" := VDict {[ "_default" := VInt 0 ]} ]}) ]};
          2%positive :=
            {[ "_schema" := ORef 1; "time_step" := OVal (VInt 2) ]};
          3%positive :=
            {[ "time_step" := OVal (VInt 2) ]} ]};
     objects :=
       {[ 0%nat := {| name := OVal (VStr "a1");
                      parameters := ORef 3;
                      schema_override := ORef 1;
                      parallel := OVal (VBool false);
                      schema := OVal VNone |};
          1%nat := {| name := OVal (VStr "a2");
                      parameters := OVal (VDict {[ "time_step" := VInt 2 ]});
                      schema_override := ORef 1;
                      parallel := OVal (VBool false);
                      schema := OVal VNone |};
          2%nat := {| name := OVal (VStr "top");
                      parameters := ORef 2;
                      schema_override :=
                        OVal (VDict {[ "port" := VDict
                                {[ "z" := VDict {[ "_default" := VInt 5 ]} ]} ]});
                      parallel := OVal (VBool false);
                      schema := OVal VNone |} ]} |}.

(** The composite's processes, and its overrides: one for the first of the
    two, one for the parent, none for the second. *)
Definition siblings_processes : gmap string ptree :=
  {[ "agents" := PDict {[ "a1" := PProc 0; "a2" := PProc 1 ]};
     "top" := PProc 2 ]}.

Definition siblings_overrides : gmap string value :=
  {[ "agents" := VDict {[ "a1" := VDict {[ "port" := VDict
        {[ "x" := VDict {[ "_default" := VInt 1 ]} ]} ]} ]};
     "top" := VDict {[ "port" := VDict
        {[ "z" := VDict {[ "_updater" := VStr "set" ]} ]} ]} ]}.

(** The store once the overrides are pushed down: the dictionary object 1,
    the set of the first two, has the override of the first merged into
    what it held; so the second process, and the parameters of the parent,
    hold the override too. *)
Definition siblings_after : store :=
  {| heap_of :=
       {[ 1%positive :=
            {[ "port" := OVal (VDict {[ "y" := VDict {[ "_default" := VInt 0 ]};
                                        "x" := VDict {[ "_default" := VInt 1 ]} ]}) ]};
          2%positive :=
            {[ "_schema" := ORef 1; "time_step" := OVal (VInt 2) ]};
          3%positive :=
            {[ "time_step" := OVal (VInt 2) ]} ]};
     objects :=
       {[ 0%nat := {| name := OVal (VStr "a1");
                      parameters := ORef 3;
                      schema_override := ORef 1;
                      parallel := OVal (VBool false);
                      schema := OVal VNone |};
          1%nat := {| name := OVal (VStr "a2");
                      parameters := OVal (VDict {[ "time_step" := VInt 2 ]});
                      schema_override := ORef 1;
                      parallel := OVal (VBool false);
                      schema := OVal VNone |};
          2%nat := {| name := OVal (VStr "top");
                      parameters := ORef 2;
                      schema_override :=
                        OVal (VDict {[ "port" := VDict
                                {[ "z" := VDict {[ "_default" := VInt 5;
                                                   "_updater" := VStr "set" ]} ]} ]});
                      parallel := OVal (VBool false);
                      schema := OVal VNone |} ]} |}.

End Shared.

(** * Part II: lemmas and theorems *)

(** ** Path insertion *)

Example assoc_in_docstring :
  assoc_in (VDict {[ "a" := VDict {[ "b" := VInt 1 ]} ]}) ["a"; "c"; "d"] (VInt 2)
  = Ok (VDict {[ "a" := VDict (<[ "c" := VDict {[ "d" := VInt 2 ]} ]> {[ "b" := VInt 1 ]}) ]}).
Proof. vm_compute. reflexivity. Qed.

Lemma assoc_in_ok_iff d path v :
  is_ok (assoc_in d path v) ↔ path_clear d path = true.
Proof.
  revert d. induction path as [|k rest IH]; intros d; simpl.
  - split; [done | intros _; by eexists].
  - destruct d as [a|l|m]; try (split; [intros [? ?]|]; done).
    destruct (m !! k) as [x|] eqn:Hk; simpl.
    + rewrite <- IH. unfold is_ok.
      destruct (assoc_in x rest v); simpl; split; intros [? ?]; try done; by eexists.
    + split; [done | intros _].
      assert (is_ok (assoc_in (VDict ∅) rest v)) as [r Hr].
      { apply IH. destruct rest; simpl; [done | by rewrite lookup_empty]. }
      rewrite Hr. simpl. by eexists.
Qed.

Lemma assoc_in_get_in d path v r :
  assoc_in d path v = Ok r → get_in r path = Some v.
Proof.
  revert d r. induction path as [|k rest IH]; intros d r; simpl.
  - by intros [= ->].
  - destruct d as [a|l|m]; try done.
    destruct (assoc_in _ rest v) as [e|sub] eqn:Hsub; simpl; [done|].
    intros [= <-]. rewrite lookup_insert_eq. simpl. by eapply IH.
Qed.

Lemma assoc_in_cons m k rest v :
  assoc_in (VDict m) (k :: rest) v
  = (sub ←! assoc_in (default (VDict ∅) (m !! k)) rest v;
     Ok (VDict (<[k := sub]> m))).
Proof. reflexivity. Qed.

Lemma assoc_in_empty k rest v :
  assoc_in (VDict ∅) (k :: rest) v = Ok (nest (k :: rest) v).
Proof.
  revert k. induction rest as [|k' rest IH]; intros k;
    rewrite assoc_in_cons, lookup_empty; cbn [default].
  - cbn [assoc_in rbind nest]. by rewrite insert_empty.
  - rewrite IH. cbn [rbind]. by rewrite insert_empty.
Qed.

Lemma assoc_in_frame d path v r q :
  assoc_in d path v = Ok r → diverge path q → get_in r q = get_in d q.
Proof.
  intros Hr (pre & k & k' & s & s' & Hne & -> & ->).
  revert d r Hr. induction pre as [|j pre IH]; intros d r; simpl.
  - destruct d as [a|l|m]; try done.
    destruct (assoc_in _ s v) as [e|sub]; simpl; [done|].
    intros [= <-]. by rewrite lookup_insert_ne.
  - destruct d as [a|l|m]; try done.
    destruct (assoc_in _ (pre ++ k :: s) v) as [e|sub] eqn:Hsub; simpl; [done|].
    intros [= <-]. rewrite lookup_insert_eq. simpl.
    destruct (m !! j) as [x|] eqn:Hj; simpl in *.
    + by eapply IH.
    + erewrite IH by done. clear. destruct pre; simpl; by rewrite lookup_empty.
Qed.

Lemma get_in_nest_app pre s v :
  get_in (nest (pre ++ s) v) pre = Some (nest s v).
Proof.
  induction pre as [|j pre IH]; [done|].
  cbn [app nest get_in]. by rewrite lookup_singleton_eq.
Qed.

Lemma assoc_in_created d pre k rest v r :
  assoc_in d (pre ++ k :: rest) v = Ok r →
  pre ≠ [] →
  get_in d pre = None →
  get_in r pre = Some (nest (k :: rest) v).
Proof.
  revert d r. induction pre as [|j pre IH]; intros d r; [done|].
  destruct d as [a|l|m]; try done.
  rewrite <- app_comm_cons, assoc_in_cons.
  destruct (assoc_in _ (pre ++ k :: rest) v) as [e|sub] eqn:Hsub; [done|].
  cbn [rbind get_in]. intros [= <-] _ Hnone. rewrite lookup_insert_eq.
  destruct (m !! j) as [x|] eqn:Hj; cbn [default mbind option_bind] in *.
  - destruct pre as [|j' pre]; [done|]. by eapply IH.
  - destruct pre as [|j' pre]; cbn [app] in Hsub;
      rewrite assoc_in_empty in Hsub; injection Hsub as <-; [done|].
    apply (get_in_nest_app (j' :: pre)).
Qed.

(** C1, as stated, at a path that runs through a leaf: [d.get] is called
    on the integer and raises, so nothing is returned and nothing can be
    read back. *)
Lemma assoc_in_through_leaf_raises :
  assoc_in (VDict {[ "a" := VInt 1 ]}) ["a"; "b"] (VInt 2) = Raise AttributeError
  ∧ ¬ ∃ r, assoc_in (VDict {[ "a" := VInt 1 ]}) ["a"; "b"] (VInt 2) = Ok r
           ∧ get_in r ["a"; "b"] = Some (VInt 2).
Proof.
  assert (assoc_in (VDict {[ "a" := VInt 1 ]}) ["a"; "b"] (VInt 2)
          = Raise AttributeError) as H by (vm_compute; reflexivity).
  split; [exact H|]. intros (r & Hr & _). rewrite H in Hr. discriminate.
Qed.

(** C1 (amended): when the path does not run through a value that is not a
    dictionary, [assoc_in d p v] returns a tree [r] such that reading [p]
    back gives [v], every location off the path reads as in [d], and a
    dictionary that was missing along [p] holds nothing but the rest of the
    path. *)
Theorem assoc_in_spec (d : value) (p : list string) (v : value) :
  path_clear d p = true →
  ∃ r, assoc_in d p v = Ok r
       ∧ get_in r p = Some v
       ∧ (∀ q, diverge p q → get_in r q = get_in d q)
       ∧ (∀ pre k rest, p = pre ++ k :: rest → pre ≠ [] →
            get_in d pre = None →
            get_in r pre = Some (nest (k :: rest) v)).
Proof.
  intros Hclear. apply (assoc_in_ok_iff d p v) in Hclear as [r Hr].
  exists r. split; [done|]. split; [by eapply assoc_in_get_in|]. split.
  - intros q Hq. by eapply assoc_in_frame.
  - intros pre k rest -> Hpre Hnone. by eapply assoc_in_created.
Qed.

(** The docstring's call is within the precondition. *)
Lemma assoc_in_spec_witness :
  path_clear (VDict {[ "a" := VDict {[ "b" := VInt 1 ]} ]}) ["a"; "c"; "d"] = true
  ∧ ∃ r, assoc_in (VDict {[ "a" := VDict {[ "b" := VInt 1 ]} ]})
           ["a"; "c"; "d"] (VInt 2) = Ok r
         ∧ get_in r ["a"; "c"; "d"] = Some (VInt 2)
         ∧ (∀ q, diverge ["a"; "c"; "d"] q →
              get_in r q = get_in (VDict {[ "a" := VDict {[ "b" := VInt 1 ]} ]}) q)
         ∧ (∀ pre k rest, ["a"; "c"; "d"] = pre ++ k :: rest → pre ≠ [] →
              get_in (VDict {[ "a" := VDict {[ "b" := VInt 1 ]} ]}) pre = None →
              get_in r pre = Some (nest (k :: rest) (VInt 2))).
Proof.
  split; [vm_compute; reflexivity|].
  apply (assoc_in_spec (VDict {[ "a" := VDict {[ "b" := VInt 1 ]} ]})
           ["a"; "c"; "d"] (VInt 2)).
  vm_compute; reflexivity.
Defined.

(** ** Path insertion on the store *)

Module HeapFacts.
Import Heap.

Lemma alloc_spec h m h' l :
  alloc h m = (h', l) → h !! l = None ∧ h' = <[l := m]> h.
Proof.
  unfold alloc. intros [= <- <-]. split; [|done].
  apply not_elem_of_dom, is_fresh.
Qed.

Lemma alloc_extends h m h' l : alloc h m = (h', l) → h ⊆ h'.
Proof. intros [Hl ->]%alloc_spec. by apply insert_subseteq. Qed.

Lemma assoc_in_extends path : ∀ d v h, h ⊆ (assoc_in d path v h).1.
Proof.
  induction path as [|k rest IH]; intros d v h; [done|].
  cbn [assoc_in]. destruct d as [x|l]; [done|].
  destruct (h !! l) as [m|] eqn:Hl; [|done].
  destruct (alloc h ∅) as [h1 e] eqn:Ha.
  pose proof (IH (default (HRef e) (m !! k)) v h1) as Hsub.
  destruct (assoc_in _ rest v h1) as [h2 [err|sub]]; cbn [fst] in *.
  - etrans; [by eapply alloc_extends | done].
  - destruct (alloc h2 _) as [h3 n] eqn:Hb. cbn [fst].
    etrans; [by eapply alloc_extends|]. etrans; [done|]. by eapply alloc_extends.
Qed.

Lemma get_in_mono h h' d path x :
  h ⊆ h' → get_in h d path = Some x → get_in h' d path = Some x.
Proof.
  intros Hsub. revert d. induction path as [|k rest IH]; intros d; [done|].
  cbn [get_in]. destruct d as [y|l]; [done|].
  destruct (h !! l) as [m|] eqn:Hl; [|done].
  rewrite (lookup_weaken _ _ _ _ Hl Hsub). cbn [mbind option_bind].
  destruct (m !! k); [apply IH | done].
Qed.

Lemma assoc_in_fresh_root d k rest v h h' r :
  assoc_in d (k :: rest) v h = (h', Ok r) →
  ∃ n m, r = HRef n ∧ h !! n = None ∧ h' !! n = Some m ∧ m !! k ≠ None.
Proof.
  cbn [assoc_in]. destruct d as [x|l]; [done|].
  destruct (h !! l) as [m|] eqn:Hl; [|done].
  destruct (alloc h ∅) as [h1 e] eqn:Ha.
  pose proof (assoc_in_extends rest (default (HRef e) (m !! k)) v h1) as Hsub.
  destruct (assoc_in _ rest v h1) as [h2 [err|sub]]; [done|]. cbn [fst] in Hsub.
  destruct (alloc h2 _) as [h3 n] eqn:Hb. intros [= <- <-].
  apply alloc_spec in Hb as [Hn ->]. exists n, (<[k:=sub]> (default ∅ (h2 !! l))).
  split; [done|]. split; [|split].
  - apply alloc_extends in Ha.
    destruct (h !! n) as [y|] eqn:Hhn; [|done].
    pose proof (lookup_weaken _ _ _ _ Hhn (transitivity Ha Hsub)). congruence.
  - by rewrite lookup_insert_eq.
  - by rewrite lookup_insert_eq.
Qed.

Lemma assoc_in_fresh_path pre : ∀ d k rest v h h' r,
  assoc_in d (pre ++ k :: rest) v h = (h', Ok r) →
  ∃ n, get_in h' r pre = Some (HRef n) ∧ h !! n = None ∧ is_Some (h' !! n).
Proof.
  induction pre as [|j pre IH]; intros d k rest v h h' r Hr.
  - apply assoc_in_fresh_root in Hr as (n & m & -> & Hn & Hm & _).
    exists n. by rewrite Hm.
  - revert Hr. rewrite <- app_comm_cons. cbn [assoc_in].
    destruct d as [x|l]; [done|].
    destruct (h !! l) as [m|] eqn:Hl; [|done].
    destruct (alloc h ∅) as [h1 e] eqn:Ha.
    destruct (assoc_in _ (pre ++ k :: rest) v h1) as [h2 [err|sub]] eqn:Hsub; [done|].
    destruct (alloc h2 _) as [h3 n] eqn:Hb. intros [= <- <-].
    apply IH in Hsub as (n' & Hget & Hfresh & [y Hy]).
    pose proof (alloc_extends _ _ _ _ Ha) as Hext1.
    pose proof (alloc_extends _ _ _ _ Hb) as Hext3.
    apply alloc_spec in Hb as [Hn ->].
    exists n'. cbn [get_in]. rewrite lookup_insert_eq. cbn [mbind option_bind].
    rewrite lookup_insert_eq. cbn [mbind option_bind].
    split; [by eapply get_in_mono|]. split.
    + destruct (h !! n') as [z|] eqn:Hz; [|done].
      pose proof (lookup_weaken _ _ _ _ Hz Hext1). congruence.
    + exists y. by eapply lookup_weaken.
Qed.

Lemma reps_mono h h' : h ⊆ h' → ∀ hv v, reps h hv v → reps h' hv v.
Proof.
  intros Hsub. fix IH 3. intros hv v [v0 Hd | l m pm Hl Hall].
  - by constructor.
  - econstructor; [by eapply lookup_weaken|].
    intros k. destruct (Hall k) as [x px Hx|]; constructor. by apply IH.
Qed.

End HeapFacts.

(** The store version computes what the pure version computes: on objects
    that are the trees [pd] and [pv], both raise, or both return and the
    returned object is the returned tree. *)
Lemma heap_assoc_in_refines path : ∀ d pd v pv h,
  Heap.reps h d pd → Heap.reps h v pv →
  match Heap.assoc_in d path v h, assoc_in pd path pv with
  | (h', inr r), inr pr => Heap.reps h' r pr
  | (_, inl e), inl e' => e = e'
  | _, _ => False
  end.
Proof.
  induction path as [|k rest IH]; intros d pd v pv h Hd Hv; [done|].
  cbn [Heap.assoc_in assoc_in].
  destruct Hd as [x Hx | l m pm Hl Hall].
  { by destruct x. }
  rewrite Hl. destruct (Heap.alloc h ∅) as [h1 e] eqn:Ha.
  pose proof (HeapFacts.alloc_extends _ _ _ _ Ha) as Hext1.
  apply HeapFacts.alloc_spec in Ha as [He ->].
  set (h1 := <[e:=∅]> h) in *.
  assert (Heap.reps h1 (default (Heap.HRef e) (m !! k)) (default (VDict ∅) (pm !! k)))
    as Hchild.
  { destruct (Hall k) as [x px Hx|]; cbn [default].
    - by eapply HeapFacts.reps_mono.
    - econstructor; [apply lookup_insert_eq|].
      intros j. rewrite !lookup_empty. constructor. }
  pose proof (HeapFacts.assoc_in_extends rest (default (Heap.HRef e) (m !! k)) v h1) as Hext2.
  specialize (IH _ _ v pv h1 Hchild (HeapFacts.reps_mono _ _ Hext1 _ _ Hv)).
  destruct (Heap.assoc_in _ rest v h1) as [h2 [err|sub]];
    destruct (assoc_in _ rest pv) as [err'|psub]; cbn [rbind fst] in *; try done.
  destruct (Heap.alloc h2 _) as [h3 n] eqn:Hb.
  pose proof (HeapFacts.alloc_extends _ _ _ _ Hb) as Hext3.
  apply HeapFacts.alloc_spec in Hb as [Hn ->].
  assert (h2 !! l = Some m) as Hl2.
  { eapply lookup_weaken; [exact Hl|]. by etrans. }
  rewrite Hl2 in *. cbn [default from_option id] in *.
  econstructor; [apply lookup_insert_eq|].
  intros j. destruct (decide (k = j)) as [->|Hne].
  - rewrite !lookup_insert_eq. constructor. by eapply HeapFacts.reps_mono.
  - rewrite !lookup_insert_ne by done.
    destruct (Hall j) as [x px Hx|]; constructor.
    eapply HeapFacts.reps_mono; [|exact Hx]. etrans; [exact Hext1|]. by etrans.
Qed.

(** C8: [assoc_in] writes to no dictionary that exists when it is called:
    every dictionary of the store has the same items afterwards (whether the
    call returns or raises), so the input reads as the same tree; and when
    the call returns, the root of the result and every dictionary of the
    result along the path is an object that did not exist before. *)
Theorem assoc_in_no_mutation (d : Heap.hval) (p : list string) (v : Heap.hval)
    (h : gmap positive (gmap string Heap.hval)) :
  let '(h', res) := Heap.assoc_in d p v h in
  (∀ l m, h !! l = Some m → h' !! l = Some m)
  ∧ (∀ pd, Heap.reps h d pd → Heap.reps h' d pd)
  ∧ (∀ r pre k rest, res = Ok r → p = pre ++ k :: rest →
       ∃ n, Heap.get_in h' r pre = Some (Heap.HRef n)
            ∧ h !! n = None ∧ is_Some (h' !! n)).
Proof.
  pose proof (HeapFacts.assoc_in_extends p d v h) as Hext.
  destruct (Heap.assoc_in d p v h) as [h' res] eqn:Hrun. cbn [fst] in Hext.
  split; [|split].
  - intros l m Hl. by eapply lookup_weaken.
  - intros pd Hd. by eapply HeapFacts.reps_mono.
  - intros r pre k rest -> ->. by eapply HeapFacts.assoc_in_fresh_path.
Qed.

Lemma docstring_heap_reps :
  Heap.reps docstring_heap (Heap.HRef 1) (VDict {[ "a" := VDict {[ "b" := VInt 1 ]} ]}).
Proof.
  apply (Heap.reps_dict _ 1 {[ "a" := Heap.HRef 2 ]}); [by vm_compute|].
  intros k. destruct (decide (k = "a")) as [->|Hne].
  - rewrite !lookup_singleton_eq. constructor.
    apply (Heap.reps_dict _ 2 {[ "b" := Heap.HLeaf (VInt 1) ]}); [by vm_compute|].
    intros j. destruct (decide (j = "b")) as [->|Hne].
    + rewrite !lookup_singleton_eq. by repeat constructor.
    + rewrite !lookup_singleton_ne by done. constructor.
  - rewrite !lookup_singleton_ne by done. constructor.
Qed.

(** The docstring's call on that store: the two dictionaries of the input
    keep their items; the result is built at a new address and is the tree
    of the docstring. *)
Example heap_assoc_in_docstring :
  let '(h', res) :=
    Heap.assoc_in (Heap.HRef 1) ["a"; "c"; "d"] (Heap.HLeaf (VInt 2))
      docstring_heap in
  h' !! 1%positive = Some {[ "a" := Heap.HRef 2 ]}
  ∧ h' !! 2%positive = Some {[ "b" := Heap.HLeaf (VInt 1) ]}
  ∧ ∃ n, res = Ok (Heap.HRef n) ∧ docstring_heap !! n = None
         ∧ Heap.reps h' (Heap.HRef n)
             (VDict {[ "a" := VDict (<[ "c" := VDict {[ "d" := VInt 2 ]} ]>
                                       {[ "b" := VInt 1 ]}) ]}).
Proof.
  pose proof (heap_assoc_in_refines ["a"; "c"; "d"] _ _
    (Heap.HLeaf (VInt 2)) (VInt 2) _ docstring_heap_reps) as Href.
  rewrite assoc_in_docstring in Href.
  pose proof (HeapFacts.assoc_in_fresh_root (Heap.HRef 1) "a" ["c"; "d"]
    (Heap.HLeaf (VInt 2)) docstring_heap) as Hroot.
  pose proof (HeapFacts.assoc_in_extends ["a"; "c"; "d"] (Heap.HRef 1)
    (Heap.HLeaf (VInt 2)) docstring_heap) as Hext.
  destruct (Heap.assoc_in _ _ _ _) as [h' [err|r]]; cbn [fst] in *.
  - exfalso. apply Href. by constructor.
  - split; [apply (lookup_weaken docstring_heap); [by vm_compute | done]|].
    split; [apply (lookup_weaken docstring_heap); [by vm_compute | done]|].
    destruct (Hroot h' r eq_refl) as (n & m & -> & Hn & _).
    exists n. split; [done|]. split; [done|].
    apply Href. by constructor.
Qed.

(** ** Deep merge *)

Lemma merge_value_dict x y :
  merge_value (Some (VDict x)) (VDict y) = VDict (deep_merge x y).
Proof. reflexivity. Qed.

Lemma merge_value_leaf old new :
  is_dict new = false → merge_value old new = new.
Proof. destruct new, old as [[]|]; done. Qed.

Lemma merge_value_over_leaf old new :
  (∀ x, old ≠ Some (VDict x)) → merge_value old new = new.
Proof. destruct old as [[| |x]|], new; try done. intros H. by destruct (H x). Qed.

Lemma lookup_deep_merge a b k :
  deep_merge a b !! k
  = match b !! k with
    | Some v => Some (merge_value (a !! k) v)
    | None => a !! k
    end.
Proof.
  unfold deep_merge. revert k.
  apply (map_fold_weak_ind (λ r m, ∀ k, r !! k = match m !! k with
                                               | Some v => Some (merge_value (a !! k) v)
                                               | None => a !! k
                                               end)).
  - intros k. by rewrite lookup_empty.
  - intros i x m r Hi IH k. destruct (decide (i = k)) as [->|Hne].
    + rewrite !lookup_insert_eq. f_equal. f_equal. by rewrite IH, Hi.
    + rewrite !lookup_insert_ne by done. apply IH.
Qed.

Lemma deep_merge_empty_r a : deep_merge a ∅ = a.
Proof. apply map_eq. intros k. by rewrite lookup_deep_merge, lookup_empty. Qed.

Lemma deep_merge_empty_l b : deep_merge ∅ b = b.
Proof.
  apply map_eq. intros k. rewrite lookup_deep_merge, lookup_empty.
  destruct (b !! k) as [v|]; [|done]. by rewrite merge_value_over_leaf.
Qed.

(** The override wins at every depth: a leaf of [b] is a leaf of the merge,
    at the same path. *)
Lemma deep_merge_override_wins q : ∀ a b x,
  get_in (VDict b) q = Some x → q ≠ [] → is_dict x = false →
  get_in (VDict (deep_merge a b)) q = Some x.
Proof.
  induction q as [|k rest IH]; intros a b x Hget Hq Hx; [done|].
  cbn [get_in] in *. rewrite lookup_deep_merge.
  destruct (b !! k) as [vb|]; [|done]. cbn [mbind option_bind] in *.
  destruct (a !! k) as [[| |xa]|], vb as [| |y];
    try (rewrite merge_value_over_leaf by done; done);
    try (rewrite merge_value_leaf by done; done).
  rewrite merge_value_dict. destruct rest as [|k' rest].
  - injection Hget as <-. done.
  - by apply IH.
Qed.

Lemma untouched_get_in q : ∀ b, untouched b q = true → get_in b q = None.
Proof.
  induction q as [|k rest IH]; intros b Hun; [done|].
  cbn [get_in untouched] in *. destruct b as [| |m]; try done.
  destruct (m !! k) as [x|]; [by apply IH | done].
Qed.

(** What the override does not mention is kept: a path of [a] that [b]
    leaves untouched reads the same in the merge. *)
Lemma deep_merge_keeps q : ∀ a b,
  untouched (VDict b) q = true →
  get_in (VDict (deep_merge a b)) q = get_in (VDict a) q.
Proof.
  induction q as [|k rest IH]; intros a b Hun; [done|].
  cbn [get_in untouched] in *. rewrite lookup_deep_merge.
  destruct (b !! k) as [vb|]; [|done]. cbn [mbind option_bind].
  destruct rest as [|k' rest]; [done|].
  destruct vb as [| |y]; try done.
  destruct (a !! k) as [va|] eqn:Ha; cbn [mbind option_bind].
  - destruct va as [| |xa];
      try (rewrite merge_value_over_leaf by (intros ?; discriminate);
           by apply untouched_get_in).
    rewrite merge_value_dict. by apply IH.
  - rewrite merge_value_over_leaf by done. by apply untouched_get_in.
Qed.

(** ** Construction: parameters, schema overrides, isolation flag *)

Section Init.
Import Process.

Variable cls : class.
Variable given : option (gmap string value).

Lemma init_parameters_eq :
  parameters (__init__ cls given)
  = setdefault "time_step" DEFAULT_TIME_STEP
      (delete "_parallel" (delete "_schema" (merged_parameters cls given))).
Proof. reflexivity. Qed.

Lemma init_schema_override :
  schema_override (__init__ cls given)
  = default (VDict ∅) ((merged_parameters cls given) !! "_schema").
Proof. reflexivity. Qed.

Lemma init_parallel :
  parallel (__init__ cls given)
  = default (VBool false) ((merged_parameters cls given) !! "_parallel").
Proof.
  unfold __init__, pop. cbn [parallel].
  by rewrite lookup_delete_ne.
Qed.

Lemma lookup_setdefault k v (d : gmap string value) j :
  setdefault k v d !! j
  = if decide (j = k) then Some (default v (d !! k)) else d !! j.
Proof.
  unfold setdefault. destruct (d !! k) as [x|] eqn:Hk; case_decide; subst;
    rewrite ?Hk, ?lookup_insert_eq, ?lookup_insert_ne; done.
Qed.

Lemma init_parameters_lookup k :
  parameters (__init__ cls given) !! k
  = if decide (k = "_schema" ∨ k = "_parallel") then None
    else if decide (k = "time_step")
         then Some (default DEFAULT_TIME_STEP ((merged_parameters cls given) !! "time_step"))
         else (merged_parameters cls given) !! k.
Proof.
  rewrite init_parameters_eq, lookup_setdefault.
  destruct (decide (k = "time_step")) as [->|Hts].
  - rewrite decide_False by (intros [?|?]; discriminate).
    by rewrite !lookup_delete_ne.
  - destruct (decide (k = "_schema" ∨ k = "_parallel")) as [[->| ->]|Hn].
    + rewrite lookup_delete_ne by done. apply lookup_delete_eq.
    + apply lookup_delete_eq.
    + rewrite !lookup_delete_ne by naive_solver. done.
Qed.

End Init.

(** C4, as stated, on a class without defaults constructed without
    parameters: the merge is empty, and the instance's parameters are not
    (they hold [time_step]). *)
Lemma init_parameters_not_only_merge :
  Process.parameters (Process.__init__ bare_class None)
  ≠ delete "_parallel" (delete "_schema"
      (deep_merge (deepcopy (Process.defaults bare_class)) ∅)).
Proof.
  intros H. apply (f_equal (λ m, m !! "time_step")) in H.
  vm_compute in H. discriminate.
Qed.

(** C4 (amended): the parameters of a constructed instance are the class
    defaults deep-merged with the given parameters, without [_schema] and
    [_parallel], and with [time_step] bound to 1.0 when the merge does not
    bind it; the [_schema] entry of the merge is the schema-override set
    (empty when absent) and its [_parallel] entry the isolation flag (False
    when absent); in the merge the given values win at every depth, and
    what they do not mention is as in the defaults. *)
Theorem init_merges_defaults (cls : Process.class) (given : option (gmap string value)) :
  let merged := deep_merge (deepcopy (Process.defaults cls)) (default ∅ given) in
  let self := Process.__init__ cls given in
  Process.parameters self
    = setdefault "time_step" DEFAULT_TIME_STEP
        (delete "_parallel" (delete "_schema" merged))
  ∧ (∀ k, Process.parameters self !! k
          = if decide (k = "_schema" ∨ k = "_parallel") then None
            else if decide (k = "time_step")
                 then Some (default DEFAULT_TIME_STEP (merged !! "time_step"))
                 else merged !! k)
  ∧ Process.schema_override self = default (VDict ∅) (merged !! "_schema")
  ∧ Process.parallel self = default (VBool false) (merged !! "_parallel")
  ∧ (∀ q x, get_in (VDict (default ∅ given)) q = Some x → q ≠ [] →
            is_dict x = false → get_in (VDict merged) q = Some x)
  ∧ (∀ q, untouched (VDict (default ∅ given)) q = true →
          get_in (VDict merged) q = get_in (VDict (Process.defaults cls)) q).
Proof.
  cbv zeta. split; [apply init_parameters_eq|].
  split; [apply init_parameters_lookup|].
  split; [apply init_schema_override|].
  split; [apply init_parallel|].
  split.
  - intros q x. apply deep_merge_override_wins.
  - intros q. apply deep_merge_keeps.
Qed.

Example init_engulf :
  let cls := {| Process.class_name := "Engulf";
                Process.name_attr := Some (VStr "engulf");
                Process.defaults := {[ "agent_id" := VStr "DEFAULT" ]};
                Process.ports_schema := λ _, VDict ∅ |} in
  let self := Process.__init__ cls
                (Some {[ "agent_id" := VStr "1"; "_parallel" := VBool true ]}) in
  Process.parameters self
    = {[ "agent_id" := VStr "1"; "time_step" := VFloat 1.0%float ]}
  ∧ Process.parallel self = VBool true
  ∧ Process.schema_override self = VDict ∅
  ∧ Process.name self = VStr "engulf".
Proof. vm_compute. done. Qed.

(** ** The default timestep *)

(** C6: [calculate_timestep] does not depend on its argument: on any
    instance, any two port states (or None) give the same outcome; on a
    constructed instance the outcome is the [time_step] of its parameters,
    which is the configured one when the defaults or the given parameters
    bind [time_step], and 1.0 when they do not. *)
Theorem calculate_timestep_fixed (cls : Process.class)
    (given : option (gmap string value)) (self : Process.t)
    (s1 s2 : option value) :
  Process.calculate_timestep self s1 = Process.calculate_timestep self s2
  ∧ Process.calculate_timestep (Process.__init__ cls given) s1
    = Process.calculate_timestep (Process.__init__ cls given) s2
  ∧ Process.calculate_timestep (Process.__init__ cls given) s1
    = Ok (default DEFAULT_TIME_STEP
            (deep_merge (Process.defaults cls) (default ∅ given) !! "time_step"))
  ∧ Process.parameters (Process.__init__ cls given) !! "time_step"
    = Some (default DEFAULT_TIME_STEP
              (deep_merge (Process.defaults cls) (default ∅ given) !! "time_step"))
  ∧ (Process.defaults cls !! "time_step" = None →
     default ∅ given !! "time_step" = None →
     Process.calculate_timestep (Process.__init__ cls given) s1
     = Ok (VFloat 1.0%float)).
Proof.
  split; [done|]. split; [done|].
  assert (Process.parameters (Process.__init__ cls given) !! "time_step"
          = Some (default DEFAULT_TIME_STEP
                    (deep_merge (Process.defaults cls) (default ∅ given) !! "time_step")))
    as Hts.
  { rewrite init_parameters_lookup.
    rewrite decide_False by (intros [?|?]; discriminate).
    by rewrite decide_True. }
  unfold Process.calculate_timestep, py_getitem.
  rewrite Hts. split; [done|]. split; [done|].
  intros Hd Hg. by rewrite lookup_deep_merge, Hg, Hd.
Qed.

(** ** Default state *)

Section DefaultState.
Import Process.

Lemma default_state_var_ok port key entry (state : State) :
  var_ok entry = true →
  default_state_var port key entry state
  = Ok (match declared_default entry with
        | Some d => <[port := <[key := d]> (default ∅ (state !! port))]> state
        | None => state
        end).
Proof.
  intros Hok. unfold default_state_var.
  destruct entry as [[]| l | e]; try done; cbn [py_in rbind declared_default].
  - cbn [var_ok] in Hok. apply negb_true_iff in Hok. by rewrite Hok.
  - cbn [var_ok] in Hok. apply negb_true_iff in Hok. by rewrite Hok.
  - destruct (e !! "_default") as [d|] eqn:Hd.
    + rewrite bool_decide_eq_true_2 by done. cbn [py_getitem]. rewrite Hd.
      cbn [rbind]. destruct (state !! port) as [vars|] eqn:Hp.
      * by rewrite Hp.
      * rewrite lookup_insert_eq. cbn [default from_option id].
        by rewrite insert_insert_eq.
    + rewrite bool_decide_eq_false_2; [done|]. by intros [? ?].
Qed.

Lemma default_state_port_ok port vars (state : State) :
  map_Forall (λ _ e, var_ok e = true) vars →
  state !! port = None →
  default_state_port port (VDict vars) state
  = Ok (match port_defaults (VDict vars) with
        | Some d => <[port := d]> state
        | None => state
        end).
Proof.
  intros Hall Hport. unfold default_state_port, port_defaults.
  set (body := λ (key : string) (value : value) (acc : result State),
                 rbind acc (default_state_var port key value)).
  enough (map_Forall (λ _ e, var_ok e = true) vars →
          map_fold body (Ok state) vars
          = Ok (if decide (size (omap declared_default vars) = 0) then state
                else <[port := omap declared_default vars]> state)) as Hfold.
  { change (map_fold body (Ok state) vars = Ok
              match (if decide (size (omap declared_default vars) = 0)
                     then None else Some (omap declared_default vars)) with
              | Some d => <[port:=d]> state
              | None => state
              end).
    rewrite Hfold by done. by case_decide. }
  clear Hall.
  set (P := λ (r : result State) (m : gmap string value),
    map_Forall (λ _ e, var_ok e = true) m →
    r = Ok (if decide (size (omap declared_default m) = 0) then state
            else <[port := omap declared_default m]> state)).
  change (P (map_fold body (Ok state) vars) vars).
  apply map_fold_weak_ind; unfold P; clear P.
  - intros _. by rewrite omap_empty, map_size_empty.
  - intros i x m r Hi IH [Hx Hm]%map_Forall_insert; [|done].
    rewrite (IH Hm). unfold body. cbn [rbind].
    rewrite default_state_var_ok by done.
    assert (omap declared_default m !! i = None) as Hoi
      by (by rewrite lookup_omap, Hi).
    destruct (declared_default x) as [d|] eqn:Hd.
    + rewrite (omap_insert_Some _ _ _ _ _ Hd).
      rewrite (decide_False (P := size (<[i:=d]> _) = 0))
        by (rewrite map_size_insert_None by done; lia).
      f_equal. case_decide as Hsz.
      * apply map_size_empty_iff in Hsz. rewrite Hsz, Hport. done.
      * rewrite lookup_insert_eq. cbn [default from_option id].
        by rewrite insert_insert_eq.
    + rewrite (omap_insert_None _ _ _ _ Hd), delete_id by done. done.
Qed.

Lemma default_state_ok cls self ports :
  get_schema cls self VNone = Ok (VDict ports) →
  schema_ok ports →
  default_state cls self = Ok (omap port_defaults ports).
Proof.
  intros Hs. unfold default_state. rewrite Hs. cbn [rbind]. unfold schema_ok.
  set (body := λ (port : string) (states : value) (acc : result State),
                 rbind acc (default_state_port port states)).
  set (P := λ (r : result State) (m : gmap string value),
    map_Forall (λ _ states, port_ok states = true) m →
    r = Ok (omap port_defaults m)).
  change (P (map_fold body (Ok ∅) ports) ports).
  apply map_fold_weak_ind; unfold P; clear P.
  - intros _. by rewrite omap_empty.
  - intros i x m r Hi IH [Hx Hm]%map_Forall_insert; [|done].
    rewrite (IH Hm). unfold body. cbn [rbind].
    destruct x as [| |vars]; try done. cbn [port_ok] in Hx.
    apply bool_decide_eq_true in Hx.
    rewrite default_state_port_ok; [|done|by rewrite lookup_omap, Hi].
    destruct (port_defaults (VDict vars)) as [d|] eqn:Hd.
    + by rewrite (omap_insert_Some _ _ _ _ _ Hd).
    + rewrite (omap_insert_None _ _ _ _ Hd), delete_id; [done|].
      by rewrite lookup_omap, Hi.
Qed.

(** Conversely, [default_state] returns on no other schema. *)
Lemma default_state_var_returns port key entry (state state' : State) :
  default_state_var port key entry state = Ok state' → var_ok entry = true.
Proof.
  unfold default_state_var.
  destruct entry as [[]| l | e]; try done; cbn [py_in rbind var_ok].
  - destruct (str_contains "_default" s); [|done].
    by destruct (state !! port).
  - destruct (existsb (is_str "_default") l); [|done].
    by destruct (state !! port).
Qed.

Lemma default_state_returns cls self ports (state : State) :
  get_schema cls self VNone = Ok (VDict ports) →
  default_state cls self = Ok state →
  schema_ok ports.
Proof.
  intros Hs. unfold default_state. rewrite Hs. cbn [rbind]. unfold schema_ok.
  set (body := λ (port : string) (states : value) (acc : result State),
                 rbind acc (default_state_port port states)).
  set (P := λ (r : result State) (m : gmap string value),
    ∀ state, r = Ok state → map_Forall (λ _ states, port_ok states = true) m).
  enough (P (map_fold body (Ok ∅) ports) ports) as HP by (by apply HP).
  apply map_fold_weak_ind; unfold P; clear P.
  - intros _ _. apply map_Forall_empty.
  - intros i x m r Hi IH st' Hr. unfold body in Hr.
    destruct r as [err|st]; [done|]. cbn [rbind] in Hr.
    apply map_Forall_insert; [done|]. split; [|by eapply IH].
    destruct x as [| |vars]; try done. cbn [port_ok default_state_port] in *.
    apply bool_decide_eq_true. revert st' Hr.
    set (inner := λ (key : string) (value : value) (acc : result State),
                    rbind acc (default_state_var i key value)).
    set (Q := λ (r : result State) (m : gmap string value),
      ∀ st', r = Ok st' → map_Forall (λ _ e, var_ok e = true) m).
    change (Q (map_fold inner (Ok st) vars) vars).
    apply map_fold_weak_ind; unfold Q; clear Q.
    + intros _ _. apply map_Forall_empty.
    + intros k e m' r' Hk IH' st' Hr. unfold inner in Hr.
      destruct r' as [err|st'']; [done|]. cbn [rbind] in Hr.
      apply map_Forall_insert; [done|]. split; [|by eapply IH'].
      by eapply default_state_var_returns.
Qed.

End DefaultState.

Lemma get_schema_combined cls self ps so :
  Process.ports_schema cls self = VDict ps →
  Process.schema_override self = VDict so →
  Process.get_schema cls self VNone = Ok (VDict (deep_merge ps so)).
Proof.
  intros Hps Hso. unfold Process.get_schema, deepcopy. by rewrite Hps, Hso.
Qed.

(** C10, as stated, on [ConsumerProcess]: ['_default' in True] raises, and
    [default_state] returns no state at all. *)
Lemma default_state_consumer_raises :
  Process.default_state ConsumerProcess (Process.__init__ ConsumerProcess None)
  = Raise (TypeError "argument is not iterable")
  ∧ ¬ ∃ state,
      Process.default_state ConsumerProcess (Process.__init__ ConsumerProcess None)
      = Ok state.
Proof.
  assert (Process.default_state ConsumerProcess
            (Process.__init__ ConsumerProcess None)
          = Raise (TypeError "argument is not iterable")) as H
    by (vm_compute; reflexivity).
  split; [exact H|]. intros [state Hs]. rewrite H in Hs. discriminate.
Qed.

(** C10 (amended): for a process whose combined schema maps every port to a
    mapping and every variable of a port to a mapping (or to a list or a
    string in which ['_default'] does not occur), [default_state] returns a
    state that holds a variable under a port exactly when the variable's
    entry is a mapping with a [_default] key, with that value; and a port
    is absent from the state exactly when none of its variables declares
    [_default]. *)
Theorem default_state_spec (cls : Process.class) (self : Process.t)
    (ports : gmap string value) :
  Process.get_schema cls self VNone = Ok (VDict ports) →
  schema_ok ports →
  ∃ state, Process.default_state cls self = Ok state
    ∧ (∀ port var x,
         (∃ vars, state !! port = Some vars ∧ vars !! var = Some x)
         ↔ (∃ vars e, ports !! port = Some (VDict vars)
                      ∧ vars !! var = Some (VDict e)
                      ∧ e !! "_default" = Some x))
    ∧ (∀ port,
         state !! port = None
         ↔ ¬ ∃ vars var e, ports !! port = Some (VDict vars)
                           ∧ vars !! var = Some (VDict e)
                           ∧ is_Some (e !! "_default")).
Proof.
  intros Hs Hok. exists (omap port_defaults ports).
  split; [by apply default_state_ok|].
  assert (∀ port var x,
    (∃ vars, omap port_defaults ports !! port = Some vars ∧ vars !! var = Some x)
    ↔ (∃ vars e, ports !! port = Some (VDict vars)
                 ∧ vars !! var = Some (VDict e)
                 ∧ e !! "_default" = Some x)) as Hvar.
  { intros port var x. rewrite lookup_omap. split.
    - intros (vars' & Hp & Hv).
      destruct (ports !! port) as [[| |vars]|]; try done.
      cbn [mbind option_bind port_defaults] in Hp. case_decide; [done|].
      injection Hp as <-. rewrite lookup_omap in Hv.
      destruct (vars !! var) as [[| |e]|] eqn:Hvv; try done.
      exists vars, e. split; [done|]. split; [done|]. exact Hv.
    - intros (vars & e & -> & Hv & He).
      cbn [mbind option_bind port_defaults].
      assert (omap declared_default vars !! var = Some x) as Hx
        by (by rewrite lookup_omap, Hv).
      rewrite decide_False by (by eapply map_size_ne_0_lookup_2).
      by eexists. }
  split; [exact Hvar|].
  intros port. split.
  - intros Hnone (vars & var & e & Hp & Hv & [x He]).
    destruct (proj2 (Hvar port var x)) as (vars' & Hp' & _); [by exists vars, e|].
    congruence.
  - intros Hno. destruct (omap port_defaults ports !! port) as [vars'|] eqn:Hp; [|done].
    exfalso. apply Hno.
    assert (size vars' ≠ 0) as Hsz.
    { rewrite lookup_omap in Hp.
      destruct (ports !! port) as [[| |vars]|]; try done.
      cbn [mbind option_bind port_defaults] in Hp. case_decide; [done|].
      by injection Hp as <-. }
    apply map_size_ne_0_lookup_1 in Hsz as (var & x & Hx).
    destruct (proj1 (Hvar port var x)) as (vars & e & Hp' & Hv & He);
      [by exists vars'|].
    exists vars, var, e. by rewrite He.
Qed.

(** [MetaDivision]'s schema is one the statement covers. *)
Lemma default_state_spec_witness :
  Process.get_schema MetaDivision (Process.__init__ MetaDivision None) VNone
  = Ok (VDict MetaDivision_schema)
  ∧ schema_ok MetaDivision_schema
  ∧ ∃ state,
      Process.default_state MetaDivision (Process.__init__ MetaDivision None)
      = Ok state
      ∧ (∀ port var x,
           (∃ vars, state !! port = Some vars ∧ vars !! var = Some x)
           ↔ (∃ vars e, MetaDivision_schema !! port = Some (VDict vars)
                        ∧ vars !! var = Some (VDict e)
                        ∧ e !! "_default" = Some x))
      ∧ (∀ port,
           state !! port = None
           ↔ ¬ ∃ vars var e, MetaDivision_schema !! port = Some (VDict vars)
                             ∧ vars !! var = Some (VDict e)
                             ∧ is_Some (e !! "_default")).
Proof.
  assert (Process.get_schema MetaDivision (Process.__init__ MetaDivision None) VNone
          = Ok (VDict MetaDivision_schema)) as Hs by (vm_compute; reflexivity).
  assert (schema_ok MetaDivision_schema) as Hok.
  { apply (bool_decide_unpack _). vm_compute. exact I. }
  split; [exact Hs|]. split; [exact Hok|].
  exact (default_state_spec MetaDivision (Process.__init__ MetaDivision None)
           MetaDivision_schema Hs Hok).
Defined.

Example default_state_meta_division :
  Process.default_state MetaDivision (Process.__init__ MetaDivision None)
  = Ok {[ "global" := {[ "divide" := VBool false ]} ]}.
Proof. vm_compute. reflexivity. Qed.

(** ** Schema overrides pushed down to the leaf processes *)

Lemma override_schemas_unfold ov processes σ :
  _override_schemas (VDict ov) processes σ
  = map_fold (override_step processes) (Ok σ) ov.
Proof.
  reflexivity.
Qed.

Lemma overridden_proper T T' σ σ' :
  (∀ π pid o, T π pid o ↔ T' π pid o) → overridden T σ σ' → overridden T' σ σ'.
Proof.
  intros Heq [Hframe Huniq]. split.
  - intros pid Hno. apply Hframe. intros π o HT. by apply (Hno π o), Heq.
  - intros pid π o HT Hu. apply (Huniq pid π o); [by apply Heq|].
    intros π' o' HT'. apply (Hu π' o'). by apply Heq.
Qed.

Lemma overridden_nothing σ : overridden (λ _ _ _, False) σ σ.
Proof. split; [done|]. by intros pid π o []. Qed.

(** Two walks in a row, over overrides keyed to different paths. *)
Lemma overridden_seq T1 T2 σ σ1 σ2 :
  (∀ π pid pid' o o', T1 π pid o → T2 π pid' o' → False) →
  overridden T1 σ σ1 → overridden T2 σ1 σ2 →
  overridden (λ π pid o, T1 π pid o ∨ T2 π pid o) σ σ2.
Proof.
  intros Hdisj [Hf1 Hu1] [Hf2 Hu2]. split.
  - intros pid Hno. rewrite Hf2, Hf1; [done| |];
      intros π o HT; apply (Hno π o); first [by left | by right].
  - intros pid π o [HT|HT] Hu.
    + destruct (Hu1 pid π o HT) as (self & so & Hs & Hso & Hs').
      { intros π' o' HT'. apply (Hu π' o'). by left. }
      exists self, so. split; [done|]. split; [done|].
      rewrite Hf2; [done|]. intros π' o' HT'.
      assert (π' = π) as -> by (apply (Hu π' o'); by right).
      by eapply Hdisj.
    + destruct (Hu2 pid π o HT) as (self & so & Hs & Hso & Hs').
      { intros π' o' HT'. apply (Hu π' o'). by right. }
      exists self, so. split; [|done].
      rewrite <- Hf1; [done|]. intros π' o' HT'.
      assert (π' = π) as -> by (apply (Hu π' o'); by left).
      by eapply Hdisj.
Qed.

Lemma overridden_under k T σ σ' :
  overridden T σ σ' →
  overridden (λ π pid o, ∃ rest, π = k :: rest ∧ T rest pid o) σ σ'.
Proof.
  intros [Hframe Huniq]. split.
  - intros pid Hno. apply Hframe. intros π o HT. apply (Hno (k :: π) o). by exists π.
  - intros pid π o (rest & -> & HT) Hu. apply (Huniq pid rest o HT).
    intros π' o' HT'. assert (k :: π' = k :: rest) as [= ->]; [|done].
    apply (Hu (k :: π') o'). by exists π'.
Qed.

Lemma vsize_lookup m k x : m !! k = Some x → vsize x < vsize (VDict m).
Proof.
  cbn [vsize]. intros Hk. apply Nat.lt_succ_r. revert k x Hk.
  set (P := λ (r : nat) (m : gmap string value),
              ∀ k x, m !! k = Some x → vsize x ≤ r).
  change (P (map_fold (λ _ x n, vsize x + n) 0 m) m).
  apply map_fold_weak_ind; unfold P; clear P.
  - intros k x. by rewrite lookup_empty.
  - intros i y m' r Hi IH k x. destruct (decide (i = k)) as [->|Hne].
    + rewrite lookup_insert_eq. intros [= ->]. lia.
    + rewrite lookup_insert_ne by done. intros Hk. specialize (IH k x Hk). lia.
Qed.

(** Induction on a value, with the property known of the items of a
    dictionary. *)
Lemma value_items_ind (P : value → Prop) :
  (∀ v, (∀ m k x, v = VDict m → m !! k = Some x → P x) → P v) →
  ∀ v, P v.
Proof.
  intros Hstep v. remember (vsize v) as n eqn:Hn. revert v Hn.
  induction n as [n IH] using lt_wf_ind. intros v ->.
  apply Hstep. intros m k x -> Hk. apply (IH (vsize x)); [|done].
  by eapply vsize_lookup.
Qed.

Lemma reaches_proc o pid π pid' o' :
  reaches (VDict o) (PProc pid) π pid' o' ↔ π = [] ∧ pid' = pid ∧ o' = o.
Proof.
  unfold reaches. destruct π as [|k rest]; cbn [proc_at get_in].
  - split; [intros [[= ->] [= ->]]; done | intros (_ & -> & ->); done].
  - split; [intros [? _]; done | intros [? _]; done].
Qed.

Lemma reaches_empty procs π pid o :
  ¬ reaches (VDict ∅) (PDict procs) π pid o.
Proof.
  unfold reaches. destruct π as [|k rest]; cbn [proc_at get_in].
  - by intros [? _].
  - rewrite lookup_empty. by intros [_ ?].
Qed.

Lemma reaches_insert m procs i x p π pid o :
  m !! i = None → procs !! i = Some p →
  reaches (VDict (<[i:=x]> m)) (PDict procs) π pid o
  ↔ reaches (VDict m) (PDict procs) π pid o
    ∨ ∃ rest, π = i :: rest ∧ reaches x p rest pid o.
Proof.
  intros Hi Hp. unfold reaches. destruct π as [|j rest]; cbn [proc_at get_in].
  - split; [by intros [? _] | intros [[? _]|(? & ? & _)]; done].
  - destruct (decide (i = j)) as [<-|Hne].
    + rewrite lookup_insert_eq, Hi, Hp. cbn [mbind option_bind]. split.
      * intros H. right. by exists rest.
      * intros [[_ ?]|(rest' & [= <-] & H)]; done.
    + rewrite lookup_insert_ne by done. split.
      * intros H. by left.
      * intros [H|(rest' & [= ? ?] & _)]; done.
Qed.

Lemma override_at_sound (D : gset nat) : ∀ override p σ,
  aligned D override p → dom σ = D → store_dicts σ →
  ∃ σ', override_at override p σ = Ok σ'
        ∧ dom σ' = D ∧ store_dicts σ'
        ∧ overridden (reaches override p) σ σ'.
Proof.
  intros override. induction override as [override IH] using value_items_ind.
  intros p σ Hal Hdom Hdicts. destruct Hal as [o pid Hpid | ov procs Hkeys].
  - (* a schema facing a process *)
    rewrite <- Hdom in Hpid. apply elem_of_dom in Hpid as [self Hself].
    pose proof (Hdicts pid self Hself) as Hso.
    destruct (Process.schema_override self) as [| |so] eqn:Hso'; try done.
    cbn [override_at]. rewrite Hself. unfold Process.merge_overrides.
    rewrite Hso'. cbn [Process.deep_merge_values rbind].
    eexists. split; [done|]. split; [|split; [|split]].
    + rewrite <- Hdom. apply dom_insert_lookup_L. by eexists.
    + intros pid' self'. destruct (decide (pid = pid')) as [<-|Hne].
      * rewrite lookup_insert_eq. by intros [= <-].
      * rewrite lookup_insert_ne by done. apply Hdicts.
    + intros pid' Hno. rewrite lookup_insert_ne; [done|].
      intros <-. apply (Hno [] o). by apply reaches_proc.
    + intros pid' π o' (-> & -> & ->)%reaches_proc _.
      exists self, so. split; [done|]. split; [done|]. by rewrite lookup_insert_eq.
  - (* a dictionary of overrides facing a dictionary of processes *)
    cbn [override_at]. rewrite override_schemas_unfold.
    set (P := λ (r : result (gmap nat Process.t)) (m : gmap string value),
      (∀ k x, m !! k = Some x → ov !! k = Some x) →
      ∃ σ', r = Ok σ' ∧ dom σ' = D ∧ store_dicts σ'
            ∧ overridden (reaches (VDict m) (PDict procs)) σ σ').
    enough (P (map_fold (override_step procs) (Ok σ) ov) ov) as HP
      by (by apply HP).
    apply map_fold_weak_ind; unfold P; clear P.
    + intros _. exists σ. split; [done|]. split; [done|]. split; [done|].
      eapply overridden_proper; [|apply overridden_nothing].
      intros π pid o. split; [done|]. apply reaches_empty.
    + intros i x m r Hi IHm Hsub.
      destruct IHm as (σ1 & -> & Hdom1 & Hdicts1 & Hov1).
      { intros k y Hk. apply Hsub. rewrite lookup_insert_ne; [done|]. congruence. }
      assert (ov !! i = Some x) as Hx by (apply Hsub; apply lookup_insert_eq).
      destruct (Hkeys i x Hx) as (p & Hp & Hal).
      destruct (IH ov i x eq_refl Hx p σ1 Hal Hdom1 Hdicts1)
        as (σ2 & Hrun & Hdom2 & Hdicts2 & Hov2).
      exists σ2. unfold override_step. cbn [rbind]. rewrite Hp.
      split; [done|]. split; [done|]. split; [done|].
      eapply overridden_proper.
      { intros π pid o. symmetry. by apply reaches_insert. }
      apply (overridden_seq _ _ σ σ1 σ2); [|done|by apply overridden_under].
      intros π pid pid' o o' [_ Hget] (rest & -> & _).
      cbn [get_in] in Hget. by rewrite Hi in Hget.
Qed.

(** On a store in which every process has attributes of its own, and
    overrides and processes with the same key structure:
    [_override_schemas] returns; a process no override is keyed to is
    as it was; and a process to which one override is keyed (the same key
    path leads to the process and to the override) ends with that
    override, the one found at the end of the path and not one of a
    dictionary above it, deep-merged into its schema-override set, its
    other attributes unchanged.  The store has the same processes before
    and after. *)
Lemma override_schemas_unshared (overrides : gmap string value)
    (processes : gmap string ptree) (σ : gmap nat Process.t) :
  aligned (dom σ) (VDict overrides) (PDict processes) →
  store_dicts σ →
  ∃ σ', _override_schemas (VDict overrides) processes σ = Ok σ'
    ∧ (∀ path pid o,
         reaches (VDict overrides) (PDict processes) path pid o →
         (∀ path' o', reaches (VDict overrides) (PDict processes) path' pid o' →
                      path' = path) →
         merged_into σ σ' pid o)
    ∧ (∀ pid,
         (∀ path o, ¬ reaches (VDict overrides) (PDict processes) path pid o) →
         σ' !! pid = σ !! pid)
    ∧ dom σ' = dom σ.
Proof.
  intros Hal Hdicts.
  destruct (override_at_sound (dom σ) (VDict overrides) (PDict processes) σ
              Hal eq_refl Hdicts) as (σ' & Hrun & Hdom & _ & Hframe & Huniq).
  exists σ'. split; [exact Hrun|]. split; [|split; [|exact Hdom]].
  - intros path pid o Hr Hu. by apply (Huniq pid path o).
  - exact Hframe.
Qed.

Lemma agents_aligned :
  aligned (dom agents_store) (VDict agents_overrides) (PDict agents_processes).
Proof.
  unfold agents_overrides, agents_processes, agents_store.
  apply aligned_dict. intros key override [<- <-]%lookup_singleton_Some.
  eexists. split; [apply lookup_singleton_eq|].
  apply aligned_dict. intros key override [<- <-]%lookup_singleton_Some.
  eexists. split; [apply lookup_singleton_eq|].
  apply aligned_proc. rewrite dom_singleton_L. by apply elem_of_singleton.
Qed.

Lemma agents_store_dicts : store_dicts agents_store.
Proof.
  unfold agents_store. intros pid self [<- <-]%lookup_singleton_Some.
  reflexivity.
Qed.

(** The override merged into the process is the schema found under
    [agents/a1], not the dictionary keyed to [agents]. *)
Example override_schemas_agents :
  (σ' ←! _override_schemas (VDict agents_overrides) agents_processes agents_store;
   Ok (Process.schema_override <$> σ' !! 0))
  = Ok (Some (VDict {[ "port" := VDict
                {[ "x" := VDict {[ "_default" := VInt 1 ]} ]} ]})).
Proof. vm_compute. reflexivity. Qed.

(** A key of the overrides that the processes do not have is a KeyError:
    so it is with the overrides of a single process, keyed by port, against
    the dictionary [generate_processes] returns for it, keyed by its name. *)
Example override_schemas_missing_key :
  _override_schemas (VDict {[ "port" := VDict ∅ ]})
    {[ "Bare" := PProc 0 ]} agents_store
  = Raise (KeyError "port").
Proof. vm_compute. reflexivity. Qed.

(** ** Schema overrides pushed down, on dictionaries that are shared *)

Lemma narrows_refl h : Shared.narrows h h.
Proof. split; [done|]. intros l d k l' Hl Hk. by exists d. Qed.

Lemma narrows_trans h1 h2 h3 :
  Shared.narrows h1 h2 → Shared.narrows h2 h3 → Shared.narrows h1 h3.
Proof.
  intros [Hd12 H12] [Hd23 H23]. split; [congruence|].
  intros l d3 k l' Hl Hk. destruct (H23 l d3 k l' Hl Hk) as (d2 & Hl2 & Hk2).
  by apply (H12 l d2 k l').
Qed.

Lemma narrows_holds h h' l l' :
  Shared.narrows h h' → Shared.holds h' l l' → Shared.holds h l l'.
Proof.
  intros [_ Hn] (d' & k & Hl & Hk). destruct (Hn l d' k l' Hl Hk) as (d & ? & ?).
  by exists d, k.
Qed.

Lemma narrows_reach h h' l l' :
  Shared.narrows h h' → Shared.reach h' l l' → Shared.reach h l l'.
Proof.
  intros Hn Hr. induction Hr as [l|l l1 l' Hh _ IH]; [done|].
  eapply rtc_l; [|exact IH]. by eapply narrows_holds.
Qed.

Lemma narrows_closed h h' :
  Shared.closed h → Shared.narrows h h' → Shared.closed h'.
Proof.
  intros Hc [Hdom Hn] l d' k l' Hl Hk.
  destruct (Hn l d' k l' Hl Hk) as (d & Hld & Hkd).
  apply elem_of_dom. rewrite Hdom. apply elem_of_dom. by eapply Hc.
Qed.

Lemma narrows_write h l d k v :
  h !! l = Some d → Shared.narrows h (<[l := <[k := Shared.OVal v]> d]> h).
Proof.
  intros Hl. split.
  - apply dom_insert_lookup_L. by eexists.
  - intros l1 d1 k1 l2. destruct (decide (l = l1)) as [<-|Hne].
    + rewrite lookup_insert_eq. intros [= <-].
      destruct (decide (k = k1)) as [<-|Hk]; [by rewrite lookup_insert_eq|].
      rewrite lookup_insert_ne by done. intros Hk1. by exists d.
    + rewrite lookup_insert_ne by done. intros Hl1 Hk1. by exists d1.
Qed.

Lemma shared_deep_merge_unfold h l m :
  Shared.deep_merge h l (VDict m)
  = map_fold (λ k v acc,
        h ←! acc;
        match h !! l with
        | Some d =>
            match d !! k with
            | Some (Shared.ORef dl) =>
                match v with
                | VDict _ => Shared.deep_merge h dl v
                | _ => Ok (<[l := <[k := Shared.OVal v]> d]> h)
                end
            | Some (Shared.OVal old) =>
                Ok (<[l := <[k := Shared.OVal (merge_value (Some old) v)]> d]> h)
            | _ => Ok (<[l := <[k := Shared.OVal v]> d]> h)
            end
        | None => Raise AttributeError
        end) (Ok h) m.
Proof. reflexivity. Qed.

(** An in-place merge changes only dictionary objects that the one merged
    into reaches, and gives no object a reference it did not hold. *)
Lemma shared_deep_merge_frame : ∀ b h l h',
  Shared.deep_merge h l b = Ok h' →
  Shared.narrows h h'
  ∧ ∀ l', ¬ Shared.reach h l l' → h' !! l' = h !! l'.
Proof.
  intros b. induction b as [b IH] using value_items_ind.
  intros h l h'. destruct b as [a|items|m].
  - destruct a; try done. intros [= <-]. split; [apply narrows_refl|done].
  - done.
  - rewrite shared_deep_merge_unfold.
    match goal with
    | |- map_fold ?f _ _ = _ → _ => set (body := f)
    end.
    set (Q := λ (r : result Shared.heap) (m' : gmap string value),
      (∀ k x, m' !! k = Some x → m !! k = Some x) →
      ∀ h1, r = Ok h1 →
        Shared.narrows h h1
        ∧ ∀ l', ¬ Shared.reach h l l' → h1 !! l' = h !! l').
    enough (Q (map_fold body (Ok h) m) m) as HQ by (by apply HQ).
    apply map_fold_weak_ind; unfold Q; clear Q.
    + intros _ h1 [= <-]. split; [apply narrows_refl|done].
    + intros i x m' r Hi IHm Hsub h2. unfold body at 1.
      destruct r as [e|h1]; [done|]. cbn [rbind].
      destruct IHm with h1 as [Hn1 Hf1]; [|done|].
      { intros k y Hk. apply Hsub. rewrite lookup_insert_ne; [done|]. congruence. }
      destruct (h1 !! l) as [d|] eqn:Hl; [|done].
      assert (∀ v, (Ok (<[l := <[i := Shared.OVal v]> d]> h1)
                      : result Shared.heap) = Ok h2 →
                Shared.narrows h h2
                ∧ ∀ l', ¬ Shared.reach h l l' → h2 !! l' = h !! l') as Hwrite.
      { intros v [= <-]. split.
        - eapply narrows_trans; [exact Hn1|]. by apply narrows_write.
        - intros l' Hl'. rewrite lookup_insert_ne; [by apply Hf1|].
          intros <-. by apply Hl'. }
      destruct (d !! i) as [[dl|items|old]|] eqn:Hdi; try by apply Hwrite.
      destruct x as [a|items|y]; try by apply Hwrite.
      intros Hrec.
      destruct (IH m i (VDict y) eq_refl (Hsub i _ (lookup_insert_eq _ _ _))
                  h1 dl h2 Hrec) as [Hn2 Hf2].
      split; [by eapply narrows_trans|].
      intros l' Hl'. rewrite Hf2; [by apply Hf1|].
      intros Hr. apply Hl'. eapply rtc_l.
      * eapply narrows_holds; [exact Hn1|]. by exists d, i.
      * by eapply narrows_reach.
Qed.

(** On a heap without references to nothing, an in-place merge of a
    dictionary returns. *)
Lemma shared_deep_merge_returns : ∀ b h l,
  Shared.closed h → is_Some (h !! l) → b = VNone ∨ is_dict b = true →
  ∃ h', Shared.deep_merge h l b = Ok h'.
Proof.
  intros b. induction b as [b IH] using value_items_ind.
  intros h l Hc Hl Hb. destruct b as [a|items|m].
  - destruct Hb as [[= ->]|?]; [by eexists|done].
  - by destruct Hb.
  - rewrite shared_deep_merge_unfold.
    match goal with
    | |- ∃ _, map_fold ?f _ _ = _ => set (body := f)
    end.
    set (Q := λ (r : result Shared.heap) (m' : gmap string value),
      (∀ k x, m' !! k = Some x → m !! k = Some x) →
      ∃ h1, r = Ok h1 ∧ Shared.narrows h h1).
    enough (Q (map_fold body (Ok h) m) m) as HQ.
    { destruct HQ as (h1 & ? & _); [done|]. by exists h1. }
    apply map_fold_weak_ind; unfold Q; clear Q.
    + intros _. exists h. split; [done|apply narrows_refl].
    + intros i x m' r Hi IHm Hsub.
      destruct IHm as (h1 & -> & Hn1).
      { intros k y Hk. apply Hsub. rewrite lookup_insert_ne; [done|]. congruence. }
      unfold body at 1. cbn [rbind].
      assert (is_Some (h1 !! l)) as [d Hd].
      { apply elem_of_dom. rewrite (proj1 Hn1). by apply elem_of_dom. }
      rewrite Hd.
      assert (∀ v, ∃ h2, (Ok (<[l := <[i := Shared.OVal v]> d]> h1)
                            : result Shared.heap) = Ok h2
                         ∧ Shared.narrows h h2) as Hwrite.
      { intros v. eexists. split; [done|].
        eapply narrows_trans; [exact Hn1|]. by apply narrows_write. }
      destruct (d !! i) as [[dl|items|old]|] eqn:Hdi; try by apply Hwrite.
      destruct x as [a|items|y]; try by apply Hwrite.
      destruct (IH m i (VDict y) eq_refl (Hsub i _ (lookup_insert_eq _ _ _))
                  h1 dl) as [h2 Hrec].
      * by eapply narrows_closed.
      * by eapply (narrows_closed h h1 Hc Hn1 l d i dl).
      * by right.
      * exists h2. split; [done|]. eapply narrows_trans; [exact Hn1|].
        by apply (shared_deep_merge_frame (VDict y) h1 dl h2).
Qed.

(** Merged into a dictionary object that holds values only, a dictionary
    leaves the object holding the deep merge of the two, and the other
    objects as they were. *)
Lemma shared_deep_merge_flat h l (a b : gmap string value) :
  h !! l = Some (Shared.OVal <$> a) →
  Shared.deep_merge h l (VDict b)
  = Ok (<[l := Shared.OVal <$> deep_merge a b]> h).
Proof.
  intros Hl. rewrite shared_deep_merge_unfold. unfold deep_merge.
  induction b as [|i x b Hi Hfirst IH] using map_first_key_ind.
  - rewrite !map_fold_empty. f_equal. by rewrite insert_id.
  - rewrite !map_fold_insert_first_key by done. rewrite IH. cbn [rbind].
    rewrite lookup_insert_eq, lookup_fmap.
    set (acc := map_fold (λ k v acc, <[k := merge_value (acc !! k) v]> acc) a b).
    destruct (acc !! i) as [old|] eqn:Hold; cbn [fmap option_fmap option_map].
    + by rewrite insert_insert_eq, fmap_insert.
    + rewrite insert_insert_eq, fmap_insert. do 3 f_equal. by destruct x.
Qed.

Lemma only_sets_change_refl s : Shared.only_sets_change s s.
Proof.
  split; [apply narrows_refl|]. split; [|done].
  intros pid. destruct (Shared.objects s !! pid); [|done].
  repeat split; try done. by left.
Qed.

Lemma set_at_back s s' pid l :
  Shared.only_sets_change s s' → Shared.set_at s' pid l → Shared.set_at s pid l.
Proof.
  intros (_ & Hattrs & _) (self' & Hself' & Hso'). specialize (Hattrs pid).
  rewrite Hself' in Hattrs.
  destruct (Shared.objects s !! pid) as [self|] eqn:Hself; [|done].
  destruct Hattrs as (_ & _ & _ & _ & [Heq|(v & v' & _ & Hv')]).
  - exists self. split; [done|]. congruence.
  - congruence.
Qed.

Lemma only_sets_change_trans s1 s2 s3 :
  Shared.only_sets_change s1 s2 → Shared.only_sets_change s2 s3 →
  Shared.only_sets_change s1 s3.
Proof.
  intros H12 H23.
  pose proof H12 as (Hn12 & Ha12 & Hf12). pose proof H23 as (Hn23 & Ha23 & Hf23).
  split; [by eapply narrows_trans|]. split.
  - intros pid. specialize (Ha12 pid). specialize (Ha23 pid).
    destruct (Shared.objects s1 !! pid) as [a|],
             (Shared.objects s2 !! pid) as [b|],
             (Shared.objects s3 !! pid) as [c|]; try done.
    destruct Ha12 as (? & ? & ? & ? & Hso12), Ha23 as (? & ? & ? & ? & Hso23).
    split; [congruence|]. split; [congruence|]. split; [congruence|].
    split; [congruence|].
    destruct Hso12 as [Hso12|(v & v' & Hv & Hv')],
             Hso23 as [Hso23|(w & w' & Hw & Hw')].
    + left. congruence.
    + right. exists w, w'. split; congruence.
    + right. exists v, v'. split; congruence.
    + right. exists v, w'. split; congruence.
  - intros l' Hl'. rewrite Hf23; [by apply Hf12|].
    intros pid l Hset Hr. apply (Hl' pid l).
    + by eapply set_at_back.
    + by eapply narrows_reach.
Qed.

Lemma merge_overrides_only_sets pid override s s' :
  Shared.merge_overrides pid override s = Ok s' → Shared.only_sets_change s s'.
Proof.
  unfold Shared.merge_overrides.
  destruct (Shared.objects s !! pid) as [self|] eqn:Hself; [|done].
  destruct (Shared.schema_override self) as [l|items|so] eqn:Hso; [|done|].
  - destruct (Shared.deep_merge (Shared.heap_of s) l override) as [e|h] eqn:Hm;
      [done|].
    cbn [rbind]. intros [= <-].
    destruct (shared_deep_merge_frame _ _ _ _ Hm) as [Hn Hf].
    split; [done|]. split.
    + intros pid'. cbn [Shared.objects].
      destruct (Shared.objects s !! pid'); [|done]. repeat split; try done. by left.
    + intros l' Hl'. cbn [Shared.heap_of]. apply Hf. apply (Hl' pid l).
      by exists self.
  - destruct (Process.deep_merge_values so override) as [e|merged]; [done|].
    cbn [rbind]. intros [= <-].
    split; [apply narrows_refl|]. split; [|done].
    intros pid'. cbn [Shared.objects].
    destruct (decide (pid = pid')) as [<-|Hne].
    + rewrite Hself, lookup_insert_eq. repeat split; try done.
      right. by exists so, merged.
    + rewrite lookup_insert_ne by done.
      destruct (Shared.objects s !! pid'); [|done]. repeat split; try done. by left.
Qed.

Lemma merges_nil s : Shared.merges [] s = Ok s.
Proof. reflexivity. Qed.

Lemma merges_raise (calls : list (list string * nat * gmap string value))
    (e : exn) :
  fold_left (λ acc call, s ←! acc;
               Shared.merge_overrides call.1.2 (VDict call.2) s)
    calls (Raise e)
  = Raise e.
Proof. induction calls as [|c calls IH]; [done|]. cbn. apply IH. Qed.

Lemma merges_cons call calls s :
  Shared.merges (call :: calls) s
  = (s ←! Shared.merge_overrides call.1.2 (VDict call.2) s;
     Shared.merges calls s).
Proof.
  unfold Shared.merges. cbn [fold_left rbind].
  destruct (Shared.merge_overrides _ _ s) as [e|s1]; [|done].
  cbn [rbind]. apply merges_raise.
Qed.

Lemma merges_app calls1 calls2 s :
  Shared.merges (calls1 ++ calls2) s
  = (s ←! Shared.merges calls1 s; Shared.merges calls2 s).
Proof.
  revert s. induction calls1 as [|c calls1 IH]; intros s; [done|].
  rewrite <- app_comm_cons, !merges_cons.
  destruct (Shared.merge_overrides _ _ s) as [e|s1]; [done|].
  cbn [rbind]. apply IH.
Qed.

Lemma merges_only_sets calls : ∀ s s',
  Shared.merges calls s = Ok s' → Shared.only_sets_change s s'.
Proof.
  induction calls as [|c calls IH]; intros s s'.
  - intros [= <-]. apply only_sets_change_refl.
  - rewrite merges_cons.
    destruct (Shared.merge_overrides _ _ s) as [e|s1] eqn:H1; [done|].
    cbn [rbind]. intros H2. eapply only_sets_change_trans.
    + by eapply merge_overrides_only_sets.
    + by apply IH.
Qed.

Lemma merge_overrides_returns pid (o : gmap string value) s :
  Shared.closed (Shared.heap_of s) → Shared.sets_ok s →
  is_Some (Shared.objects s !! pid) →
  ∃ s', Shared.merge_overrides pid (VDict o) s = Ok s'
        ∧ Shared.closed (Shared.heap_of s') ∧ Shared.sets_ok s'
        ∧ dom (Shared.objects s') = dom (Shared.objects s).
Proof.
  intros Hc Hsets [self Hself]. unfold Shared.merge_overrides. rewrite Hself.
  pose proof (Hsets pid self Hself) as Hset.
  destruct (Shared.schema_override self) as [l|items|so] eqn:Hso; [|done|].
  - destruct (shared_deep_merge_returns (VDict o) (Shared.heap_of s) l Hc Hset)
      as [h Hm]; [by right|].
    rewrite Hm. cbn [rbind]. eexists. split; [done|].
    destruct (shared_deep_merge_frame _ _ _ _ Hm) as [Hn _].
    cbn [Shared.heap_of Shared.objects]. split; [by eapply narrows_closed|].
    split; [|done].
    intros pid' self' Hself'. specialize (Hsets pid' self' Hself').
    cbn [Shared.heap_of Shared.objects] in *.
    destruct (Shared.schema_override self') as [l'|?|?]; try done.
    apply elem_of_dom. rewrite (proj1 Hn). by apply elem_of_dom.
  - destruct so as [a|items|so]; try done. cbn [Process.deep_merge_values rbind].
    eexists. split; [done|].
    unfold Shared.sets_ok. cbn [Shared.heap_of Shared.objects].
    split; [done|]. split.
    + intros pid' self'. destruct (decide (pid = pid')) as [<-|Hne].
      * rewrite lookup_insert_eq. by intros [= <-].
      * rewrite lookup_insert_ne by done. apply Hsets.
    + apply dom_insert_lookup_L. by eexists.
Qed.

Lemma merges_returns calls : ∀ s,
  Shared.closed (Shared.heap_of s) → Shared.sets_ok s →
  (∀ call, call ∈ calls → call.1.2 ∈ dom (Shared.objects s)) →
  ∃ s', Shared.merges calls s = Ok s'
        ∧ Shared.closed (Shared.heap_of s') ∧ Shared.sets_ok s'
        ∧ dom (Shared.objects s') = dom (Shared.objects s).
Proof.
  induction calls as [|c calls IH]; intros s Hc Hsets Hpids.
  - by exists s.
  - rewrite merges_cons.
    destruct (merge_overrides_returns c.1.2 c.2 s Hc Hsets)
      as (s1 & -> & Hc1 & Hsets1 & Hdom1).
    { apply elem_of_dom, Hpids. by left. }
    cbn [rbind]. destruct (IH s1 Hc1 Hsets1) as (s' & Hs' & ? & ? & Hdom').
    { intros call Hcall. rewrite Hdom1. apply Hpids. by right. }
    exists s'. split; [done|]. split; [done|]. split; [done|]. congruence.
Qed.

Lemma merge_overrides_other pid override s s' pid' :
  Shared.merge_overrides pid override s = Ok s' → pid' ≠ pid →
  Shared.objects s' !! pid' = Shared.objects s !! pid'.
Proof.
  unfold Shared.merge_overrides.
  destruct (Shared.objects s !! pid) as [self|]; [|done].
  destruct (Shared.schema_override self) as [l|items|so]; [|done|].
  - destruct (Shared.deep_merge _ l override); [done|]. by intros [= <-].
  - destruct (Process.deep_merge_values so override); [done|].
    cbn [rbind]. intros [= <-] Hne. cbn [Shared.objects].
    by rewrite lookup_insert_ne.
Qed.

Lemma merges_other calls pid : ∀ s s',
  Shared.merges calls s = Ok s' →
  (∀ call, call ∈ calls → call.1.2 ≠ pid) →
  Shared.objects s' !! pid = Shared.objects s !! pid.
Proof.
  induction calls as [|c calls IH]; intros s s'.
  - by intros [= <-].
  - rewrite merges_cons.
    destruct (Shared.merge_overrides _ _ s) as [e|s1] eqn:H1; [done|].
    cbn [rbind]. intros H2 Hne. rewrite (IH s1 s' H2).
    + eapply merge_overrides_other; [done|]. intros ->. by apply (Hne c); [left|].
    + intros call Hcall. apply Hne. by right.
Qed.

Lemma shared_override_schemas_unfold ov processes s :
  Shared._override_schemas (VDict ov) processes s
  = map_fold (λ key override acc,
        s ←! acc;
        match processes !! key with
        | None => Raise (KeyError key)
        | Some process => Shared.override_at override process s
        end) (Ok s) ov.
Proof. reflexivity. Qed.

Lemma merges_under key calls s :
  Shared.merges ((λ call, (key :: call.1.1, call.1.2, call.2)) <$> calls) s
  = Shared.merges calls s.
Proof.
  revert s. induction calls as [|c calls IH]; intros s; [done|].
  rewrite fmap_cons, !merges_cons. cbn [fst snd].
  destruct (Shared.merge_overrides _ _ s) as [e|s1]; [done|]. apply IH.
Qed.

Lemma reaches_dict_path m procs path pid o :
  reaches (VDict m) (PDict procs) path pid o →
  ∃ k rest, path = k :: rest ∧ is_Some (m !! k).
Proof.
  unfold reaches. destruct path as [|k rest]; cbn [proc_at get_in].
  - by intros [? _].
  - intros [_ Hget]. exists k, rest. split; [done|].
    destruct (m !! k); [by eexists|done].
Qed.

(** The walk is the merges at the leaves: for overrides and processes of
    the same key structure, what [_override_schemas] does to a store is what
    the merges of the overrides keyed to a process do, one after the other,
    each override merged once, into the process the same key path leads
    to. *)
Lemma override_at_calls (D : gset nat) : ∀ override p,
  aligned D override p →
  ∃ calls,
    NoDup calls
    ∧ (∀ path pid o, (path, pid, o) ∈ calls ↔ reaches override p path pid o)
    ∧ (∀ call, call ∈ calls → call.1.2 ∈ D)
    ∧ ∀ s, Shared.override_at override p s = Shared.merges calls s.
Proof.
  intros override. induction override as [override IH] using value_items_ind.
  intros p Hal. destruct Hal as [o pid Hpid | ov procs Hkeys].
  - exists [([], pid, o)]. split; [apply NoDup_singleton|]. split; [|split].
    + intros path pid' o'. rewrite list_elem_of_singleton, reaches_proc.
      split; [by intros [= -> -> ->]|by intros (-> & -> & ->)].
    + by intros call ->%list_elem_of_singleton.
    + intros s. rewrite merges_cons. cbn [Shared.override_at fst snd].
      by destruct (Shared.merge_overrides pid (VDict o) s).
  - cbn [Shared.override_at].
    enough (∀ m, (∀ k x, m !! k = Some x → ov !! k = Some x) →
      ∃ calls,
        NoDup calls
        ∧ (∀ path pid o,
             (path, pid, o) ∈ calls ↔ reaches (VDict m) (PDict procs) path pid o)
        ∧ (∀ call, call ∈ calls → call.1.2 ∈ D)
        ∧ ∀ s, Shared._override_schemas (VDict m) procs s = Shared.merges calls s)
      as Hall by (by apply Hall).
    intros m. induction m as [|i x m Hi Hfirst IHm] using map_first_key_ind;
      intros Hsub.
    + exists []. split; [constructor|]. split; [|split].
      * intros path pid o. split; [by intros ?%elem_of_nil|].
        by intros ?%reaches_empty.
      * by intros call ?%elem_of_nil.
      * intros s. by rewrite shared_override_schemas_unfold, map_fold_empty.
    + destruct IHm as (calls_m & Hnd_m & Hin_m & HD_m & Heq_m).
      { intros k y Hk. apply Hsub. rewrite lookup_insert_ne; [done|]. congruence. }
      assert (ov !! i = Some x) as Hx by (apply Hsub, lookup_insert_eq).
      destruct (Hkeys i x Hx) as (p & Hp & Hal).
      destruct (IH ov i x eq_refl Hx p Hal) as (calls_x & Hnd_x & Hin_x & HD_x & Heq_x).
      exists (calls_m ++ ((λ call, (i :: call.1.1, call.1.2, call.2)) <$> calls_x)).
      split; [|split; [|split]].
      * apply NoDup_app. split; [done|]. split.
        -- intros [[path pid] o] Hc_m
             ([[path' pid'] o'] & [= -> -> ->] & _)%list_elem_of_fmap.
           apply Hin_m, reaches_dict_path in Hc_m as (k & rest & [= <- _] & Hk).
           rewrite Hi in Hk. by destruct Hk.
        -- apply NoDup_fmap_2; [|done].
           intros [[p1 q1] o1] [[p2 q2] o2]. cbn [fst snd]. by intros [= -> -> ->].
      * intros path pid o. rewrite elem_of_app, list_elem_of_fmap.
        rewrite (reaches_insert m procs i x p) by done. rewrite Hin_m.
        split.
        -- intros [?|([[path' pid'] o'] & [= -> -> ->] & Hc)]; [by left|].
           right. exists path'. split; [done|]. by apply Hin_x.
        -- intros [?|(rest & -> & Hr)]; [by left|].
           right. exists (rest, pid, o). split; [done|]. by apply Hin_x.
      * intros call [?|([[path' pid'] o'] & -> & Hc)%list_elem_of_fmap]%elem_of_app.
        -- by apply HD_m.
        -- by apply (HD_x _ Hc).
      * intros s. rewrite shared_override_schemas_unfold.
        rewrite map_fold_insert_first_key by done.
        rewrite <- shared_override_schemas_unfold, Heq_m.
        rewrite merges_app, Hp.
        destruct (Shared.merges calls_m s) as [e|s1]; [done|]. cbn [rbind].
        by rewrite merges_under.
Qed.

Lemma merge_overrides_owned pid self (so o : gmap string value) s :
  Shared.objects s !! pid = Some self →
  Shared.schema_override self = Shared.OVal (VDict so) →
  Shared.merge_overrides pid (VDict o) s
  = Ok {| Shared.heap_of := Shared.heap_of s;
          Shared.objects :=
            <[pid := Shared.with_schema_override self
                       (Shared.OVal (VDict (deep_merge so o)))]>
              (Shared.objects s) |}.
Proof. intros Hself Hso. unfold Shared.merge_overrides. by rewrite Hself, Hso. Qed.

Lemma merge_overrides_flat pid l (a o : gmap string value) s :
  Shared.set_at s pid l →
  Shared.heap_of s !! l = Some (Shared.OVal <$> a) →
  Shared.merge_overrides pid (VDict o) s
  = Ok {| Shared.heap_of :=
            <[l := Shared.OVal <$> deep_merge a o]> (Shared.heap_of s);
          Shared.objects := Shared.objects s |}.
Proof.
  intros (self & Hself & Hso) Hl. unfold Shared.merge_overrides.
  rewrite Hself, Hso. by rewrite (shared_deep_merge_flat _ _ a).
Qed.

Lemma merge_overrides_flat_sets pid (o : gmap string value) s s' :
  Shared.flat_sets s →
  Shared.merge_overrides pid (VDict o) s = Ok s' →
  Shared.flat_sets s'
  ∧ (∀ pid' l, Shared.set_at s' pid' l ↔ Shared.set_at s pid' l)
  ∧ ∀ l, ¬ Shared.set_at s pid l →
         Shared.heap_of s' !! l = Shared.heap_of s !! l.
Proof.
  intros Hflat Hm.
  destruct (Shared.objects s !! pid) as [self|] eqn:Hself.
  2:{ unfold Shared.merge_overrides in Hm. by rewrite Hself in Hm. }
  destruct (Shared.schema_override self) as [l0|items|so] eqn:Hso.
  - assert (Shared.set_at s pid l0) as Hset by (by exists self).
    destruct (Hflat pid l0 Hset) as [a Ha].
    rewrite (merge_overrides_flat pid l0 a o s Hset Ha) in Hm.
    injection Hm as <-. split; [|split].
    + intros pid' l Hset'. cbn [Shared.heap_of].
      destruct (decide (l0 = l)) as [<-|Hne].
      * rewrite lookup_insert_eq. by eexists.
      * rewrite lookup_insert_ne by done. by apply (Hflat pid').
    + done.
    + intros l Hl. cbn [Shared.heap_of]. rewrite lookup_insert_ne; [done|].
      by intros <-.
  - unfold Shared.merge_overrides in Hm. by rewrite Hself, Hso in Hm.
  - unfold Shared.merge_overrides in Hm. rewrite Hself, Hso in Hm.
    destruct (Process.deep_merge_values so (VDict o)) as [e|merged]; [done|].
    injection Hm as <-.
    assert (∀ pid' l,
      Shared.set_at
        {| Shared.heap_of := Shared.heap_of s;
           Shared.objects :=
             <[pid := Shared.with_schema_override self (Shared.OVal merged)]>
               (Shared.objects s) |} pid' l
      ↔ Shared.set_at s pid' l) as Hsets.
    { intros pid' l. unfold Shared.set_at. cbn [Shared.objects].
      destruct (decide (pid = pid')) as [<-|Hne].
      - rewrite lookup_insert_eq, Hself. split.
        + by intros (? & [= <-] & ?).
        + intros (? & [= <-] & ?). congruence.
      - by rewrite lookup_insert_ne. }
    split; [|split; [done|done]].
    intros pid' l Hset'. apply Hsets in Hset'. by apply (Hflat pid').
Qed.

Lemma merges_flat_frame l calls : ∀ s s',
  Shared.flat_sets s →
  Shared.merges calls s = Ok s' →
  (∀ call, call ∈ calls → ¬ Shared.set_at s call.1.2 l) →
  Shared.flat_sets s'
  ∧ (∀ pid' l', Shared.set_at s' pid' l' ↔ Shared.set_at s pid' l')
  ∧ Shared.heap_of s' !! l = Shared.heap_of s !! l.
Proof.
  induction calls as [|c calls IH]; intros s s' Hflat.
  - by intros [= <-] _.
  - rewrite merges_cons.
    destruct (Shared.merge_overrides _ _ s) as [e|s1] eqn:H1; [done|].
    cbn [rbind]. intros H2 Hno.
    destruct (merge_overrides_flat_sets _ _ _ _ Hflat H1) as (Hflat1 & Hsets1 & Hf1).
    destruct (IH s1 s' Hflat1 H2) as (Hflat' & Hsets' & Hf').
    { intros call Hcall Hset. apply (Hno call); [by right|]. by apply Hsets1. }
    split; [done|]. split.
    + intros pid' l'. by rewrite Hsets', Hsets1.
    + rewrite Hf'. apply Hf1. apply Hno. by left.
Qed.

Lemma reaches_fun overrides p path pid pid' o o' :
  reaches overrides p path pid o → reaches overrides p path pid' o' →
  pid' = pid ∧ o' = o.
Proof. unfold reaches. intros [H1 H2] [H1' H2']. split; congruence. Qed.


(** Two processes with one schema-override set: the override keyed to the
    first shows in the set of the second, to which none is keyed, merged
    with what the set held. *)
Example override_schemas_siblings :
  Shared._override_schemas (VDict Shared.siblings_overrides)
    Shared.siblings_processes Shared.siblings_store
  = Ok Shared.siblings_after.
Proof. by vm_compute. Qed.

Lemma siblings_aligned :
  aligned (dom (Shared.objects Shared.siblings_store))
    (VDict Shared.siblings_overrides) (PDict Shared.siblings_processes).
Proof.
  assert (∀ pid, pid < 3 →
            pid ∈ dom (Shared.objects Shared.siblings_store)) as Hdom.
  { intros pid Hpid. apply elem_of_dom.
    destruct pid as [|[|[|pid]]]; [by eexists|by eexists|by eexists|lia]. }
  unfold Shared.siblings_overrides, Shared.siblings_processes.
  apply aligned_dict. intros key override.
  intros [[<- <-]|[_ [<- <-]%lookup_singleton_Some]]%lookup_insert_Some.
  - exists (PDict {[ "a1" := PProc 0; "a2" := PProc 1 ]}). split; [done|].
    apply aligned_dict. intros key override [<- <-]%lookup_singleton_Some.
    exists (PProc 0). split; [done|]. apply aligned_proc, Hdom. lia.
  - exists (PProc 2). split; [done|]. apply aligned_proc, Hdom. lia.
Qed.

Lemma siblings_closed : Shared.closed (Shared.heap_of Shared.siblings_store).
Proof.
  intros l d k l'. cbn [Shared.heap_of Shared.siblings_store].
  intros [[<- <-]|[_ [[<- <-]|[_ [<- <-]%lookup_singleton_Some]]%lookup_insert_Some]]%lookup_insert_Some.
  - by intros [_ [=]]%lookup_singleton_Some.
  - intros [[_ [= <-]]|[_ [_ [=]]%lookup_singleton_Some]]%lookup_insert_Some.
    by eexists.
  - by intros [_ [=]]%lookup_singleton_Some.
Qed.

Lemma siblings_sets_ok : Shared.sets_ok Shared.siblings_store.
Proof.
  intros pid self. cbn [Shared.objects Shared.siblings_store].
  intros [[<- <-]|[_ [[<- <-]|[_ [<- <-]%lookup_singleton_Some]]%lookup_insert_Some]]%lookup_insert_Some;
    by cbn.
Qed.


(** The second of the two processes, to which no override is keyed, has
    the attributes it had; its schema-override set is the dictionary
    object it shares with the first, which holds the override of the first
    merged into what it held. *)
Example siblings_second_process :
  Shared.objects Shared.siblings_after !! 1%nat
  = Shared.objects Shared.siblings_store !! 1%nat
  ∧ Shared.set_at Shared.siblings_after 1%nat 1%positive
  ∧ Shared.heap_of Shared.siblings_after !! 1%positive
    = Some (Shared.OVal <$>
              deep_merge
                {[ "port" := VDict {[ "y" := VDict {[ "_default" := VInt 0 ]} ]} ]}
                {[ "port" := VDict {[ "x" := VDict {[ "_default" := VInt 1 ]} ]} ]}).
Proof.
  split; [reflexivity|]. split; [|by vm_compute].
  eexists. split; [reflexivity|]. reflexivity.
Qed.

(** Without sharing the walk on the store is the walk on values: on
    processes whose attributes nothing else holds, [Shared.merge_overrides]
    and [Shared._override_schemas] do what [Process.merge_overrides] and
    [_override_schemas] return. *)
Lemma merge_overrides_unshared σ pid override :
  Shared.merge_overrides pid override (Shared.unshared σ)
  = match σ !! pid with
    | Some process =>
        process ←! Process.merge_overrides process override;
        Ok (Shared.unshared (<[pid := process]> σ))
    | None => Raise AttributeError
    end.
Proof.
  unfold Shared.merge_overrides, Shared.unshared. cbn [Shared.objects Shared.heap_of].
  rewrite lookup_fmap. destruct (σ !! pid) as [self|]; [|done].
  cbn [fmap option_fmap option_map Shared.own Shared.schema_override].
  unfold Process.merge_overrides.
  destruct (Process.deep_merge_values _ override) as [e|merged];
    cbn [rbind]; [done|].
  by rewrite fmap_insert.
Qed.

Lemma override_at_unshared : ∀ override p σ,
  Shared.override_at override p (Shared.unshared σ)
  = (σ' ←! override_at override p σ; Ok (Shared.unshared σ')).
Proof.
  intros override. induction override as [override IH] using value_items_ind.
  intros p σ. destruct p as [pid|procs|]; cbn [Shared.override_at override_at].
  - rewrite merge_overrides_unshared. destruct (σ !! pid) as [self|]; [|done].
    by destruct (Process.merge_overrides self override).
  - destruct override as [a|items|ov]; try done.
    rewrite shared_override_schemas_unfold, override_schemas_unfold.
    enough (∀ m, (∀ k x, m !! k = Some x → ov !! k = Some x) →
      map_fold (λ key override acc,
          s ←! acc;
          match procs !! key with
          | None => Raise (KeyError key)
          | Some process => Shared.override_at override process s
          end) (Ok (Shared.unshared σ)) m
      = (σ' ←! map_fold (override_step procs) (Ok σ) m;
         Ok (Shared.unshared σ'))) as Hall by (by apply Hall).
    intros m. induction m as [|i x m Hi Hfirst IHm] using map_first_key_ind;
      intros Hsub.
    + by rewrite !map_fold_empty.
    + rewrite !map_fold_insert_first_key by done. rewrite IHm.
      2:{ intros k y Hk. apply Hsub. rewrite lookup_insert_ne; [done|]. congruence. }
      generalize (map_fold (override_step procs) (Ok σ) m).
      intros [e|σ1]; unfold override_step; cbn [rbind]; [done|].
      destruct (procs !! i) as [p|]; [|done].
      apply (IH ov i x eq_refl). apply Hsub, lookup_insert_eq.
  - done.
Qed.

Lemma shared_override_at_only_sets : ∀ override p s s',
  Shared.override_at override p s = Ok s' → Shared.only_sets_change s s'.
Proof.
  intros override. induction override as [override IH] using value_items_ind.
  intros p s s'. destruct p as [pid|procs|]; cbn [Shared.override_at].
  - apply merge_overrides_only_sets.
  - destruct override as [a|items|ov]; try done.
    rewrite shared_override_schemas_unfold.
    match goal with
    | |- map_fold ?f _ _ = _ → _ => set (body := f)
    end.
    set (Q := λ (r : result Shared.store) (m : gmap string value),
      (∀ k x, m !! k = Some x → ov !! k = Some x) →
      ∀ s1, r = Ok s1 → Shared.only_sets_change s s1).
    enough (Q (map_fold body (Ok s) ov) ov) as HQ by (by apply HQ).
    apply map_fold_weak_ind; unfold Q; clear Q.
    + intros _ s1 [= <-]. apply only_sets_change_refl.
    + intros i x m r Hi IHm Hsub s2. unfold body at 1.
      destruct r as [e|s1]; [done|]. cbn [rbind].
      destruct (procs !! i) as [p|]; [|done]. intros Hat.
      apply (only_sets_change_trans _ s1).
      * apply IHm; [|done]. intros k y Hk. apply Hsub.
        rewrite lookup_insert_ne; [done|]. congruence.
      * apply (IH ov i x eq_refl (Hsub i x (lookup_insert_eq _ _ _)) p s1 s2 Hat).
  - intros [= <-]. apply only_sets_change_refl.
Qed.

(** ** The parallel adapter *)

Section AdapterFacts.
Import ParallelProcess.

Context {W : Wrapped}.

Lemma direct_cons p interval states rest :
  direct p ((interval, states) :: rest)
  = ((next_update p interval states).1
       :: (direct (next_update p interval states).2 rest).1,
     (direct (next_update p interval states).2 rest).2).
Proof.
  cbn [direct]. destruct (next_update p interval states) as [u p'].
  cbn [fst snd]. by destruct (direct p' rest).
Qed.

Lemma direct_app p a b :
  direct p (a ++ b)
  = ((direct p a).1 ++ (direct (direct p a).2 b).1, (direct (direct p a).2 b).2).
Proof.
  revert p. induction a as [|[interval states] a IH]; intros p.
  - cbn [app direct fst snd]. by destruct (direct p b).
  - rewrite <- app_comm_cons. rewrite !direct_cons. rewrite IH. done.
Qed.

Lemma direct_length p reqs : length (direct p reqs).1 = length reqs.
Proof.
  revert p. induction reqs as [|[interval states] reqs IH]; intros p; [done|].
  rewrite direct_cons. cbn [fst length]. by rewrite IH.
Qed.

Lemma requests_cons interval states reqs :
  requests ((interval, states) :: reqs)
  = ASend (interval, states) :: ARecv :: requests reqs.
Proof. reflexivity. Qed.

Lemma sends_requests reqs : sends (requests reqs) = reqs.
Proof.
  induction reqs as [|[interval states] reqs IH]; [done|].
  rewrite requests_cons. cbn [sends]. by rewrite IH.
Qed.

Lemma recvs_requests reqs : recvs (requests reqs) = length reqs.
Proof.
  induction reqs as [|[interval states] reqs IH]; [done|].
  rewrite requests_cons. cbn [recvs length]. by rewrite IH.
Qed.

Lemma serving_init p0 reqs :
  no_sentinel reqs →
  serving p0 reqs
    {| sys_of := __init__ p0; program := requests reqs; collected := [] |}.
Proof.
  intros Hreqs. unfold serving. cbn [sys_of program collected __init__ status
    to_child to_parent process].
  rewrite sends_requests, recvs_requests.
  split; [done|]. split; [constructor|]. split; [done|]. split; [done|].
  exists []. done.
Qed.

Lemma serving_step p0 reqs c c' :
  serving p0 reqs c → step c c' → serving p0 reqs c'.
Proof.
  intros (Hrun & Hchild & Hprog & Hlen & sent & Hsent & Hups & Hst) Hstep.
  destruct Hstep as [s s' prog outs Hw | s msg prog outs
                    | s u rest prog outs Hu | s prog outs Hclosed];
    cbn [sys_of program collected] in *.
  - (* the worker serves the first request of the pipe *)
    unfold _run_update in Hw. rewrite Hrun in Hw.
    destruct (to_child s) as [|[interval states] rest] eqn:Hq; [done|].
    apply Forall_cons in Hchild as [Hi Hrest]. cbn [fst] in Hi.
    rewrite Hi in Hw. rewrite direct_cons in Hups, Hst. cbn [fst snd] in *.
    destruct (next_update (process s) interval states) as [u p'].
    injection Hw as <-. cbn [fst snd] in *.
    unfold serving. cbn [sys_of program collected status to_child to_parent process].
    split; [done|]. split; [done|]. split; [done|]. split; [done|].
    exists sent. split; [done|]. split; [|done].
    rewrite <- Hups. by rewrite <- !app_assoc.
  - (* the requester sends *)
    cbn [sends recvs] in *. apply Forall_cons in Hprog as [Hm Hprog].
    unfold serving. cbn [sys_of program collected send status to_child
      to_parent process].
    split; [done|]. split; [by apply Forall_app; split; [|constructor]|].
    split; [done|]. split; [done|].
    exists (sent ++ [msg]). split; [by rewrite <- app_assoc|].
    rewrite !direct_app. cbn [fst snd]. rewrite Hst, <- Hups.
    split; [by rewrite <- !app_assoc|done].
  - (* the requester receives *)
    cbn [sends recvs] in *.
    unfold serving. cbn [sys_of program collected received status to_child
      to_parent process].
    split; [done|]. split; [done|]. split; [done|].
    split; [rewrite length_app; cbn [length]; lia|].
    exists sent. split; [done|]. split; [|done].
    rewrite <- Hups, Hu. by rewrite <- !app_assoc.
  - congruence.
Qed.

Lemma serving_rtc p0 reqs c c' :
  serving p0 reqs c → rtc step c c' → serving p0 reqs c'.
Proof. intros Hc Hsteps. induction Hsteps; eauto using serving_step. Qed.

Lemma serving_done p0 reqs c :
  serving p0 reqs c → program c = [] → collected c = (direct p0 reqs).1.
Proof.
  intros (_ & _ & _ & Hlen & sent & Hsent & Hups & _) Hprog.
  rewrite Hprog in *. cbn [sends recvs] in *. rewrite app_nil_r in Hsent.
  subst sent. pose proof (direct_length p0 reqs) as Hn.
  rewrite <- Hups, length_app in Hn.
  destruct (to_parent (sys_of c) ++ (direct _ (to_child (sys_of c))).1)
    as [|x l] eqn:Hrest.
  - rewrite <- Hups. by rewrite app_nil_r.
  - cbn [length] in Hn. lia.
Qed.

(** A run that serves every request: send, let the worker compute, receive. *)
Lemma run_requests reqs : ∀ p cl outs rest,
  no_sentinel reqs →
  rtc step
    {| sys_of := {| to_child := []; to_parent := []; status := Running;
                    process := p; calls := cl |};
       program := requests reqs ++ rest; collected := outs |}
    {| sys_of := {| to_child := []; to_parent := []; status := Running;
                    process := (direct p reqs).2; calls := cl ++ reqs |};
       program := rest; collected := outs ++ (direct p reqs).1 |}.
Proof.
  induction reqs as [|[interval states] reqs IH]; intros p cl outs rest Hreqs.
  - cbn [requests flat_map app direct fst snd]. by rewrite !app_nil_r.
  - apply Forall_cons in Hreqs as [Hi Hreqs]. cbn [fst] in Hi.
    rewrite requests_cons, direct_cons. cbn [fst snd].
    destruct (next_update p interval states) as [u p'] eqn:Hnu. cbn [fst snd].
    cbn [app]. eapply rtc_l; [apply step_send|].
    eapply rtc_l.
    { apply step_worker. unfold _run_update, send.
      cbn [status to_child to_parent process calls app]. rewrite Hi, Hnu.
      reflexivity. }
    eapply rtc_l; [by apply step_recv|].
    unfold received. cbn [status to_child to_parent process calls app].
    replace (outs ++ u :: (direct p' reqs).1)
      with ((outs ++ [u]) ++ (direct p' reqs).1) by (by rewrite <- app_assoc).
    replace (cl ++ (interval, states) :: reqs)
      with ((cl ++ [(interval, states)]) ++ reqs) by (by rewrite <- app_assoc).
    by apply IH.
Qed.

(** The turn at which the worker receives the sentinel, whatever comes with
    it: the loop ends, nothing is computed, nothing is sent. *)
Lemma run_update_sentinel s interval states rest :
  status s = Running → to_child s = (interval, states) :: rest →
  eq_minus_one interval = true →
  _run_update s
  = Some {| to_child := rest; to_parent := to_parent s; status := Exited;
            process := process s; calls := calls s |}.
Proof. intros Hrun Hq Hi. unfold _run_update. by rewrite Hrun, Hq, Hi. Qed.

(** A worker that has left its loop only closes the connection: it calls
    and sends nothing, and does not go back to the loop. *)
Lemma run_update_stopped s s' :
  status s ≠ Running → _run_update s = Some s' →
  status s' = Closed ∧ to_parent s' = to_parent s ∧ calls s' = calls s
  ∧ process s' = process s ∧ to_child s' = to_child s.
Proof.
  unfold _run_update. destruct (status s); [done| |done].
  by intros _ [= <-].
Qed.

(** A turn of the worker sends a reply exactly when it calls [next_update],
    and it calls it with an interval that is not the sentinel. *)
Lemma run_update_calls s s' :
  _run_update s = Some s' →
  (calls s' = calls s ∧ to_parent s' = to_parent s ∧ process s' = process s)
  ∨ (∃ interval states,
       eq_minus_one interval = false
       ∧ calls s' = calls s ++ [(interval, states)]
       ∧ to_parent s' = to_parent s ++ [(next_update (process s) interval states).1]
       ∧ process s' = (next_update (process s) interval states).2
       ∧ status s' = Running).
Proof.
  unfold _run_update. destruct (status s); [| |done].
  - destruct (to_child s) as [|[interval states] rest]; [done|].
    destruct (eq_minus_one interval) eqn:Hi.
    + intros [= <-]. by left.
    + destruct (next_update (process s) interval states) as [u p'] eqn:Hnu.
      intros [= <-]. right. exists interval, states. by rewrite Hnu.
  - intros [= <-]. by left.
Qed.

Lemma step_stopped c c' :
  status (sys_of c) ≠ Running → step c c' →
  status (sys_of c') ≠ Running
  ∧ replies c' = replies c
  ∧ calls (sys_of c') = calls (sys_of c)
  ∧ process (sys_of c') = process (sys_of c).
Proof.
  intros Hstop Hstep. unfold replies.
  destruct Hstep as [s s' prog outs Hw | s msg prog outs
                    | s u rest prog outs Hu | s prog outs Hclosed];
    cbn [sys_of program collected] in *.
  - destruct (run_update_stopped s s' Hstop Hw) as (Hc & Hp & Hcl & Hpr & _).
    rewrite Hc, Hp. done.
  - done.
  - cbn [received to_parent status calls process]. rewrite Hu.
    by rewrite <- app_assoc.
  - done.
Qed.

Lemma rtc_stopped c c' :
  status (sys_of c) ≠ Running → rtc step c c' →
  status (sys_of c') ≠ Running
  ∧ replies c' = replies c
  ∧ calls (sys_of c') = calls (sys_of c)
  ∧ process (sys_of c') = process (sys_of c).
Proof.
  intros Hstop Hsteps. induction Hsteps as [c|c c1 c' Hstep _ IH]; [done|].
  destruct (step_stopped c c1 Hstop Hstep) as (Hs1 & Hr1 & Hc1 & Hp1).
  destruct (IH Hs1) as (Hs & Hr & Hc & Hp).
  split; [done|]. split; [congruence|]. split; congruence.
Qed.

(** Every call of [next_update] is made with an interval that is not the
    sentinel. *)
Lemma step_calls c c' :
  no_sentinel (calls (sys_of c)) → step c c' → no_sentinel (calls (sys_of c')).
Proof.
  intros Hc Hstep.
  destruct Hstep as [s s' prog outs Hw | s msg prog outs
                    | s u rest prog outs Hu | s prog outs Hclosed];
    cbn [sys_of program collected send received calls] in *; try done.
  destruct (run_update_calls s s' Hw)
    as [(-> & _)|(interval & states & Hi & -> & _)]; [done|].
  apply Forall_app. split; [done|]. by constructor.
Qed.

Lemma rtc_calls c c' :
  no_sentinel (calls (sys_of c)) → rtc step c c' → no_sentinel (calls (sys_of c')).
Proof. intros Hc Hsteps. induction Hsteps; eauto using step_calls. Qed.

Lemma run_update_exited s :
  status s = Exited → _run_update s = Some (closed_of s).
Proof. intros Hst. unfold _run_update. by rewrite Hst. Qed.

Lemma run_update_closed s : status s = Closed → _run_update s = None.
Proof. intros Hst. unfold _run_update. by rewrite Hst. Qed.

(** With a sentinel in the pipe, the worker's own turns take it to the end
    of [_run_update]. *)
Lemma worker_closes q : ∀ s prog outs,
  to_child s = q →
  (status s = Running → Exists (λ msg, eq_minus_one msg.1 = true) q) →
  ∃ s', rtc step {| sys_of := s; program := prog; collected := outs |}
                 {| sys_of := s'; program := prog; collected := outs |}
        ∧ status s' = Closed.
Proof.
  assert (∀ s prog outs, status s = Exited →
    ∃ s', rtc step {| sys_of := s; program := prog; collected := outs |}
                   {| sys_of := s'; program := prog; collected := outs |}
          ∧ status s' = Closed) as Hexited.
  { intros s prog outs Hst. exists (closed_of s). split; [|done].
    by apply rtc_once, step_worker, run_update_exited. }
  induction q as [|[interval states] rest IH]; intros s prog outs Hq Hex;
    destruct (status s) eqn:Hst; try (by apply Hexited); try (by exists s).
  - specialize (Hex eq_refl). by apply Exists_nil in Hex.
  - destruct (eq_minus_one interval) eqn:Hi.
    + destruct (Hexited {| to_child := rest; to_parent := to_parent s;
                           status := Exited; process := process s;
                           calls := calls s |} prog outs eq_refl)
        as (s' & Hsteps & Hclosed).
      exists s'. split; [|done].
      eapply rtc_l; [|exact Hsteps].
      by apply step_worker, (run_update_sentinel s interval states rest).
    + destruct (next_update (process s) interval states) as [u p'] eqn:Hnu.
      destruct (IH {| to_child := rest; to_parent := to_parent s ++ [u];
                      status := Running; process := p';
                      calls := calls s ++ [(interval, states)] |} prog outs)
        as (s' & Hsteps & Hclosed); [done| |].
      { intros _. specialize (Hex eq_refl).
        apply Exists_cons in Hex as [Hhd|Htl]; [|done].
        cbn [fst] in Hhd. congruence. }
      exists s'. split; [|done].
      eapply rtc_l; [|exact Hsteps]. apply step_worker.
      unfold _run_update. by rewrite Hst, Hq, Hi, Hnu.
Qed.

Lemma ending_step c c' : ending c → step c c' → ending c'.
Proof.
  intros Hc Hstep.
  destruct Hstep as [s s' prog outs Hw | s msg prog outs
                    | s u rest prog outs Hu | s prog outs Hclosed];
    unfold ending in *; cbn [sys_of program collected] in *.
  - destruct Hc as [?|[?|[? Hcl]]]; [by left|by right; left|].
    unfold _run_update in Hw. by rewrite Hcl in Hw.
  - destruct Hc as [[= -> ->]|[?|[? _]]]; [by right; left|done|done].
  - destruct Hc as [?|[?|[? _]]]; done.
  - destruct Hc as [?|[[= ->]|[? _]]]; [done| |done]. by right; right.
Qed.

Lemma ending_rtc c c' : ending c → rtc step c c' → ending c'.
Proof. intros Hc Hsteps. induction Hsteps; eauto using ending_step. Qed.

Lemma end_completes s outs :
  ∃ c, rtc step {| sys_of := s; program := end_; collected := outs |} c
       ∧ program c = [] ∧ status (sys_of c) = Closed.
Proof.
  destruct (worker_closes (to_child s ++ [(AInt (-1), VNone)])
              (send (AInt (-1), VNone) s) [AJoin] outs)
    as (s' & Hsteps & Hclosed); [done| |].
  { intros _. apply Exists_app. right. by constructor. }
  exists {| sys_of := s'; program := []; collected := outs |}.
  split; [|done].
  eapply rtc_l; [apply step_send|].
  etrans; [exact Hsteps|]. by apply rtc_once, step_join.
Qed.

(** C2: for requests none of which has an interval equal to -1, [update]
    then [get] for each request in turn can be run to the end, and however
    the worker's turns fall between the requester's actions, the updates
    [get] has returned at the end are those of calling [next_update]
    directly on the process, in the same order. *)
Theorem parallel_updates_as_direct (p0 : PS) (reqs : list (atom * value)) :
  Forall (λ req, eq_minus_one req.1 = false) reqs →
  (∃ c, rtc step {| sys_of := __init__ p0; program := requests reqs;
                    collected := [] |} c
        ∧ program c = [])
  ∧ (∀ c, rtc step {| sys_of := __init__ p0; program := requests reqs;
                      collected := [] |} c →
          program c = [] →
          collected c = (direct p0 reqs).1).
Proof.
  intros Hreqs. split.
  - pose proof (run_requests reqs p0 [] [] [] Hreqs) as Hrun.
    rewrite app_nil_r in Hrun.
    exists {| sys_of := {| to_child := []; to_parent := []; status := Running;
                           process := (direct p0 reqs).2; calls := [] ++ reqs |};
              program := []; collected := [] ++ (direct p0 reqs).1 |}.
    split; [exact Hrun | done].
  - intros c Hsteps Hdone. eapply serving_done; [|done].
    eapply serving_rtc; [|exact Hsteps]. by apply serving_init.
Qed.

(** C3: [end()] sends the sentinel [(-1, None)] and joins.  From any state
    of the adapter the call can be run to the end, and it ends only with a
    worker that has closed its connection and returned.  The turn at which
    the worker receives the sentinel ends the loop without a call of
    [next_update] and without a reply, the next turn closes the connection,
    and from the moment the loop has ended the worker makes no call and
    sends nothing. *)
Theorem end_stops_the_worker (s : sys) (outs : list value) :
  sends end_ = [(AInt (-1), VNone)]
  ∧ (∃ c, rtc step {| sys_of := s; program := end_; collected := outs |} c
          ∧ program c = [] ∧ status (sys_of c) = Closed)
  ∧ (∀ c, rtc step {| sys_of := s; program := end_; collected := outs |} c →
          program c = [] →
          status (sys_of c) = Closed ∧ _run_update (sys_of c) = None)
  ∧ (∀ c interval states rest,
       rtc step {| sys_of := s; program := end_; collected := outs |} c →
       status (sys_of c) = Running →
       to_child (sys_of c) = (interval, states) :: rest →
       eq_minus_one interval = true →
       ∃ s1, _run_update (sys_of c) = Some s1
             ∧ status s1 = Exited
             ∧ calls s1 = calls (sys_of c)
             ∧ to_parent s1 = to_parent (sys_of c)
             ∧ process s1 = process (sys_of c)
             ∧ _run_update s1 = Some (closed_of s1)
             ∧ _run_update (closed_of s1) = None)
  ∧ (∀ c c',
       rtc step {| sys_of := s; program := end_; collected := outs |} c →
       status (sys_of c) ≠ Running →
       rtc step c c' →
       status (sys_of c') ≠ Running
       ∧ replies c' = replies c
       ∧ calls (sys_of c') = calls (sys_of c)).
Proof.
  split; [done|]. split; [apply end_completes|]. split; [|split].
  - intros c Hsteps Hdone.
    assert (ending c) as [Hc|[Hc|[_ Hc]]]
      by (eapply ending_rtc; [|exact Hsteps]; by left);
      [by rewrite Hdone in Hc..|].
    split; [done|]. by apply run_update_closed.
  - intros c interval states rest _ Hrun Hq Hi. eexists.
    split; [by apply (run_update_sentinel _ interval states rest)|].
    done.
  - intros c c' _ Hstop Hsteps.
    destruct (rtc_stopped c c' Hstop Hsteps) as (? & ? & ? & _). done.
Qed.

(** C9: the interval -1 is kept for the sentinel.  A request whose interval
    is -1, the int or the float, ends the worker's loop whatever states
    come with it: [next_update] is not called and no reply is sent.  A
    request with any other int for its interval is served: [next_update]
    is called with it and its update is sent back.  So, in any run of the
    adapter, whatever the requester sends, [next_update] is never called
    with the interval -1. *)
Theorem sentinel_interval_reserved (p0 : PS) (prog : list action) :
  (∀ s interval states rest,
     status s = Running →
     to_child s = (interval, states) :: rest →
     interval = AInt (-1) ∨ interval = AFloat (-1)%float →
     _run_update s
     = Some {| to_child := rest; to_parent := to_parent s; status := Exited;
               process := process s; calls := calls s |})
  ∧ (∀ s z states rest,
       status s = Running →
       to_child s = (AInt z, states) :: rest →
       z ≠ (-1)%Z →
       _run_update s
       = Some {| to_child := rest;
                 to_parent :=
                   to_parent s ++ [(next_update (process s) (AInt z) states).1];
                 status := Running;
                 process := (next_update (process s) (AInt z) states).2;
                 calls := calls s ++ [(AInt z, states)] |})
  ∧ (∀ c, rtc step {| sys_of := __init__ p0; program := prog;
                      collected := [] |} c →
          Forall (λ call, call.1 ≠ AInt (-1) ∧ call.1 ≠ AFloat (-1)%float)
            (calls (sys_of c))).
Proof.
  split; [|split].
  - intros s interval states rest Hrun Hq Hi.
    apply (run_update_sentinel s interval states rest Hrun Hq).
    by destruct Hi as [->| ->].
  - intros s z states rest Hrun Hq Hz. unfold _run_update.
    rewrite Hrun, Hq. cbn [eq_minus_one].
    destruct (Z.eqb_spec z (-1)) as [|_]; [done|].
    by destruct (next_update (process s) (AInt z) states).
  - intros c Hsteps.
    assert (no_sentinel (calls (sys_of c))) as Hcalls
      by (eapply (rtc_calls _ c); [|exact Hsteps]; constructor).
    eapply Forall_impl; [exact Hcalls|]. intros [interval states] Hcall.
    cbn [fst] in *. split; intros ->; discriminate Hcall.
Qed.

End AdapterFacts.

(** The counting process behind the adapter: the worker that receives the
    interval -1 with states, as an int or as a float, leaves its loop
    without a call; the worker that receives the interval 1 serves it. *)
Lemma sentinel_interval_reserved_witness :
  ParallelProcess._run_update
    (@ParallelProcess.Build_sys ParallelProcess.counting_process
       [(AInt (-1), VDict {[ "a" := VInt 1 ]}); (AInt 3, VNone)] [VInt 7]
       ParallelProcess.Running 4%nat [(AInt 2, VNone)])
  = Some (@ParallelProcess.Build_sys ParallelProcess.counting_process
            [(AInt 3, VNone)] [VInt 7] ParallelProcess.Exited 4%nat
            [(AInt 2, VNone)])
  ∧ ParallelProcess._run_update
      (@ParallelProcess.Build_sys ParallelProcess.counting_process
         [(AFloat (-1)%float, VList [VInt 1])] []
         ParallelProcess.Running 0%nat [])
    = Some (@ParallelProcess.Build_sys ParallelProcess.counting_process
              [] [] ParallelProcess.Exited 0%nat [])
  ∧ ParallelProcess._run_update
      (@ParallelProcess.Build_sys ParallelProcess.counting_process
         [(AInt 1, VNone)] [] ParallelProcess.Running 0%nat [])
    = Some (@ParallelProcess.Build_sys ParallelProcess.counting_process
              [] [VList [VInt 1; VNone; VInt 0]] ParallelProcess.Running 1%nat
              [(AInt 1, VNone)]).
Proof.
  split; [|split].
  - exact (proj1 (sentinel_interval_reserved (W := ParallelProcess.counting_process)
                    0%nat [])
             (@ParallelProcess.Build_sys ParallelProcess.counting_process
                [(AInt (-1), VDict {[ "a" := VInt 1 ]}); (AInt 3, VNone)] [VInt 7]
                ParallelProcess.Running 4%nat [(AInt 2, VNone)])
             (AInt (-1)) (VDict {[ "a" := VInt 1 ]}) [(AInt 3, VNone)]
             eq_refl eq_refl (or_introl eq_refl)).
  - exact (proj1 (sentinel_interval_reserved (W := ParallelProcess.counting_process)
                    0%nat [])
             (@ParallelProcess.Build_sys ParallelProcess.counting_process
                [(AFloat (-1)%float, VList [VInt 1])] []
                ParallelProcess.Running 0%nat [])
             (AFloat (-1)%float) (VList [VInt 1]) []
             eq_refl eq_refl (or_intror eq_refl)).
  - refine (proj1 (proj2 (sentinel_interval_reserved
                            (W := ParallelProcess.counting_process) 0%nat []))
              (@ParallelProcess.Build_sys ParallelProcess.counting_process
                 [(AInt 1, VNone)] [] ParallelProcess.Running 0%nat [])
              1%Z VNone [] eq_refl eq_refl _).
    discriminate.
Defined.

(** Two requests to the counting process, neither with the sentinel
    interval. *)
Lemma parallel_updates_as_direct_witness :
  Forall (λ req : atom * value, eq_minus_one req.1 = false)
    [(AFloat 1.0%float, VDict ∅); (AInt 2, VNone)]
  ∧ (∃ c, rtc (ParallelProcess.step (W := ParallelProcess.counting_process))
            {| ParallelProcess.sys_of :=
                 ParallelProcess.__init__ (W := ParallelProcess.counting_process) 0%nat;
               ParallelProcess.program :=
                 ParallelProcess.requests
                   [(AFloat 1.0%float, VDict ∅); (AInt 2, VNone)];
               ParallelProcess.collected := [] |} c
          ∧ ParallelProcess.program c = [])
  ∧ (∀ c, rtc (ParallelProcess.step (W := ParallelProcess.counting_process))
            {| ParallelProcess.sys_of :=
                 ParallelProcess.__init__ (W := ParallelProcess.counting_process) 0%nat;
               ParallelProcess.program :=
                 ParallelProcess.requests
                   [(AFloat 1.0%float, VDict ∅); (AInt 2, VNone)];
               ParallelProcess.collected := [] |} c →
          ParallelProcess.program c = [] →
          ParallelProcess.collected c
          = (ParallelProcess.direct (W := ParallelProcess.counting_process) 0%nat
               [(AFloat 1.0%float, VDict ∅); (AInt 2, VNone)]).1).
Proof.
  assert (Forall (λ req : atom * value, eq_minus_one req.1 = false)
            [(AFloat 1.0%float, VDict ∅); (AInt 2, VNone)]) as Hreqs.
  { repeat constructor. }
  split; [exact Hreqs|].
  exact (parallel_updates_as_direct (W := ParallelProcess.counting_process)
           0%nat [(AFloat 1.0%float, VDict ∅); (AInt 2, VNone)] Hreqs).
Defined.

(** The two updates of the counting process, through the adapter's direct
    counterpart. *)
Example direct_counting :
  (ParallelProcess.direct (W := ParallelProcess.counting_process) 0%nat
     [(AFloat 1.0%float, VDict ∅); (AInt 2, VNone)]).1
  = [VList [VFloat 1.0%float; VDict ∅; VInt 0];
     VList [VInt 2; VNone; VInt 1]].
Proof. reflexivity. Qed.

(** A float sentinel with states stops the worker as [(-1, None)] does. *)
Example run_update_float_sentinel :
  ParallelProcess._run_update
    (@ParallelProcess.Build_sys ParallelProcess.counting_process
       [(AFloat (-1)%float, VDict {[ "a" := VInt 1 ]})] []
       ParallelProcess.Running 0%nat [])
  = Some (@ParallelProcess.Build_sys ParallelProcess.counting_process
            [] [] ParallelProcess.Exited 0%nat []).
Proof. reflexivity. Qed.

(** ** The serializer fallback *)

Section SerializeFacts.
Import Serialize.

Lemma elem_of_compatible registry o s :
  s ∈ compatible_serializers registry o
  ↔ (∃ name, registry !! name = Some s) ∧ isinstance o (python_type s) = true.
Proof.
  unfold compatible_serializers, list_names, access.
  rewrite list_elem_of_filter, list_elem_of_omap. split.
  - intros [Hinst (name & Hname & Hs)]. split; [by exists name | done].
  - intros [[name Hs] Hinst]. split; [done|]. exists name. split; [|done].
    apply list_elem_of_fmap. exists (name, s). split; [done|].
    by apply elem_of_map_to_list.
Qed.

Lemma compatible_two registry o n1 n2 s1 s2 :
  n1 ≠ n2 →
  registry !! n1 = Some s1 → isinstance o (python_type s1) = true →
  registry !! n2 = Some s2 → isinstance o (python_type s2) = true →
  1 < length (compatible_serializers registry o).
Proof.
  intros Hne H1 Hi1 H2 Hi2. unfold compatible_serializers, list_names.
  assert (n1 ∈ (map_to_list registry).*1) as Hin1.
  { apply list_elem_of_fmap. exists (n1, s1). split; [done|].
    by apply elem_of_map_to_list. }
  assert (n2 ∈ (map_to_list registry).*1) as Hin2.
  { apply list_elem_of_fmap. exists (n2, s2). split; [done|].
    by apply elem_of_map_to_list. }
  change (registry !! n1) with (access registry n1) in H1.
  change (registry !! n2) with (access registry n2) in H2.
  set (P := λ s : Serializer, isinstance o (python_type s) = true).
  assert (∀ l n s, n ∈ l → access registry n = Some s → P s →
            0 < length (filter P (omap (access registry) l))) as Hone.
  { intros l n s Hin Hn Hp. induction l as [|a l IH]; [by apply elem_of_nil in Hin|].
    cbn [omap list_omap]. apply elem_of_cons in Hin as [<-|Hin].
    - rewrite Hn. rewrite filter_cons_True by done. cbn [length]. lia.
    - specialize (IH Hin). destruct (access registry a) as [sa|]; [|done].
      rewrite filter_cons. case_decide; cbn [length]; lia. }
  induction ((map_to_list registry).*1) as [|a l IH];
    [by apply elem_of_nil in Hin1|].
  cbn [omap list_omap].
  apply elem_of_cons in Hin1 as [<-|Hin1];
    apply elem_of_cons in Hin2 as [Heq|Hin2]; try done.
  - rewrite H1, filter_cons_True by done. cbn [length].
    pose proof (Hone l n2 s2 Hin2 H2 Hi2). lia.
  - subst a. rewrite H2, filter_cons_True by done. cbn [length].
    pose proof (Hone l n1 s1 Hin1 H1 Hi1). lia.
  - specialize (IH Hin1 Hin2). destruct (access registry a) as [sa|]; [|done].
    rewrite filter_cons. case_decide; cbn [length]; lia.
Qed.

(** The resolution of [default], in terms of the registry. *)
Lemma default_resolution (registry : gmap string Serializer) (o : obj) :
  (registry !! str_type o = None →
   (∀ name s, registry !! name = Some s → isinstance o (python_type s) = false) →
   default registry o = Raise (TypeError "No serializer found"))
  ∧ (registry !! str_type o = None →
     (∃ n1 n2 s1 s2, n1 ≠ n2
        ∧ registry !! n1 = Some s1 ∧ isinstance o (python_type s1) = true
        ∧ registry !! n2 = Some s2 ∧ isinstance o (python_type s2) = true) →
     default registry o = Raise (TypeError "Multiple serializers found"))
  ∧ (∀ r, default registry o = Ok r →
       (∃ s, registry !! str_type o = Some s ∧ r.1 = serialize s o)
       ∨ (registry !! str_type o = None
          ∧ ∃ s, compatible_serializers registry o = [s]
                 ∧ (∃ name, registry !! name = Some s)
                 ∧ isinstance o (python_type s) = true
                 ∧ r.1 = serialize s o)).
Proof.
  unfold default, access. split; [|split].
  - intros -> Hnone.
    destruct (compatible_serializers registry o) as [|s l] eqn:Hc.
    + done.
    + assert (s ∈ compatible_serializers registry o) as Hin
        by (rewrite Hc; by left).
      apply elem_of_compatible in Hin as [[name Hname] Hinst].
      rewrite (Hnone name s Hname) in Hinst. done.
  - intros -> (n1 & n2 & s1 & s2 & Hne & H1 & Hi1 & H2 & Hi2).
    rewrite decide_True; [done|]. by eapply compatible_two.
  - intros r. destruct (registry !! str_type o) as [s|] eqn:Hs.
    + intros [= <-]. left. by exists s.
    + case_decide as Hlen; [done|].
      destruct (compatible_serializers registry o) as [|s l] eqn:Hc; [done|].
      intros [= <-]. right. split; [done|].
      destruct l as [|s' l]; [|cbn [length] in Hlen; lia].
      exists s. split; [done|].
      assert (s ∈ compatible_serializers registry o) as Hin
        by (rewrite Hc; by left).
      apply elem_of_compatible in Hin as [Hname Hinst]. done.
Qed.

(** C7, as stated, with a fallback of the caller's: no serializer is
    registered under the name of the type, none of the registered ones
    matches it, and [serialize_value] returns. *)
Lemma serialize_value_own_default :
  serialize_value toy_registry
    {| obj_type := "decimal.Decimal"; obj_bases := ["object"];
       obj_data := VStr "0.1" |}
    (Some (λ o, Ok (obj_data o, false)))
  = Ok (VStr "0.1", false)
  ∧ toy_registry !! "<class 'decimal.Decimal'>" = None
  ∧ ∀ name s, toy_registry !! name = Some s →
      isinstance {| obj_type := "decimal.Decimal"; obj_bases := ["object"];
                    obj_data := VStr "0.1" |} (python_type s) = false.
Proof.
  split; [reflexivity|]. split; [by vm_compute|].
  assert (map_Forall (λ _ s,
            isinstance {| obj_type := "decimal.Decimal"; obj_bases := ["object"];
                          obj_data := VStr "0.1" |} (python_type s) = false)
            toy_registry) as Hall.
  { apply (bool_decide_unpack _). vm_compute. exact I. }
  intros name s Hs. exact (Hall name s Hs).
Qed.

(** C7 (amended): called without a [default] of the caller's, on an object
    whose type is not natively supported, [serialize_value] returns only
    when the registry resolves a serializer.  When no serializer is
    registered under the exact type name, TypeError "No serializer found"
    is raised if no registered serializer's type matches the object, and
    TypeError "Multiple serializers found" if serializers registered under
    two names, or more, match it; when the call returns, the serializer
    applied is the one registered under the exact type name or else the
    only one that matches. *)
Theorem serialize_value_needs_one_serializer
    (registry : gmap string Serializer) (o : obj) :
  (registry !! str_type o = None →
   (∀ name s, registry !! name = Some s → isinstance o (python_type s) = false) →
   serialize_value registry o None = Raise (TypeError "No serializer found"))
  ∧ (registry !! str_type o = None →
     (∃ n1 n2 s1 s2, n1 ≠ n2
        ∧ registry !! n1 = Some s1 ∧ isinstance o (python_type s1) = true
        ∧ registry !! n2 = Some s2 ∧ isinstance o (python_type s2) = true) →
     serialize_value registry o None
     = Raise (TypeError "Multiple serializers found"))
  ∧ (∀ r, serialize_value registry o None = Ok r →
       (∃ s, registry !! str_type o = Some s ∧ r.1 = serialize s o)
       ∨ (registry !! str_type o = None
          ∧ ∃ s, (∃ name, registry !! name = Some s)
                 ∧ isinstance o (python_type s) = true
                 ∧ (∀ s', s' ∈ compatible_serializers registry o → s' = s)
                 ∧ r.1 = serialize s o)).
Proof.
  unfold serialize_value, make_default.
  destruct (default_resolution registry o) as (Hnone & Hmany & Hok).
  split; [exact Hnone|]. split; [exact Hmany|].
  intros r Hr. destruct (Hok r Hr) as [Hex|(Hno & s & Hc & Hname & Hinst & Hs)].
  - by left.
  - right. split; [done|]. exists s. split; [done|]. split; [done|].
    split; [|done]. intros s'. rewrite Hc. by intros ->%list_elem_of_singleton.
Qed.

Example default_set :
  default toy_registry
    {| obj_type := "set"; obj_bases := ["object"]; obj_data := VList [VInt 1] |}
  = Ok (VList [VInt 1], false).
Proof. vm_compute. reflexivity. Qed.

Example default_subclass_of_set :
  default toy_registry
    {| obj_type := "MySet"; obj_bases := ["set"; "object"];
       obj_data := VList [VInt 1] |}
  = Ok (VList [VInt 1], true).
Proof. vm_compute. reflexivity. Qed.

Example default_no_serializer :
  default toy_registry
    {| obj_type := "decimal.Decimal"; obj_bases := ["object"];
       obj_data := VStr "0.1" |}
  = Raise (TypeError "No serializer found").
Proof. vm_compute. reflexivity. Qed.

Example default_multiple_serializers :
  default (<[ "<class 'frozenset'>" := SetSerializer ]> toy_registry)
    {| obj_type := "MySet"; obj_bases := ["set"; "object"];
       obj_data := VList [VInt 1] |}
  = Raise (TypeError "Multiple serializers found").
Proof. vm_compute. reflexivity. Qed.

End SerializeFacts.

(** * Part III: further properties of the code *)

(** ** Path insertion: how calls compose *)

(** [assoc_in] into an empty dictionary never raises: it builds the chain
    of one-key dictionaries that leads to the value, from which the value
    reads back (this is how [generate] places its processes and its
    topology at a path). *)
Theorem assoc_in_into_empty (path : list string) (v : value) :
  assoc_in (VDict ∅) path v = Ok (nest path v)
  ∧ get_in (nest path v) path = Some v.
Proof.
  split.
  - destruct path as [|k rest]; [done|]. apply assoc_in_empty.
  - pose proof (get_in_nest_app path [] v) as H.
    by rewrite app_nil_r in H.
Qed.

(** A second insertion at the same path replaces the first: the result is
    that of the second insertion alone. *)
Theorem assoc_in_overwrite (d : value) (p : list string) (v w r : value) :
  assoc_in d p v = Ok r →
  assoc_in r p w = assoc_in d p w.
Proof.
  revert d r. induction p as [|k rest IH]; intros d r; [done|].
  destruct d as [| |m]; try done. rewrite !assoc_in_cons.
  destruct (assoc_in (default (VDict ∅) (m !! k)) rest v) as [e|sub] eqn:Hsub;
    [done|].
  cbn [rbind]. intros [= <-]. rewrite assoc_in_cons, lookup_insert_eq.
  cbn [default from_option id]. rewrite (IH _ _ Hsub).
  destruct (assoc_in (default (VDict ∅) (m !! k)) rest w) as [e|sub']; [done|].
  cbn [rbind]. by rewrite insert_insert_eq.
Qed.

Lemma assoc_in_overwrite_witness :
  assoc_in (VDict {[ "a" := VDict ∅ ]}) ["a"; "b"] (VInt 2)
  = Ok (VDict {[ "a" := VDict {[ "b" := VInt 2 ]} ]})
  ∧ assoc_in (VDict {[ "a" := VDict {[ "b" := VInt 2 ]} ]}) ["a"; "b"] (VInt 3)
    = assoc_in (VDict {[ "a" := VDict ∅ ]}) ["a"; "b"] (VInt 3).
Proof.
  assert (assoc_in (VDict {[ "a" := VDict ∅ ]}) ["a"; "b"] (VInt 2)
          = Ok (VDict {[ "a" := VDict {[ "b" := VInt 2 ]} ]})) as H
    by (vm_compute; reflexivity).
  split; [exact H|].
  exact (assoc_in_overwrite (VDict {[ "a" := VDict ∅ ]}) ["a"; "b"]
           (VInt 2) (VInt 3) _ H).
Defined.

(** Insertions at paths that part ways commute: done in either order, both
    return, and they return the same tree. *)
Theorem assoc_in_commute (d : value) (p q : list string) (v w r1 r2 : value) :
  diverge p q →
  assoc_in d p v = Ok r1 →
  assoc_in d q w = Ok r2 →
  ∃ r, assoc_in r1 q w = Ok r ∧ assoc_in r2 p v = Ok r.
Proof.
  intros (pre & k & k' & s & s' & Hne & -> & ->).
  revert d r1 r2. induction pre as [|j pre IH]; intros d r1 r2.
  - cbn [app]. destruct d as [| |m]; try done. rewrite !assoc_in_cons.
    destruct (assoc_in (default (VDict ∅) (m !! k)) s v) as [e|a] eqn:Ha; [done|].
    destruct (assoc_in (default (VDict ∅) (m !! k')) s' w) as [e|b] eqn:Hb; [done|].
    cbn [rbind]. intros [= <-] [= <-].
    exists (VDict (<[k' := b]> (<[k := a]> m))).
    rewrite !assoc_in_cons, !lookup_insert_ne by done. rewrite Ha, Hb.
    cbn [rbind]. split; [done|]. by rewrite insert_insert_ne.
  - rewrite <- !app_comm_cons. destruct d as [| |m]; try done.
    rewrite !assoc_in_cons.
    destruct (assoc_in (default (VDict ∅) (m !! j)) (pre ++ k :: s) v)
      as [e|a] eqn:Ha; [done|].
    destruct (assoc_in (default (VDict ∅) (m !! j)) (pre ++ k' :: s') w)
      as [e|b] eqn:Hb; [done|].
    cbn [rbind]. intros [= <-] [= <-].
    destruct (IH _ _ _ Ha Hb) as (x & Hx1 & Hx2).
    exists (VDict (<[j := x]> m)).
    rewrite !assoc_in_cons, !lookup_insert_eq. cbn [default from_option id].
    rewrite Hx1, Hx2. cbn [rbind]. by rewrite !insert_insert_eq.
Qed.

Lemma assoc_in_commute_witness :
  diverge ["a"; "b"] ["a"; "c"]
  ∧ assoc_in (VDict ∅) ["a"; "b"] (VInt 1)
    = Ok (VDict {[ "a" := VDict {[ "b" := VInt 1 ]} ]})
  ∧ assoc_in (VDict ∅) ["a"; "c"] (VInt 2)
    = Ok (VDict {[ "a" := VDict {[ "c" := VInt 2 ]} ]})
  ∧ ∃ r, assoc_in (VDict {[ "a" := VDict {[ "b" := VInt 1 ]} ]})
           ["a"; "c"] (VInt 2) = Ok r
         ∧ assoc_in (VDict {[ "a" := VDict {[ "c" := VInt 2 ]} ]})
             ["a"; "b"] (VInt 1) = Ok r.
Proof.
  assert (diverge ["a"; "b"] ["a"; "c"]) as Hd.
  { exists ["a"], "b", "c", [], []. done. }
  assert (assoc_in (VDict ∅) ["a"; "b"] (VInt 1)
          = Ok (VDict {[ "a" := VDict {[ "b" := VInt 1 ]} ]})) as H1
    by (vm_compute; reflexivity).
  assert (assoc_in (VDict ∅) ["a"; "c"] (VInt 2)
          = Ok (VDict {[ "a" := VDict {[ "c" := VInt 2 ]} ]})) as H2
    by (vm_compute; reflexivity).
  split; [exact Hd|]. split; [exact H1|]. split; [exact H2|].
  exact (assoc_in_commute (VDict ∅) ["a"; "b"] ["a"; "c"] (VInt 1) (VInt 2)
           _ _ Hd H1 H2).
Defined.

(** ** Parameters of nested processes *)

Lemma psize_lookup m k x : m !! k = Some x → psize x < psize (PDict m).
Proof.
  cbn [psize]. intros Hk. apply Nat.lt_succ_r. revert k x Hk.
  set (P := λ (r : nat) (m : gmap string ptree),
              ∀ k x, m !! k = Some x → psize x ≤ r).
  change (P (map_fold (λ _ x n, psize x + n) 0 m) m).
  apply map_fold_weak_ind; unfold P; clear P.
  - intros k x. by rewrite lookup_empty.
  - intros i y m' r Hi IH k x. destruct (decide (i = k)) as [->|Hne].
    + rewrite lookup_insert_eq. intros [= ->]. lia.
    + rewrite lookup_insert_ne by done. intros Hk. specialize (IH k x Hk). lia.
Qed.

Lemma ptree_items_ind (P : ptree → Prop) :
  (∀ p, (∀ m k x, p = PDict m → m !! k = Some x → P x) → P p) →
  ∀ p, P p.
Proof.
  intros Hstep p. remember (psize p) as n eqn:Hn. revert p Hn.
  induction n as [n IH] using lt_wf_ind. intros p ->.
  apply Hstep. intros m k x -> Hk. apply (IH (psize x)); [|done].
  by eapply psize_lookup.
Qed.

Lemma get_parameters_value_dict σ m :
  get_parameters_value σ (PDict m)
  = (parameters ←! _get_parameters σ (Some m); Ok (Some (VDict parameters))).
Proof. reflexivity. Qed.

Lemma get_parameters_value_mirrors σ : ∀ p,
  known (dom σ) p →
  ∃ bound, get_parameters_value σ p = Ok bound ∧ mirrors σ p bound.
Proof.
  intros p. induction p as [p IH] using ptree_items_ind.
  intros Hknown. destruct Hknown as [pid Hpid | m Hm | ].
  - apply elem_of_dom in Hpid as [self Hself]. cbn [get_parameters_value].
    rewrite Hself. eexists. split; [done|].
    intros [|k rest]; cbn [proc_at]; split; [|split| |split]; try done.
    intros pid' [= <-]. by exists self.
  - rewrite get_parameters_value_dict. unfold _get_parameters.
    cbn [default from_option id].
    set (body := λ (key : string) (value : ptree) (acc : result (gmap string Value)),
           rbind acc (λ parameters,
             rbind (get_parameters_value σ value) (λ bound,
               Ok (match bound with
                   | Some x => <[key := x]> parameters
                   | None => parameters
                   end)))).
    set (P := λ (r : result (gmap string value)) (m' : gmap string ptree),
      (∀ k x, m' !! k = Some x → m !! k = Some x) →
      ∃ ps, r = Ok ps
            ∧ ∀ k, match m' !! k with
                   | None => ps !! k = None
                   | Some x => ∃ bound, get_parameters_value σ x = Ok bound
                                        ∧ ps !! k = bound ∧ mirrors σ x bound
                   end).
    assert (P (map_fold body (Ok ∅) m) m) as HP.
    { apply map_fold_weak_ind; unfold P; clear P.
      - intros _. exists ∅. split; [done|]. intros k. by rewrite !lookup_empty.
      - intros i x m' r Hi IHm Hsub.
        destruct IHm as (ps & -> & Hps).
        { intros k y Hk. apply Hsub. rewrite lookup_insert_ne; [done|]. congruence. }
        assert (m !! i = Some x) as Hx by (apply Hsub; apply lookup_insert_eq).
        destruct (IH m i x eq_refl Hx (Hm i x Hx)) as (bound & Hb & Hmir).
        unfold body. cbn [rbind]. rewrite Hb. cbn [rbind]. eexists. split; [done|].
        intros k. destruct (decide (i = k)) as [<-|Hne].
        + rewrite lookup_insert_eq. exists bound. split; [done|]. split; [|done].
          destruct bound as [v|]; [by rewrite lookup_insert_eq|].
          specialize (Hps i). by rewrite Hi in Hps.
        + rewrite lookup_insert_ne by done. specialize (Hps k).
          destruct bound as [v|]; [by rewrite lookup_insert_ne|done]. }
    destruct HP as (ps & Hfold & Hps); [done|].
    change (map_fold body (Ok ∅) m = Ok ps) in Hfold. 
    replace (map_fold _ (Ok ∅) m) with (Ok ps : result (gmap string value)).
    cbn [rbind]. eexists. split; [done|].
    intros [|k rest]; cbn [proc_at mbind option_bind get_in].
    + split; [done|]. split; [done|]. intros m' [= <-]. exists ps. split; [done|].
      intros k Hk. specialize (Hps k). destruct (m !! k); [done|].
      rewrite Hps in Hk. by destruct Hk.
    + specialize (Hps k). destruct (m !! k) as [x|]; cbn [mbind option_bind].
      * destruct Hps as (bound & _ & -> & Hmir). apply (Hmir rest).
      * rewrite Hps. done.
  - exists None. split; [done|].
    intros [|k rest]; cbn [proc_at]; done.
Qed.

(** [_get_parameters] on a dictionary of known processes returns a tree of
    the same shape: at the key path of a process it holds the process's
    parameters, at the key path of a dictionary a dictionary with no other
    keys, and a value that is neither is left out with its key. *)
Theorem get_parameters_mirrors (σ : gmap nat Process.t)
    (processes : gmap string ptree) :
  known (dom σ) (PDict processes) →
  ∃ parameters, _get_parameters σ (Some processes) = Ok parameters
    ∧ (∀ path pid, proc_at (PDict processes) path = Some (PProc pid) →
         ∃ self, σ !! pid = Some self
                 ∧ get_in (VDict parameters) path
                   = Some (VDict (Process.parameters self)))
    ∧ (∀ path, proc_at (PDict processes) path = Some POther →
         get_in (VDict parameters) path = None)
    ∧ (∀ path m, proc_at (PDict processes) path = Some (PDict m) →
         ∃ r, get_in (VDict parameters) path = Some (VDict r)
              ∧ ∀ k, is_Some (r !! k) → is_Some (m !! k)).
Proof.
  intros Hknown.
  destruct (get_parameters_value_mirrors σ (PDict processes) Hknown)
    as (bound & Hb & Hmir).
  rewrite get_parameters_value_dict in Hb.
  destruct (_get_parameters σ (Some processes)) as [e|parameters]; [done|].
  injection Hb as <-. exists parameters. split; [done|].
  split; [|split].
  - intros path pid Hp. by destruct (Hmir path) as (H1 & _ & _); apply H1.
  - intros path Hp. by destruct (Hmir path) as (_ & H2 & _); apply H2.
  - intros path m Hp. by destruct (Hmir path) as (_ & _ & H3); apply H3.
Qed.

Lemma agents_known : known (dom agents_store) (PDict agents_processes).
Proof.
  unfold agents_processes, agents_store.
  apply known_dict. intros k x [<- <-]%lookup_singleton_Some.
  apply known_dict. intros k x [<- <-]%lookup_singleton_Some.
  apply known_proc. rewrite dom_singleton_L. by apply elem_of_singleton.
Qed.

Lemma get_parameters_mirrors_witness :
  known (dom agents_store) (PDict agents_processes)
  ∧ ∃ parameters,
      _get_parameters agents_store (Some agents_processes) = Ok parameters
      ∧ (∀ path pid,
           proc_at (PDict agents_processes) path = Some (PProc pid) →
           ∃ self, agents_store !! pid = Some self
                   ∧ get_in (VDict parameters) path
                     = Some (VDict (Process.parameters self)))
      ∧ (∀ path, proc_at (PDict agents_processes) path = Some POther →
           get_in (VDict parameters) path = None)
      ∧ (∀ path m, proc_at (PDict agents_processes) path = Some (PDict m) →
           ∃ r, get_in (VDict parameters) path = Some (VDict r)
                ∧ ∀ k, is_Some (r !! k) → is_Some (m !! k)).
Proof.
  split; [exact agents_known|].
  exact (get_parameters_mirrors agents_store agents_processes agents_known).
Defined.

(** ** What the walk of the overrides leaves alone *)



(** The parameters of the parent hold the set of its children: they are
    the same dictionary object after the walk, and through it they hold
    the override that was pushed down to the first child. *)
Example siblings_parent_parameters :
  Shared.heap_of Shared.siblings_after !! 2%positive
  = Shared.heap_of Shared.siblings_store !! 2%positive
  ∧ Shared.heap_of Shared.siblings_after !! 1%positive
    ≠ Shared.heap_of Shared.siblings_store !! 1%positive.
Proof.
  split; [reflexivity|]. intros H.
  apply (f_equal (λ d, d ≫= (λ d, d !! "port"))) in H. vm_compute in H.
  discriminate.
Qed.

(** ** A process generated with schema overrides *)

(** [Process.generate] hands [_override_schemas] the schema overrides of
    the process, which are keyed by its ports, and the processes
    [generate_processes] returns, which are the process under the name it
    is generated with.  So for a process that has schema overrides, none
    under that name, the walk raises [KeyError] on a key of the overrides,
    before any override is merged: the process is not generated. *)
Theorem generate_with_overrides_raises (σ : gmap nat Process.t)
    (self : Process.t) (pid : nat) (name : string) (so : gmap string value) :
  Process.schema_override self = VDict so →
  so ≠ ∅ →
  so !! name = None →
  ∃ key, is_Some (so !! key)
         ∧ _override_schemas (Process.schema_override self)
             {[ name := PProc pid ]} σ
           = Raise (KeyError key).
Proof.
  intros -> Hne Hname. rewrite override_schemas_unfold.
  set (Q := λ (r : result (gmap nat Process.t)) (m : gmap string value),
    m !! name = None →
    (m = ∅ ∧ r = Ok σ)
    ∨ (∃ key, is_Some (m !! key) ∧ r = Raise (KeyError key))).
  assert (Q (map_fold (override_step {[ name := PProc pid ]}) (Ok σ) so) so)
    as HQ.
  { apply map_fold_weak_ind; unfold Q; clear Q.
    - intros _. by left.
    - intros i x m r Hi IH Hm. right.
      assert (i ≠ name) as Hin.
      { intros ->. by rewrite lookup_insert_eq in Hm. }
      rewrite lookup_insert_ne in Hm by done.
      destruct (IH Hm) as [[-> ->]|(key & Hkey & ->)].
      + exists i. rewrite lookup_insert_eq. split; [by eexists|].
        unfold override_step. cbn [rbind].
        by rewrite lookup_singleton_ne.
      + exists key. split; [|done].
        rewrite lookup_insert_ne; [done|]. intros ->.
        rewrite Hi in Hkey. by destruct Hkey. }
  destruct (HQ Hname) as [[-> _]|H]; done.
Qed.

Lemma generate_with_overrides_raises_witness :
  Process.schema_override overridden_division
    = VDict {[ "global" := VDict {[ "divide" := VDict
                 {[ "_default" := VBool true ]} ]} ]}
  ∧ ({[ "global" := VDict {[ "divide" := VDict
          {[ "_default" := VBool true ]} ]} ]} : gmap string value) ≠ ∅
  ∧ ({[ "global" := VDict {[ "divide" := VDict
          {[ "_default" := VBool true ]} ]} ]} : gmap string value)
      !! "meta_division" = None
  ∧ ∃ key,
      is_Some (({[ "global" := VDict {[ "divide" := VDict
                     {[ "_default" := VBool true ]} ]} ]}
                  : gmap string value) !! key)
      ∧ _override_schemas (Process.schema_override overridden_division)
          {[ "meta_division" := PProc 0 ]} {[ 0%nat := overridden_division ]}
        = Raise (KeyError key).
Proof.
  assert (Process.schema_override overridden_division
          = VDict {[ "global" := VDict {[ "divide" := VDict
                       {[ "_default" := VBool true ]} ]} ]}) as Hso
    by (by vm_compute).
  assert (({[ "global" := VDict {[ "divide" := VDict
               {[ "_default" := VBool true ]} ]} ]} : gmap string value) ≠ ∅)
    as Hne by (by apply insert_non_empty).
  split; [exact Hso|]. split; [exact Hne|].
  split; [reflexivity|].
  exact (generate_with_overrides_raises {[ 0%nat := overridden_division ]}
           overridden_division 0 "meta_division" _ Hso Hne eq_refl).
Defined.

(** ** Ports *)

Lemma ports_fold (ps : gmap string value) :
  map_fold (λ port states (acc : result (gmap string (list string))),
      ports ←! acc;
      match states with
      | VDict states => Ok (<[port := (map_to_list states).*1]> ports)
      | _ => Raise AttributeError
      end) (Ok ∅) ps
  = if decide (map_Forall (λ _ states, is_dict states = true) ps)
    then Ok (omap keys_of ps) else Raise AttributeError.
Proof.
  set (body := λ (port : string) (states : value)
                 (acc : result (gmap string (list string))),
      rbind acc (λ ports,
        match states with
        | VDict states => Ok (<[port := (map_to_list states).*1]> ports)
        | _ => Raise AttributeError
        end)).
  set (P := λ (r : result (gmap string (list string))) (m : gmap string value),
    r = if decide (map_Forall (λ _ states, is_dict states = true) m)
        then Ok (omap keys_of m) else Raise AttributeError).
  change (P (map_fold body (Ok ∅) ps) ps).
  apply map_fold_weak_ind; unfold P; clear P.
  - rewrite decide_True by apply map_Forall_empty. by rewrite omap_empty.
  - intros port states m r Hport ->. unfold body.
    destruct (decide (map_Forall _ m)) as [Hm|Hm]; cbn [rbind].
    + destruct states as [a|l|states].
      * rewrite decide_False; [done|].
        intros H. by specialize (H port _ (lookup_insert_eq _ _ _)).
      * rewrite decide_False; [done|].
        intros H. by specialize (H port _ (lookup_insert_eq _ _ _)).
      * rewrite decide_True by (by apply map_Forall_insert).
        by erewrite omap_insert_Some.
    + rewrite decide_False; [done|].
      intros H. apply map_Forall_insert in H as [_ H]; done.
Qed.

(** [ports()] returns exactly when every port of [ports_schema()] has a
    dictionary of states, and then lists the ports of the schema and no
    other, each with the keys of its states, once each; otherwise it
    raises [AttributeError]. *)
Theorem ports_lists_the_schema (cls : Process.class) (self : Process.t)
    (ps : gmap string value) :
  Process.ports_schema cls self = VDict ps →
  match ProcessPorts.ports cls self with
  | inr r =>
      ∀ port,
        match ps !! port with
        | None => r !! port = None
        | Some st =>
            ∃ states l, st = VDict states ∧ r !! port = Some l ∧ NoDup l
                        ∧ ∀ var, var ∈ l ↔ is_Some (states !! var)
        end
  | inl e =>
      e = AttributeError
      ∧ ∃ port st, ps !! port = Some st ∧ is_dict st = false
  end.
Proof.
  intros Hps. unfold ProcessPorts.ports. rewrite Hps, ports_fold.
  destruct (decide (map_Forall _ ps)) as [Hall|Hnot].
  - intros port. rewrite lookup_omap.
    destruct (ps !! port) as [st|] eqn:Hst; [|done].
    specialize (Hall port st Hst). destruct st as [a|l|states]; try done.
    exists states, (map_to_list states).*1. split; [done|]. split; [done|].
    split; [apply NoDup_fst_map_to_list|].
    intros var. rewrite list_elem_of_fmap. split.
    + intros [[k v] [-> Hkv]]. apply elem_of_map_to_list in Hkv. by exists v.
    + intros [v Hv]. exists (var, v). split; [done|]. by apply elem_of_map_to_list.
  - split; [done|]. apply map_not_Forall in Hnot; [|apply _].
    destruct Hnot as (port & st & Hst & Hd). exists port, st. split; [done|].
    by destruct (is_dict st).
Qed.

Lemma ports_lists_the_schema_witness :
  Process.ports_schema MetaDivision (Process.__init__ MetaDivision None)
  = VDict MetaDivision_schema
  ∧ match ProcessPorts.ports MetaDivision (Process.__init__ MetaDivision None) with
    | inr r =>
        ∀ port,
          match MetaDivision_schema !! port with
          | None => r !! port = None
          | Some st =>
              ∃ states l, st = VDict states ∧ r !! port = Some l ∧ NoDup l
                          ∧ ∀ var, var ∈ l ↔ is_Some (states !! var)
          end
    | inl e =>
        e = AttributeError
        ∧ ∃ port st, MetaDivision_schema !! port = Some st ∧ is_dict st = false
    end.
Proof.
  split; [reflexivity|].
  exact (ports_lists_the_schema MetaDivision (Process.__init__ MetaDivision None)
           MetaDivision_schema eq_refl).
Defined.

(** When the instance has no schema overrides, [default_state()] returning
    a state means that [ports()] returns too, and every variable the state
    gives a value to is a variable [ports()] lists under the same port. *)
Theorem default_state_within_ports (cls : Process.class) (self : Process.t)
    (state : Process.State) :
  Process.schema_override self = VDict ∅ →
  Process.default_state cls self = Ok state →
  ∃ r, ProcessPorts.ports cls self = Ok r
       ∧ ∀ port vars var x,
           state !! port = Some vars → vars !! var = Some x →
           ∃ l, r !! port = Some l ∧ var ∈ l.
Proof.
  intros Hso Hds.
  destruct (Process.ports_schema cls self) as [a|l|ps] eqn:Hps.
  1,2: by unfold Process.default_state, Process.get_schema, deepcopy in Hds;
       rewrite Hps in Hds.
  pose proof (get_schema_combined cls self ps ∅ Hps Hso) as Hs.
  rewrite deep_merge_empty_r in Hs.
  pose proof (default_state_returns cls self ps state Hs Hds) as Hok.
  rewrite (default_state_ok cls self ps Hs Hok) in Hds. injection Hds as <-.
  unfold ProcessPorts.ports. rewrite Hps, ports_fold.
  rewrite decide_True.
  2:{ intros port st Hst. specialize (Hok port st Hst). by destruct st. }
  eexists. split; [done|]. intros port vars var x Hport Hvar.
  rewrite lookup_omap in Hport. rewrite lookup_omap.
  destruct (ps !! port) as [st|]; [|done]. cbn [mbind option_bind] in *.
  destruct st as [a|l|states]; try done. cbn [port_defaults] in Hport.
  destruct (decide _); [done|]. injection Hport as <-.
  rewrite lookup_omap in Hvar.
  destruct (states !! var) as [e|] eqn:He; [|done].
  eexists. split; [done|]. apply list_elem_of_fmap. exists (var, e).
  split; [done|]. by apply elem_of_map_to_list.
Qed.

Lemma default_state_within_ports_witness :
  Process.schema_override (Process.__init__ MetaDivision None) = VDict ∅
  ∧ Process.default_state MetaDivision (Process.__init__ MetaDivision None)
    = Ok {[ "global" := {[ "divide" := VBool false ]} ]}
  ∧ ∃ r, ProcessPorts.ports MetaDivision (Process.__init__ MetaDivision None) = Ok r
         ∧ ∀ port vars var x,
             ({[ "global" := {[ "divide" := VBool false ]} ]} : Process.State)
               !! port = Some vars →
             vars !! var = Some x →
             ∃ l, r !! port = Some l ∧ var ∈ l.
Proof.
  assert (Process.default_state MetaDivision (Process.__init__ MetaDivision None)
          = Ok {[ "global" := {[ "divide" := VBool false ]} ]}) as Hds
    by (by vm_compute).
  split; [by vm_compute|]. split; [exact Hds|].
  exact (default_state_within_ports MetaDivision
           (Process.__init__ MetaDivision None) _ ltac:(by vm_compute) Hds).
Defined.

(** ** Any requester on the parallel adapter *)

Section AdapterRuns.
Import ParallelProcess.

Context {W : Wrapped}.

Lemma before_sentinel_app a b :
  no_sentinel a → before_sentinel (a ++ b) = a ++ before_sentinel b.
Proof.
  induction 1 as [|msg a Hmsg _ IH]; [done|].
  cbn [app before_sentinel]. by rewrite Hmsg, IH.
Qed.

Lemma before_sentinel_stop a msg b :
  no_sentinel a → eq_minus_one msg.1 = true →
  before_sentinel (a ++ msg :: b) = a.
Proof.
  intros Ha Hmsg. rewrite before_sentinel_app by done.
  cbn [before_sentinel]. by rewrite Hmsg, app_nil_r.
Qed.

Lemma before_sentinel_snoc l msg :
  before_sentinel (l ++ [msg])
  = if existsb (λ msg, eq_minus_one msg.1) l || eq_minus_one msg.1
    then before_sentinel l else before_sentinel l ++ [msg].
Proof.
  induction l as [|m l IH]; cbn [app before_sentinel existsb orb].
  - by destruct (eq_minus_one msg.1).
  - destruct (eq_minus_one m.1); cbn [orb]; [done|].
    rewrite IH. by destruct (_ || _).
Qed.

Lemma in_order_init p0 prog :
  in_order p0 prog {| sys_of := __init__ p0; program := prog; collected := [] |}.
Proof.
  unfold in_order, replies.
  cbn [sys_of program collected __init__ status to_child to_parent process
       calls app direct fst snd length].
  split; [by exists []|]. split; [constructor|]. done.
Qed.

Lemma in_order_step p0 prog c c' :
  in_order p0 prog c → step c c' → in_order p0 prog c'.
Proof.
  unfold in_order, replies.
  intros ((stop & Hsent & Hstop) & Hcalls & Hrep & Hproc & Hlen) Hstep.
  destruct Hstep as [s s' prog' outs Hw | s msg prog' outs
                    | s u rest prog' outs Hu | s prog' outs Hclosed];
    cbn [sys_of program collected send received status to_child to_parent
         process calls sends recvs] in *.
  - unfold _run_update in Hw. destruct (status s) eqn:Hst; [| |done].
    + subst stop. destruct (to_child s) as [|[interval states] rest]; [done|].
      destruct (eq_minus_one interval) eqn:Hi.
      * injection Hw as <-. cbn [status to_child to_parent process calls].
        split; [|done]. exists [(interval, states)]. split; [done|]. by eexists.
      * destruct (next_update (process s) interval states) as [u p] eqn:Hnu.
        injection Hw as <-. cbn [status to_child to_parent process calls].
        rewrite direct_app, direct_cons, <- Hproc, Hnu.
        cbn [fst snd direct]. rewrite <- Hrep.
        split; [|split; [|split; [|done]]].
        -- exists []. split; [|done]. by rewrite <- app_assoc.
        -- apply Forall_app. split; [done|]. by constructor.
        -- by rewrite <- !app_assoc.
    + injection Hw as <-. cbn [status to_child to_parent process calls].
      split; [|done]. exists stop. done.
  - split; [|done]. exists stop. split; [|done]. by rewrite <- !app_assoc.
  - rewrite Hu in Hrep. rewrite <- app_assoc. cbn [app].
    split; [by exists stop|]. split; [done|]. split; [done|]. split; [done|].
    rewrite length_app. cbn [length]. lia.
  - split; [by exists stop|]. done.
Qed.

Lemma in_order_rtc p0 prog c c' :
  in_order p0 prog c → rtc step c c' → in_order p0 prog c'.
Proof. intros Hc Hsteps. induction Hsteps; eauto using in_order_step. Qed.

(** Whatever the requester does, and however the worker's turns fall: the
    worker serves the requests in the order they were sent, none twice and
    none left out, up to the first whose interval equals -1 and none after
    it; its replies are the updates of calling [next_update] directly on
    the requests served, and its process is in the state those calls leave
    it in. *)
Theorem worker_serves_in_order (p0 : PS) (prog : list action) (c : config) :
  rtc step {| sys_of := __init__ p0; program := prog; collected := [] |} c →
  calls (sys_of c) `prefix_of` before_sentinel (sends prog)
  ∧ (status (sys_of c) ≠ Running →
     calls (sys_of c) = before_sentinel (sends prog))
  ∧ replies c = (direct p0 (calls (sys_of c))).1
  ∧ process (sys_of c) = (direct p0 (calls (sys_of c))).2.
Proof.
  intros Hrun.
  destruct (in_order_rtc p0 prog _ c (in_order_init p0 prog) Hrun)
    as ((stop & Hsent & Hstop) & Hcalls & Hrep & Hproc & _).
  split; [|split; [|done]]; rewrite <- Hsent.
  - destruct (status (sys_of c)).
    + subst stop. cbn [app]. rewrite before_sentinel_app by done.
      by apply prefix_app_r.
    + destruct Hstop as (msg & -> & Hmsg). cbn [app].
      by rewrite before_sentinel_stop.
    + destruct Hstop as (msg & -> & Hmsg). cbn [app].
      by rewrite before_sentinel_stop.
  - intros Hst. destruct (status (sys_of c)); [done| |].
    + destruct Hstop as (msg & -> & Hmsg). cbn [app].
      by rewrite before_sentinel_stop.
    + destruct Hstop as (msg & -> & Hmsg). cbn [app].
      by rewrite before_sentinel_stop.
Qed.

(** Whatever the requester does: the updates [get] has returned so far are
    the first updates of the direct calls for the requests sent before the
    first sentinel, one for each [get] done: the k-th [get] returns the
    update of the k-th request, also when several requests are sent before
    the first [get]. *)
Theorem gets_follow_requests (p0 : PS) (prog : list action) (c : config) :
  rtc step {| sys_of := __init__ p0; program := prog; collected := [] |} c →
  collected c
  = take (recvs prog - recvs (program c))
      (direct p0 (before_sentinel (sends prog))).1.
Proof.
  intros Hrun.
  destruct (in_order_rtc p0 prog _ c (in_order_init p0 prog) Hrun)
    as ((stop & Hsent & Hstop) & Hcalls & Hrep & Hproc & Hlen).
  assert (∃ k, before_sentinel (sends prog) = calls (sys_of c) ++ k) as [k ->].
  { rewrite <- Hsent. destruct (status (sys_of c)).
    - subst stop. cbn [app]. rewrite before_sentinel_app by done. by eexists.
    - destruct Hstop as (msg & -> & Hmsg). cbn [app].
      rewrite before_sentinel_stop by done. exists []. by rewrite app_nil_r.
    - destruct Hstop as (msg & -> & Hmsg). cbn [app].
      rewrite before_sentinel_stop by done. exists []. by rewrite app_nil_r. }
  rewrite direct_app. cbn [fst]. rewrite <- Hrep. unfold replies.
  replace (recvs prog - recvs (program c)) with (length (collected c)) by lia.
  by rewrite <- app_assoc, take_app_length.
Qed.

Lemma can_return_step c c' : step c c' → can_return c = can_return c'.
Proof.
  intros Hstep. unfold can_return, outstanding, stopping.
  destruct Hstep as [s s' prog outs Hw | s msg prog outs
                    | s u rest prog outs Hu | s prog outs Hclosed];
    cbn [sys_of program collected send received status to_child to_parent
         process calls] in *.
  - unfold _run_update in Hw. destruct (status s) eqn:Hst; [| |done].
    + destruct (to_child s) as [|[interval states] rest]; [done|].
      destruct (eq_minus_one interval) eqn:Hi.
      * injection Hw as <-. cbn [status to_child to_parent process calls
          before_sentinel existsb fst length]. by rewrite Hi.
      * destruct (next_update (process s) interval states) as [u p] eqn:Hnu.
        injection Hw as <-. cbn [status to_child to_parent process calls
          before_sentinel existsb fst length]. rewrite Hi. cbn [orb length].
        rewrite length_app. cbn [length]. f_equal. lia.
    + injection Hw as <-.
      by cbn [status to_child to_parent process calls].
  - cbn [returns]. destruct (status s); cbn [orb]; [|done|done].
    rewrite existsb_app, before_sentinel_snoc. cbn [existsb].
    rewrite orb_false_r.
    destruct (existsb _ (to_child s) || eq_minus_one msg.1); [done|].
    rewrite length_app. cbn [length]. f_equal. lia.
  - rewrite Hu. cbn [length Nat.add returns]. done.
  - rewrite Hclosed. cbn [returns andb]. done.
Qed.

Lemma can_return_rtc c c' : rtc step c c' → can_return c = can_return c'.
Proof.
  intros Hsteps. induction Hsteps as [c|c c1 c' Hstep _ IH]; [done|].
  by rewrite (can_return_step c c1 Hstep).
Qed.

(** The worker's own turns empty the pipe or take the worker to its end. *)
Lemma worker_drains q : ∀ s prog outs,
  to_child s = q →
  ∃ s', rtc step {| sys_of := s; program := prog; collected := outs |}
                 {| sys_of := s'; program := prog; collected := outs |}
        ∧ (status s' = Closed ∨ (status s' = Running ∧ to_child s' = [])).
Proof.
  induction q as [|[interval states] q IH]; intros s prog outs Hq.
  - destruct (status s) eqn:Hst.
    + exists s. split; [done|]. by right.
    + exists (closed_of s). split; [|by left].
      apply rtc_once, step_worker. unfold _run_update. by rewrite Hst.
    + exists s. split; [done|]. by left.
  - destruct (status s) eqn:Hst.
    + destruct (_run_update s) as [s1|] eqn:Hw.
      2:{ unfold _run_update in Hw. rewrite Hst, Hq in Hw.
          destruct (eq_minus_one interval); [done|].
          by destruct (next_update (process s) interval states). }
      assert (to_child s1 = q) as Hq1.
      { unfold _run_update in Hw. rewrite Hst, Hq in Hw.
        destruct (eq_minus_one interval); [by injection Hw as <-|].
        destruct (next_update (process s) interval states).
        by injection Hw as <-. }
      destruct (IH s1 prog outs Hq1) as (s' & Hsteps & Hs').
      exists s'. split; [|done].
      eapply rtc_l; [by apply step_worker|done].
    + exists (closed_of s). split; [|by left].
      apply rtc_once, step_worker. unfold _run_update. by rewrite Hst.
    + exists s. split; [done|]. by left.
Qed.

Lemma can_return_completes prog : ∀ s outs,
  can_return {| sys_of := s; program := prog; collected := outs |} = true →
  ∃ c, rtc step {| sys_of := s; program := prog; collected := outs |} c
       ∧ program c = [].
Proof.
  induction prog as [|a prog IH]; intros s outs Hcan.
  - by eexists.
  - destruct (worker_drains (to_child s) s (a :: prog) outs eq_refl)
      as (s' & Hdrain & Hs').
    rewrite (can_return_rtc _ _ Hdrain) in Hcan.
    assert (∃ c1, step {| sys_of := s'; program := a :: prog; collected := outs |} c1
                  ∧ program c1 = prog) as (c1 & Hstep & Hprog).
    { destruct a as [msg| |].
      - eexists. split; [apply step_send|done].
      - unfold can_return, outstanding in Hcan.
        cbn [sys_of program returns] in Hcan.
        destruct (to_parent s') as [|u rest] eqn:Hu.
        + destruct Hs' as [Hc|[Hr He]].
          * by rewrite Hc in Hcan.
          * by rewrite Hr, He in Hcan.
        + eexists. split; [by apply step_recv|done].
      - unfold can_return, stopping in Hcan.
        cbn [sys_of program returns] in Hcan.
        destruct Hs' as [Hcl|[Hr He]].
        + eexists. split; [by apply step_join|done].
        + by rewrite Hr, He in Hcan. }
    rewrite (can_return_step _ _ Hstep) in Hcan.
    destruct c1 as [s1 prog1 outs1]. cbn [program] in Hprog. subst prog1.
    destruct (IH s1 outs1 Hcan) as (c & Hsteps & Hdone).
    exists c. split; [|done].
    etrans; [exact Hdrain|]. eapply rtc_l; [exact Hstep|exact Hsteps].
Qed.

(** The requesters that can run to their end are those whose every [get]
    has an update requested before it (and before any [end]) that no
    earlier [get] has taken, and whose every [join] comes after the
    sentinel was sent; any other requester waits for ever, however the
    worker's turns fall.  (The pipe is one that takes whatever is sent:
    a [send] never waits.) *)
Theorem requester_returns_iff (p0 : PS) (prog : list action) :
  (∃ c, rtc step {| sys_of := __init__ p0; program := prog; collected := [] |} c
        ∧ program c = [])
  ↔ returns 0 false prog = true.
Proof.
  change (returns 0 false prog)
    with (can_return {| sys_of := __init__ p0; program := prog; collected := [] |}).
  split.
  - intros (c & Hrun & Hdone). rewrite (can_return_rtc _ _ Hrun).
    unfold can_return. by rewrite Hdone.
  - apply can_return_completes.
Qed.

End AdapterRuns.

(** A run of the pipelined requester on the counting process. *)
Lemma pipelined_run :
  rtc (ParallelProcess.step (W := ParallelProcess.counting_process))
    {| ParallelProcess.sys_of :=
         ParallelProcess.__init__ (W := ParallelProcess.counting_process) 0%nat;
       ParallelProcess.program := pipelined;
       ParallelProcess.collected := [] |}
    pipelined_end.
Proof.
  unfold pipelined, pipelined_end, ParallelProcess.update, ParallelProcess.get.
  cbn [app].
  eapply rtc_l; [apply ParallelProcess.step_send|].
  eapply rtc_l; [apply ParallelProcess.step_send|].
  eapply rtc_l; [apply ParallelProcess.step_worker; reflexivity|].
  eapply rtc_l; [apply ParallelProcess.step_recv; reflexivity|].
  eapply rtc_l; [apply ParallelProcess.step_worker; reflexivity|].
  eapply rtc_l; [apply ParallelProcess.step_recv; reflexivity|].
  eapply rtc_l; [apply ParallelProcess.step_send|].
  eapply rtc_l; [apply ParallelProcess.step_send|].
  eapply rtc_l; [apply ParallelProcess.step_worker; reflexivity|].
  reflexivity.
Qed.

Lemma worker_serves_in_order_witness :
  rtc (ParallelProcess.step (W := ParallelProcess.counting_process))
    {| ParallelProcess.sys_of :=
         ParallelProcess.__init__ (W := ParallelProcess.counting_process) 0%nat;
       ParallelProcess.program := pipelined;
       ParallelProcess.collected := [] |}
    pipelined_end
  ∧ ParallelProcess.calls (ParallelProcess.sys_of pipelined_end)
      `prefix_of` before_sentinel (ParallelProcess.sends pipelined)
  ∧ (ParallelProcess.status (ParallelProcess.sys_of pipelined_end)
       ≠ ParallelProcess.Running →
     ParallelProcess.calls (ParallelProcess.sys_of pipelined_end)
     = before_sentinel (ParallelProcess.sends pipelined))
  ∧ ParallelProcess.replies pipelined_end
    = (ParallelProcess.direct (W := ParallelProcess.counting_process) 0%nat
         (ParallelProcess.calls (ParallelProcess.sys_of pipelined_end))).1
  ∧ ParallelProcess.process (ParallelProcess.sys_of pipelined_end)
    = (ParallelProcess.direct (W := ParallelProcess.counting_process) 0%nat
         (ParallelProcess.calls (ParallelProcess.sys_of pipelined_end))).2.
Proof.
  split; [exact pipelined_run|].
  exact (worker_serves_in_order (W := ParallelProcess.counting_process)
           0%nat pipelined pipelined_end pipelined_run).
Defined.

Lemma gets_follow_requests_witness :
  rtc (ParallelProcess.step (W := ParallelProcess.counting_process))
    {| ParallelProcess.sys_of :=
         ParallelProcess.__init__ (W := ParallelProcess.counting_process) 0%nat;
       ParallelProcess.program := pipelined;
       ParallelProcess.collected := [] |}
    pipelined_end
  ∧ ParallelProcess.collected pipelined_end
    = take (ParallelProcess.recvs pipelined
            - ParallelProcess.recvs (ParallelProcess.program pipelined_end))
        (ParallelProcess.direct (W := ParallelProcess.counting_process) 0%nat
           (before_sentinel (ParallelProcess.sends pipelined))).1.
Proof.
  split; [exact pipelined_run|].
  exact (gets_follow_requests (W := ParallelProcess.counting_process)
           0%nat pipelined pipelined_end pipelined_run).
Defined.

(** ** Command-line options and the experiments library *)

Section OptionsFacts.
Import Control.

Context {B : Builtins}.

Lemma split_once_no_eq a : has_char eq_sign a = false → split_once a = [a].
Proof.
  induction a as [|c a IH]; [done|]. cbn [has_char split_once].
  intros [Hc Ha]%orb_false_iff. by rewrite Hc, (IH Ha).
Qed.

Lemma split_once_assignment key v :
  has_char eq_sign key = false →
  split_once (key +:+ String eq_sign v) = [key; v].
Proof.
  induction key as [|c key IH]; cbn [has_char].
  - intros _. change ("" +:+ String eq_sign v) with (String eq_sign v).
    cbn [split_once]. by rewrite Ascii.eqb_refl.
  - intros [Hc Hk]%orb_false_iff.
    change (String c key +:+ String eq_sign v)
      with (String c (key +:+ String eq_sign v)).
    cbn [split_once]. by rewrite Hc, (IH Hk).
Qed.

Lemma option_value_not_false s x : option_value s = Ok x → x ≠ ABool false.
Proof.
  unfold option_value. destruct (isdigit s).
  { destruct (int s); [|done]. by intros [= <-]. }
  destruct (is_float s).
  { destruct (float s); [|done]. by intros [= <-]. }
  case_bool_decide as Hin; [|by intros [= <-]].
  intros [= <-]. apply elem_of_cons in Hin as [->|Hin]; [done|].
  apply list_elem_of_singleton in Hin as ->. done.
Qed.

Lemma parse_options_unfold assignments acc :
  fold_left (λ acc p,
      bind acc (λ options,
        match p with
        | key :: str_value :: _ =>
            bind (option_value str_value) (λ value,
              Ok (<[key := value]> options))
        | _ => Raise IndexError
        end))
    ((λ a, split_once a ++ [EmptyString]) <$> assignments) (Raise acc)
  = (Raise acc : error Empty_set + gmap string atom).
Proof. induction assignments as [|a l IH]; [done|]. cbn. apply IH. Qed.

(** [_parse_options] never gives an option the value [False]: the texts
    ['True'] and ['False'] both become [True]. *)
Theorem parse_options_never_false (options_list : option (list string))
    (options : gmap string atom) (key : string) :
  _parse_options options_list = Ok options →
  options !! key ≠ Some (ABool false).
Proof.
  unfold _parse_options.
  assert (∀ (o : gmap string atom), (∅ : gmap string atom) = o →
            o !! key ≠ Some (ABool false)) as Hinit.
  { intros o <-. by rewrite lookup_empty. }
  revert Hinit. generalize (∅ : gmap string atom) as init.
  induction (default [] options_list) as [|a l IH]; intros init Hinit.
  - cbn. intros [= <-]. by apply Hinit.
  - cbn [fmap list_fmap fold_left bind].
    destruct (split_once a ++ [EmptyString]) as [|k [|s tl]];
      try by rewrite parse_options_unfold.
    destruct (option_value s) as [e|x] eqn:Hx; cbn [bind].
    { by rewrite parse_options_unfold. }
    apply IH. intros o <-. destruct (decide (k = key)) as [->|Hne].
    + rewrite lookup_insert_eq. intros [= ->]. by eapply option_value_not_false.
    + rewrite lookup_insert_ne by done. by apply Hinit.
Qed.

Lemma parse_options_snoc args a :
  _parse_options (Some (args ++ [a]))
  = bind (_parse_options (Some args)) (λ options,
      match split_once a ++ [EmptyString] with
      | key :: str_value :: _ =>
          bind (option_value str_value) (λ value, Ok (<[key := value]> options))
      | _ => Raise IndexError
      end).
Proof.
  unfold _parse_options. cbn [default from_option id].
  by rewrite fmap_app, fold_left_app.
Qed.

(** An assignment is cut at its first ['=']: the text before it is the
    key, all the text after it the value, and an assignment with no ['=']
    has the empty text for its value.  The last assignment to a key is the
    one that counts. *)
Theorem parse_options_last_assignment (args : list string) (key v : string) :
  has_char eq_sign key = false →
  _parse_options (Some (args ++ [key +:+ String eq_sign v]))
  = bind (_parse_options (Some args)) (λ options,
      bind (option_value v) (λ value, Ok (<[key := value]> options)))
  ∧ _parse_options (Some (args ++ [key]))
    = bind (_parse_options (Some args)) (λ options,
        bind (option_value "") (λ value, Ok (<[key := value]> options))).
Proof.
  intros Hkey. rewrite !parse_options_snoc.
  by rewrite split_once_assignment, split_once_no_eq.
Qed.

End OptionsFacts.

Example parse_options_sample :
  Control._parse_options (B := Control.digits_only)
    (Some ["n=3"; "flag=False"; "path=a=b"; "n=12"; "quiet"])
  = Ok {[ "n" := AInt 12; "flag" := ABool true; "path" := AStr "a=b";
          "quiet" := AStr "" ]}.
Proof. by vm_compute. Qed.

Lemma parse_options_never_false_witness :
  Control._parse_options (B := Control.digits_only)
    (Some ["n=3"; "flag=False"; "path=a=b"; "n=12"; "quiet"])
  = Ok {[ "n" := AInt 12; "flag" := ABool true; "path" := AStr "a=b";
          "quiet" := AStr "" ]}
  ∧ ({[ "n" := AInt 12; "flag" := ABool true; "path" := AStr "a=b";
        "quiet" := AStr "" ]} : gmap string atom) !! "flag"
    ≠ Some (ABool false).
Proof.
  split; [exact parse_options_sample|].
  exact (parse_options_never_false (B := Control.digits_only)
           (Some ["n=3"; "flag=False"; "path=a=b"; "n=12"; "quiet"]) _ "flag"
           parse_options_sample).
Defined.

Lemma parse_options_last_assignment_witness :
  has_char eq_sign "path" = false
  ∧ Control._parse_options (B := Control.digits_only)
      (Some (["path=c"] ++ ["path" +:+ String eq_sign "a=b"]))
    = Control.bind (Control._parse_options (B := Control.digits_only)
                      (Some ["path=c"]))
        (λ options,
           Control.bind (Control.option_value (B := Control.digits_only) "a=b")
             (λ value, Ok (<["path" := value]> options)))
  ∧ Control._parse_options (B := Control.digits_only)
      (Some (["path=c"] ++ ["path"]))
    = Control.bind (Control._parse_options (B := Control.digits_only)
                      (Some ["path=c"]))
        (λ options,
           Control.bind (Control.option_value (B := Control.digits_only) "")
             (λ value, Ok (<["path" := value]> options))).
Proof.
  split; [reflexivity|].
  exact (parse_options_last_assignment (B := Control.digits_only)
           ["path=c"] "path" "a=b" eq_refl).
Defined.

Section LibraryFacts.
Import Control.

Context {X : Experiments}.


End LibraryFacts.


(** ** Deserialization *)

Section DeserializeFacts.
Import Deserialize.

Context {P : Pint}.

Lemma dsize_lookup m k x : m !! k = Some x → dsize x < dsize (DDict m).
Proof.
  cbn [dsize]. intros Hk. apply Nat.lt_succ_r. revert k x Hk.
  set (Q := λ (r : nat) (m : gmap string pyobj),
              ∀ k x, m !! k = Some x → dsize x ≤ r).
  change (Q (map_fold (λ _ x n, dsize x + n) 0 m) m).
  apply map_fold_weak_ind; unfold Q; clear Q.
  - intros k x. by rewrite lookup_empty.
  - intros i y m' r Hi IH k x. destruct (decide (i = k)) as [->|Hne].
    + rewrite lookup_insert_eq. intros [= ->]. lia.
    + rewrite lookup_insert_ne by done. intros Hk. specialize (IH k x Hk). lia.
Qed.

Lemma dsize_elem l x : x ∈ l → dsize x < dsize (DList l).
Proof.
  cbn [dsize]. intros Hx. apply Nat.lt_succ_r.
  induction Hx as [x l|x y l _ IH]; cbn [foldr]; lia.
Qed.

Lemma comprehension_id {A} (f : A → error + A) l :
  Forall (λ x, f x = Ok x) l → comprehension f l = Ok l.
Proof.
  induction 1 as [|x l Hx _ IH]; [done|].
  cbn [comprehension] in *. rewrite Hx. cbn [bind]. by rewrite IH.
Qed.

Lemma comprehension_ok {A B} (f : A → error + B) l : ∀ l',
  comprehension f l = Ok l' → Forall2 (λ x y, f x = Ok y) l l'.
Proof.
  induction l as [|x l IH]; intros l'; cbn [comprehension].
  - intros [= <-]. constructor.
  - destruct (f x) as [e|y] eqn:Hx; [done|]. cbn [bind].
    destruct (comprehension f l) as [e|l1] eqn:Hl; [done|]. cbn [bind].
    intros [= <-]. constructor; [done|]. by apply IH.
Qed.

Lemma items_id (f : pyobj → error + pyobj) (m : gmap string pyobj) :
  map_Forall (λ _ x, f x = Ok x) m →
  map_fold (λ key value acc,
      bind acc (λ m', bind (f value) (λ value', Ok (<[key := value']> m'))))
    (Ok ∅) m
  = Ok m.
Proof.
  set (body := λ (key : string) (value : pyobj) (acc : error + gmap string pyobj),
      bind acc (λ m', bind (f value) (λ value', Ok (<[key := value']> m')))).
  set (Q := λ (r : error + gmap string pyobj) (m : gmap string pyobj),
      map_Forall (λ _ x, f x = Ok x) m → r = Ok m).
  change (Q (map_fold body (Ok ∅) m) m).
  apply map_fold_weak_ind; unfold Q; clear Q.
  - done.
  - intros k x m' r Hk IH Hall. apply map_Forall_insert in Hall as [Hx Hall]; [|done].
    rewrite (IH Hall). unfold body. cbn [bind]. by rewrite Hx.
Qed.

Lemma items_ok (f : pyobj → error + pyobj) (m : gmap string pyobj) :
  ∀ m' : gmap string pyobj,
  map_fold (λ key value acc,
      bind acc (λ m', bind (f value) (λ value', Ok (<[key := value']> m'))))
    (Ok ∅) m
  = Ok m' →
  ∀ k y, m' !! k = Some y → ∃ x, m !! k = Some x ∧ f x = Ok y.
Proof.
  set (body := λ (key : string) (value : pyobj) (acc : error + gmap string pyobj),
      bind acc (λ m', bind (f value) (λ value', Ok (<[key := value']> m')))).
  set (Q := λ (r : error + gmap string pyobj) (m : gmap string pyobj),
      ∀ m', r = Ok m' →
            ∀ k y, m' !! k = Some y → ∃ x, m !! k = Some x ∧ f x = Ok y).
  change (Q (map_fold body (Ok ∅) m) m).
  apply map_fold_weak_ind; unfold Q; clear Q.
  - intros m' [= <-] k y. by rewrite lookup_empty.
  - intros i x m0 r Hi IH m'. unfold body. destruct r as [e|m1]; [done|].
    cbn [bind]. destruct (f x) as [e|x'] eqn:Hx; [done|]. cbn [bind].
    intros [= <-] k y. destruct (decide (i = k)) as [<-|Hne].
    + rewrite !lookup_insert_eq. intros [= <-]. by exists x.
    + rewrite !lookup_insert_ne by done. by apply IH.
Qed.

Lemma deserialize_value_eq registry value :
  deserialize_value registry value
  = match compatible_serializers registry value with
    | [] => Ok value
    | [serializer] =>
        match serializer with
        | SequenceDeserializer =>
            match value with
            | DList l =>
                bind (comprehension (deserialize_value registry) l)
                  (λ l', Ok (DList l'))
            | _ => Raise TypeError
            end
        | DictDeserializer =>
            match value with
            | DDict m =>
                bind (map_fold (λ key value acc,
                          bind acc (λ m',
                            bind (deserialize_value registry value)
                              (λ value', Ok (<[key := value']> m'))))
                        (Ok ∅) m)
                  (λ m', Ok (DDict m'))
            | _ => Raise AttributeError
            end
        | UnitsSerializer =>
            match value with
            | DAtom (AStr data) =>
                bind (units_deserialize data) (λ q, Ok (DQuantity q))
            | _ => Raise AttributeError
            end
        | Registered _ deserialize => deserialize value
        end
    | _ => Raise ValueError
    end.
Proof. by destruct value. Qed.

Lemma settled_returned registry : ∀ v,
  settled registry v → deserialize_value registry v = Ok v.
Proof.
  intros v. remember (dsize v) as n eqn:Hn. revert v Hn.
  induction n as [n IH] using lt_wf_ind. intros v -> Hv.
  rewrite deserialize_value_eq.
  destruct Hv as [v Hnone | l Hseq Hl | m Hdict Hm].
  - by rewrite Hnone.
  - rewrite Hseq. rewrite comprehension_id; [done|].
    apply Forall_forall. intros x Hx.
    apply (IH (dsize x)); [by apply dsize_elem|done|].
    by eapply Forall_forall in Hl.
  - rewrite Hdict. rewrite items_id; [done|].
    intros k x Hk. apply (IH (dsize x)); [by eapply dsize_lookup|done|].
    by apply (Hm k).
Qed.

(** A value in which no serializer of the registry can deserialize
    anything, the deserializers for lists and dictionaries apart, comes
    back as it is: the lists and dictionaries are built again from their
    own items. *)
Theorem deserialize_value_settled (registry : gmap string serializer)
    (value : pyobj) :
  settled registry value → deserialize_value registry value = Ok value.
Proof. apply settled_returned. Qed.

Lemma standard_settles registry :
  standard registry →
  ∀ v w, deserialize_value registry v = Ok w → settled registry w.
Proof.
  intros Hstd v. remember (dsize v) as n eqn:Hn. revert v Hn.
  induction n as [n IH] using lt_wf_ind. intros v -> w.
  rewrite deserialize_value_eq, (Hstd v).
  destruct v as [a|l|m|q].
  - destruct a as [|b|z|f|s];
      try (intros [= <-]; apply settled_leaf; by rewrite (Hstd _)).
    destruct (regex_for_serialized s) as [group|] eqn:Hre.
    + destruct (units_deserialize s) as [e|q]; [done|].
      cbn [bind]. intros [= <-]. apply settled_leaf. by rewrite (Hstd _).
    + intros [= <-]. apply settled_leaf. by rewrite (Hstd _), Hre.
  - destruct (comprehension (deserialize_value registry) l) as [e|l'] eqn:Hl;
      [done|].
    cbn [bind]. intros [= <-]. apply settled_list; [by rewrite (Hstd _)|].
    apply comprehension_ok in Hl.
    induction Hl as [|x y l l' Hxy _ IHl]; constructor.
    + apply (IH (dsize x)) with x; [|done|done].
      apply dsize_elem. by left.
    + apply IHl. intros k Hk. apply IH.
      cbn [dsize foldr] in *. lia.
  - match goal with
    | |- bind ?fold _ = _ → _ => destruct fold as [e|m'] eqn:Hm
    end; [done|].
    cbn [bind]. intros [= <-]. apply settled_dict; [by rewrite (Hstd _)|].
    intros k y Hy. destruct (items_ok _ _ _ Hm k y Hy) as (x & Hx & Hxy).
    apply (IH (dsize x)) with x; [by eapply dsize_lookup|done|done].
  - intros [= <-]. apply settled_leaf. by rewrite (Hstd _).
Qed.

(** With the deserializers of [serialize.py], what [deserialize_value]
    returns is deserialized for good: deserializing it again returns it
    as it is. *)
Theorem deserialize_value_idempotent (registry : gmap string serializer)
    (value deserialized : pyobj) :
  standard registry →
  deserialize_value registry value = Ok deserialized →
  deserialize_value registry deserialized = Ok deserialized.
Proof.
  intros Hstd Hv. apply settled_returned. by eapply standard_settles.
Qed.

Lemma without_prefix_app p s : without_prefix p (p +:+ s) = Some s.
Proof.
  induction p as [|a p IH]; [by destruct s|].
  change (String a p +:+ s) with (String a (p +:+ s)).
  cbn [without_prefix]. by rewrite Ascii.eqb_refl.
Qed.

Lemma without_last_snoc c s : without_last c (s +:+ String c "") = Some s.
Proof.
  induction s as [|a s IH].
  - change ("" +:+ String c "") with (String c "").
    cbn [without_last]. by rewrite Ascii.eqb_refl.
  - change (String a s +:+ String c "") with (String a (s +:+ String c "")).
    cbn [without_last]. rewrite IH.
    destruct (s +:+ String c "") eqn:Hs; [by destruct s|done].
Qed.

Lemma regex_for_serialized_serialized s :
  regex_for_serialized (serialized s)
  = if has_char newline s then None else Some s.
Proof.
  unfold regex_for_serialized, serialized.
  rewrite without_prefix_app.
  change "]" with (String closing_bracket "").
  by rewrite without_last_snoc.
Qed.

(** The text [UnitsSerializer.serialize] writes for a quantity or a unit,
    read by [deserialize_value] with the deserializers of [serialize.py]:
    what stands between the brackets is the text of [str(data)], whatever
    brackets that text has of its own, and pint reads it, so that the data
    are read back where pint reads [str(data)] back; but not always.
    When the text starts with [nan], as that of the unit nanometer does,
    these three characters are cut off and pint reads the rest: what comes
    back is not a number times that, and an error where pint does not read
    the rest.  When the text has a newline in it, the string is not
    recognized and comes back as it is. *)
Theorem units_text_read_back (registry : gmap string serializer)
    (str_data : string) :
  standard registry →
  deserialize_value registry (DAtom (AStr (serialized str_data)))
  = if has_char newline str_data then
      Ok (DAtom (AStr (serialized str_data)))
    else if String.prefix "nan" str_data then
      match units (strip (from 3 str_data)) with
      | Some q => Ok (DQuantity (nan_times q))
      | None => Raise UnitError
      end
    else
      match units str_data with
      | Some q => Ok (DQuantity q)
      | None => Raise UnitError
      end.
Proof.
  intros Hstd. rewrite deserialize_value_eq, (Hstd _).
  unfold units_deserialize. rewrite regex_for_serialized_serialized.
  destruct (has_char newline str_data); [done|].
  unfold quantity_of. destruct (String.prefix "nan" str_data).
  - by destruct (units (strip (from 3 str_data))).
  - by destruct (units str_data).
Qed.

(** The [unit] argument of [UnitsSerializer.deserialize] never converts
    anything: what a call with a unit returns is what the call without it
    returns, and on a list that is not empty a call with a unit returns
    nothing, it raises. *)
Theorem units_deserialize_unit_unused (data : units_data) (unit : Unit) :
  (∀ r, UnitsSerializer_deserialize data (Some unit) = Ok r →
        UnitsSerializer_deserialize data None = Ok r)
  ∧ (∀ d l, data = UList (d :: l) →
       ∃ e, UnitsSerializer_deserialize data (Some unit) = Raise e).
Proof.
  split.
  - intros r. destruct data as [s|l]; cbn [UnitsSerializer_deserialize].
    + destruct (units_deserialize s) as [e|q]; [done|]. cbn [bind].
      by destruct (to q unit).
    + destruct l as [|d l]; [done|].
      match goal with
      | |- bind ?c _ = _ → _ => destruct c as [e|qs]
      end; done.
  - intros d l ->. cbn [UnitsSerializer_deserialize].
    match goal with
    | |- ∃ e, bind ?c _ = _ => destruct c as [e|qs]
    end; cbn [bind comprehension]; by eexists.
Qed.

Lemma the_registry_standard : standard the_registry.
Proof.
  intros v. unfold compatible_serializers.
  set (l := omap (access the_registry) (list_names the_registry)).
  vm_compute in l. subst l.
  destruct v as [[|b|z|f|s]|l|m|q]; try reflexivity.
  rewrite !filter_cons. cbn [can_deserialize].
  by destruct (regex_for_serialized s).
Qed.

End DeserializeFacts.

Lemma deserialize_value_settled_witness :
  Deserialize.settled (P := Deserialize.texts) Deserialize.the_registry
    (Deserialize.DList
       [Deserialize.DAtom (AStr "units[1 fg]");
        Deserialize.DDict {[ "mass" := Deserialize.DAtom (AFloat 1.5%float) ]}])
  ∧ Deserialize.deserialize_value (P := Deserialize.texts)
      Deserialize.the_registry
      (Deserialize.DList
         [Deserialize.DAtom (AStr "units[1 fg]");
          Deserialize.DDict {[ "mass" := Deserialize.DAtom (AFloat 1.5%float) ]}])
    = Ok (Deserialize.DList
            [Deserialize.DAtom (AStr "units[1 fg]");
             Deserialize.DDict {[ "mass" := Deserialize.DAtom (AFloat 1.5%float) ]}]).
Proof.
  assert (Deserialize.settled (P := Deserialize.texts) Deserialize.the_registry
    (Deserialize.DList
       [Deserialize.DAtom (AStr "units[1 fg]");
        Deserialize.DDict {[ "mass" := Deserialize.DAtom (AFloat 1.5%float) ]}]))
    as Hsettled.
  { apply Deserialize.settled_list; [by rewrite the_registry_standard|].
    apply Forall_cons. split.
    { apply Deserialize.settled_leaf. by rewrite the_registry_standard. }
    apply Forall_cons. split; [|by apply Forall_nil].
    apply Deserialize.settled_dict; [by rewrite the_registry_standard|].
    intros k x [<- <-]%lookup_singleton_Some.
    apply Deserialize.settled_leaf. by rewrite the_registry_standard. }
  split; [exact Hsettled|].
  exact (deserialize_value_settled (P := Deserialize.texts)
           Deserialize.the_registry _ Hsettled).
Defined.

Example deserialize_value_sample :
  Deserialize.deserialize_value (P := Deserialize.texts)
    Deserialize.the_registry
    (Deserialize.DList
       [Deserialize.DAtom (AStr "!units[nan fg]");
        Deserialize.DDict {[ "mass" := Deserialize.DAtom (AStr "!units[1 fg]") ]}])
  = Ok (Deserialize.DList
          [Deserialize.DQuantity (P := Deserialize.texts) (None, "fg");
           Deserialize.DDict
             {[ "mass" := Deserialize.DQuantity (P := Deserialize.texts)
                            (Some (), "1 fg") ]}]).
Proof.
  rewrite deserialize_value_eq, the_registry_standard.
  cbn [Deserialize.comprehension].
  rewrite !deserialize_value_eq, !the_registry_standard.
  cbn [Deserialize.bind]. rewrite map_fold_singleton.
  rewrite !deserialize_value_eq, !the_registry_standard.
  reflexivity.
Qed.

Lemma deserialize_value_idempotent_witness :
  Deserialize.standard (P := Deserialize.texts) Deserialize.the_registry
  ∧ Deserialize.deserialize_value (P := Deserialize.texts)
      Deserialize.the_registry
      (Deserialize.DList
         [Deserialize.DAtom (AStr "!units[nan fg]");
          Deserialize.DDict {[ "mass" := Deserialize.DAtom (AStr "!units[1 fg]") ]}])
    = Ok (Deserialize.DList
            [Deserialize.DQuantity (P := Deserialize.texts) (None, "fg");
             Deserialize.DDict
               {[ "mass" := Deserialize.DQuantity (P := Deserialize.texts)
                              (Some (), "1 fg") ]}])
  ∧ Deserialize.deserialize_value (P := Deserialize.texts)
      Deserialize.the_registry
      (Deserialize.DList
          [Deserialize.DQuantity (P := Deserialize.texts) (None, "fg");
           Deserialize.DDict
             {[ "mass" := Deserialize.DQuantity (P := Deserialize.texts)
                            (Some (), "1 fg") ]}])
    = Ok (Deserialize.DList
            [Deserialize.DQuantity (P := Deserialize.texts) (None, "fg");
             Deserialize.DDict
               {[ "mass" := Deserialize.DQuantity (P := Deserialize.texts)
                              (Some (), "1 fg") ]}]).
Proof.
  split; [exact the_registry_standard|]. split; [exact deserialize_value_sample|].
  exact (deserialize_value_idempotent (P := Deserialize.texts)
           Deserialize.the_registry _ _ the_registry_standard
           deserialize_value_sample).
Defined.

(** The unit nanometer, which pint reads from its text, is not read back
    from what the serializer writes for it. *)
Lemma units_text_read_back_witness :
  Deserialize.standard (P := Deserialize.unit_names) Deserialize.the_registry
  ∧ @Deserialize.units Deserialize.unit_names "nanometer"
    = Some (Some (), "nanometer")
  ∧ Deserialize.serialized "nanometer" = "!units[nanometer]"
  ∧ Deserialize.deserialize_value (P := Deserialize.unit_names)
      Deserialize.the_registry
      (Deserialize.DAtom (AStr (Deserialize.serialized "nanometer")))
    = Raise Deserialize.UnitError.
Proof.
  split; [exact the_registry_standard|]. split; [reflexivity|].
  split; [reflexivity|].
  refine (eq_trans (units_text_read_back (P := Deserialize.unit_names)
                      Deserialize.the_registry "nanometer"
                      the_registry_standard) _).
  reflexivity.
Defined.

(** A mass is read back; a magnitude that is not a number comes back with
    the unit pint reads from the rest of the text. *)
Example units_text_read_back_mass :
  Deserialize.deserialize_value (P := Deserialize.unit_names)
    Deserialize.the_registry
    (Deserialize.DAtom (AStr (Deserialize.serialized "1 fg")))
  = Ok (Deserialize.DQuantity (P := Deserialize.unit_names) (Some (), "1 fg"))
  ∧ Deserialize.deserialize_value (P := Deserialize.unit_names)
      Deserialize.the_registry
      (Deserialize.DAtom (AStr (Deserialize.serialized "nan fg")))
    = Ok (Deserialize.DQuantity (P := Deserialize.unit_names) (None, "fg")).
Proof.
  split; rewrite deserialize_value_eq, the_registry_standard; reflexivity.
Qed.

(** ** Division *)

Lemma append_assoc (a b c : string) : (a +:+ b) +:+ c = a +:+ (b +:+ c).
Proof.
  induction a as [|x a IH]; [done|].
  change (String x a +:+ b) with (String x (a +:+ b)).
  change (String x (a +:+ b) +:+ c) with (String x ((a +:+ b) +:+ c)).
  change (String x a +:+ (b +:+ c)) with (String x (a +:+ (b +:+ c))).
  by rewrite IH.
Qed.

Lemma append_inj_l (a b c : string) : a +:+ b = a +:+ c → b = c.
Proof.
  induction a as [|x a IH]; [done|].
  change (String x a +:+ b) with (String x (a +:+ b)).
  change (String x a +:+ c) with (String x (a +:+ c)).
  intros [= H]. by apply IH.
Qed.

Lemma descendant_text cell history :
  descendant cell history = cell +:+ history_text history.
Proof.
  revert cell. induction history as [|second history IH]; intros cell.
  - cbn [descendant history_text]. induction cell as [|x cell IHcell]; [done|].
    change (String x cell +:+ "") with (String x (cell +:+ "")).
    by rewrite <- IHcell.
  - cbn [descendant history_text]. rewrite IH.
    destruct second; cbn [daughter_phylogeny_id lookup list_lookup default
      from_option id]; by rewrite append_assoc.
Qed.

Lemma history_text_inj h1 : ∀ h2, history_text h1 = history_text h2 → h1 = h2.
Proof.
  induction h1 as [|b1 h1 IH]; intros [|b2 h2]; cbn [history_text].
  - done.
  - by destruct b2.
  - by destruct b1.
  - destruct b1, b2; intros [= H]; by rewrite (IH h2 H).
Qed.

(** The ids [daughter_phylogeny_id] gives down a lineage never collide: two
    cells that descend from one cell by different histories of divisions
    have different ids; so the two daughters differ from each other, from
    their mother and from all her other descendants. *)
Theorem lineage_ids_differ (id : string) (history1 history2 : list bool) :
  history1 ≠ history2 →
  descendant id history1 ≠ descendant id history2.
Proof.
  intros Hne Heq. apply Hne. rewrite !descendant_text in Heq.
  by apply history_text_inj, (append_inj_l id).
Qed.

Lemma lineage_ids_differ_witness :
  [true; false] ≠ [true]
  ∧ descendant "agent" [true; false] ≠ descendant "agent" [true].
Proof.
  split; [done|].
  exact (lineage_ids_differ "agent" [true; false] [true] ltac:(done)).
Defined.

Section TopViewFacts.
Import TopView.

Lemma next_update_loop (agents : gmap string value) :
  ∀ update,
    map_fold (λ agent_id agent_state acc,
        update ←! acc;
        go ←! ready agent_state;
        if go : bool then set_top_agents (divide agent_id) update
        else Ok update)
      (Ok {[ "top" := VDict {[ "agents" := VDict ∅ ]} ]}) agents
    = Ok update →
    (∀ agent_id agent_state, agents !! agent_id = Some agent_state →
       is_ok (ready agent_state))
    ∧ (((∀ agent_id agent_state, agents !! agent_id = Some agent_state →
           ready agent_state = Ok false)
        ∧ update = {[ "top" := VDict {[ "agents" := VDict ∅ ]} ]})
       ∨ (∃ mother agent_state,
            agents !! mother = Some agent_state
            ∧ ready agent_state = Ok true
            ∧ update = {[ "top" := VDict {[ "agents" := divide mother ]} ]})).
Proof.
  set (body := λ (agent_id : string) (agent_state : value)
                 (acc : result (gmap string value)),
      rbind acc (λ update,
        rbind (ready agent_state) (λ go : bool,
          if go then set_top_agents (divide agent_id) update else Ok update))).
  set (Q := λ (r : result (gmap string value)) (agents : gmap string value),
    ∀ update, r = Ok update →
      (∀ agent_id agent_state, agents !! agent_id = Some agent_state →
         is_ok (ready agent_state))
      ∧ (((∀ agent_id agent_state, agents !! agent_id = Some agent_state →
             ready agent_state = Ok false)
          ∧ update = {[ "top" := VDict {[ "agents" := VDict ∅ ]} ]})
         ∨ (∃ mother agent_state,
              agents !! mother = Some agent_state
              ∧ ready agent_state = Ok true
              ∧ update = {[ "top" := VDict {[ "agents" := divide mother ]} ]}))).
  change (Q (map_fold body (Ok {[ "top" := VDict {[ "agents" := VDict ∅ ]} ]})
               agents) agents).
  apply map_fold_weak_ind; unfold Q; clear Q.
  - intros update [= <-]. split; [by intros ? ? ?%lookup_empty_Some|].
    left. split; [by intros ? ? ?%lookup_empty_Some|done].
  - intros i x m r Hi IH update. unfold body. destruct r as [e|u0]; [done|].
    cbn [rbind]. destruct (ready x) as [e|go] eqn:Hx; [done|]. cbn [rbind].
    destruct (IH u0 eq_refl) as [Hread Hcases].
    assert (∀ agent_id agent_state,
              <[i := x]> m !! agent_id = Some agent_state →
              is_ok (ready agent_state)) as Hread'.
    { intros k st. destruct (decide (i = k)) as [<-|Hne].
      - rewrite lookup_insert_eq. intros [= <-]. by eexists.
      - rewrite lookup_insert_ne by done. apply Hread. }
    destruct go.
    + intros Hset. split; [done|]. right. exists i, x.
      rewrite lookup_insert_eq. split; [done|]. split; [done|].
      destruct Hcases as [[_ ->]|(mother & st & _ & _ & ->)];
        unfold set_top_agents, py_getitem in Hset;
        rewrite lookup_singleton_eq in Hset; cbn [rbind] in Hset;
        injection Hset as <-; by rewrite !insert_singleton_eq.
    + intros [= <-]. split; [done|].
      destruct Hcases as [[Hnone ->]|(mother & st & Hm & Hr & ->)].
      * left. split; [|done]. intros k st. destruct (decide (i = k)) as [<-|Hne].
        -- rewrite lookup_insert_eq. by intros [= <-].
        -- rewrite lookup_insert_ne by done. apply Hnone.
      * right. exists mother, st. split; [|done].
        rewrite lookup_insert_ne; [done|]. intros ->. by rewrite Hi in Hm.
Qed.

(** One call of [TopView.next_update] divides one agent at most, however
    many have the glucose for it: the update that comes back holds no
    division when no agent has, and otherwise the division of one agent
    that has, into the two daughters of [daughter_phylogeny_id]; and it
    comes back only when the glucose of every agent could be read. *)
Theorem top_view_divides_one (timestep : atom) (states update : value) :
  next_update timestep states = Ok update →
  ∃ agents,
    get_in states ["top"; "agents"] = Some (VDict agents)
    ∧ (∀ agent_id agent_state, agents !! agent_id = Some agent_state →
         is_ok (ready agent_state))
    ∧ (((∀ agent_id agent_state, agents !! agent_id = Some agent_state →
           ready agent_state = Ok false)
        ∧ update = VDict {[ "top" := VDict {[ "agents" := VDict ∅ ]} ]})
       ∨ (∃ mother agent_state,
            agents !! mother = Some agent_state
            ∧ ready agent_state = Ok true
            ∧ update
              = VDict {[ "top" := VDict {[ "agents" := VDict
                  {[ "_divide" := VDict
                       {[ "mother" := VStr mother;
                          "daughters" :=
                            VList [VDict {[ "key" := VStr (mother +:+ "0") ]};
                                   VDict {[ "key" := VStr (mother +:+ "1") ]}]
                       ]} ]} ]} ]})).
Proof.
  unfold next_update.
  destruct states as [a|l|states]; try done. cbn [py_getitem lift].
  destruct (states !! "other") as [other|]; [|done]. cbn [bind lift].
  destruct (eq_two other); [|done]. cbn [negb].
  destruct (states !! "top") as [top|] eqn:Htop; [|done]. cbn [bind lift].
  destruct top as [a|l|top]; try done. cbn [py_getitem].
  destruct (top !! "agents") as [agents|] eqn:Hagents; [|done]. cbn [bind lift].
  destruct agents as [a|l|agents]; try done.
  match goal with
  | |- bind (lift ?fold) _ = _ → _ => destruct fold as [e|u] eqn:Hfold
  end; [done|].
  cbn [bind lift]. intros [= <-]. exists agents.
  split.
  { cbn [get_in]. rewrite Htop. cbn [mbind option_bind]. by rewrite Hagents. }
  destruct (next_update_loop agents u Hfold) as [Hread Hcases].
  split; [done|].
  destruct Hcases as [[Hnone ->]|(mother & st & Hm & Hr & ->)]; [by left|].
  right. by exists mother, st.
Qed.

End TopViewFacts.

Lemma top_view_divides_one_witness :
  TopView.next_update (AInt 1) TopView.colony = Ok TopView.colony_update
  ∧ ∃ agents,
      get_in TopView.colony ["top"; "agents"] = Some (VDict agents)
      ∧ (∀ agent_id agent_state, agents !! agent_id = Some agent_state →
           is_ok (TopView.ready agent_state))
      ∧ (((∀ agent_id agent_state, agents !! agent_id = Some agent_state →
             TopView.ready agent_state = Ok false)
          ∧ TopView.colony_update
            = VDict {[ "top" := VDict {[ "agents" := VDict ∅ ]} ]})
         ∨ (∃ mother agent_state,
              agents !! mother = Some agent_state
              ∧ TopView.ready agent_state = Ok true
              ∧ TopView.colony_update
                = VDict {[ "top" := VDict {[ "agents" := VDict
                    {[ "_divide" := VDict
                         {[ "mother" := VStr mother;
                            "daughters" :=
                              VList [VDict {[ "key" := VStr (mother +:+ "0") ]};
                                     VDict {[ "key" := VStr (mother +:+ "1") ]}]
                         ]} ]} ]} ]})).
Proof.
  split; [by vm_compute|].
  exact (top_view_divides_one (AInt 1) TopView.colony TopView.colony_update
           ltac:(by vm_compute)).
Defined.

Lemma units_deserialize_unit_unused_witness :
  Deserialize.UnitsSerializer_deserialize (P := Deserialize.texts)
    (Deserialize.UStr "!units[1 fg]") (Some "g")
  = Ok (Deserialize.One (P := Deserialize.texts) (Some (), "1 fg"))
  ∧ Deserialize.UnitsSerializer_deserialize (P := Deserialize.texts)
      (Deserialize.UStr "!units[1 fg]") None
    = Ok (Deserialize.One (P := Deserialize.texts) (Some (), "1 fg")).
Proof.
  split; [reflexivity|].
  exact (proj1 (units_deserialize_unit_unused (P := Deserialize.texts)
                  (Deserialize.UStr "!units[1 fg]") "g") _ eq_refl).
Defined.
